(** * Tabular catalog reconciliation: menu rows, categories and delivery zones

    A shallow embedding of the reconciliation logic of the dashboard
    ([src/app/dashboard/page.tsx]), of the menu route and of the delivery-zone
    route ([src/app/api/restaurants/[id]/delivery-zones/route.ts]), together
    with the ECMAScript primitives these functions rely on. *)

From Stdlib Require Import List NArith ZArith Lia Bool String Ascii Permutation.
From Stdlib Require Import DecimalPos DecimalN.
Import ListNotations.

Set Implicit Arguments.
Set Warnings "-register-all".

(** ** ECMAScript strings

    A string is its sequence of UTF-16 code units; regular expressions
    without the [u] flag and [trim] work on code units. *)

Module JsString.

Definition jsstring := list N.

(** A string literal of the source (ASCII only). *)
Definition str (s : string) : jsstring :=
  List.map N_of_ascii (list_ascii_of_string s).

Definition eqb (a b : jsstring) : bool :=
  if list_eq_dec N.eq_dec a b then true else false.

(** Truthiness of a string: the empty string is the only falsy one. *)
Definition nonEmpty (s : jsstring) : bool :=
  match s with [] => false | _ :: _ => true end.

(** [a || b] on strings. *)
Definition orElse (a b : jsstring) : jsstring :=
  if nonEmpty a then a else b.

Definition inRange (lo hi c : N) : bool := ((lo <=? c) && (c <=? hi))%N.

(** WhiteSpace and LineTerminator code units: the class [\s] of regular
    expressions and the characters removed by [String.prototype.trim]. *)
Definition isWhiteSpace (c : N) : bool :=
  inRange 9 13 c || (c =? 32)%N || (c =? 160)%N || (c =? 5760)%N
  || inRange 8192 8202 c || (c =? 8232)%N || (c =? 8233)%N || (c =? 8239)%N
  || (c =? 8287)%N || (c =? 12288)%N || (c =? 65279)%N.

(** [\d]. *)
Definition isDigit (c : N) : bool := inRange 48 57 c.

(** [[a-z0-9]] and [[^a-z0-9]]. *)
Definition isLowerAlnum (c : N) : bool := inRange 97 122 c || isDigit c.
Definition notLowerAlnum (c : N) : bool := negb (isLowerAlnum c).

Definition hyphen : N := 45.
Definition isHyphen (c : N) : bool := (c =? hyphen)%N.

Section Runs.
Variable p : N -> bool.

Fixpoint dropWhile (s : jsstring) : jsstring :=
  match s with
  | [] => []
  | c :: t => if p c then dropWhile t else s
  end.

Fixpoint dropWhileEnd (s : jsstring) : jsstring :=
  match s with
  | [] => []
  | c :: t =>
      match dropWhileEnd t with
      | [] => if p c then [] else [c]
      | t' => c :: t'
      end
  end.

(** Replacing [/^P+|P+$/g] by the empty string: the leading and the
    trailing run of characters of the class go. *)
Definition stripEnds (s : jsstring) : jsstring := dropWhileEnd (dropWhile s).

(** [s.replace(/P+/g, r)]: every maximal run of characters of the class is
    replaced by [r]; [inRun] tells that the previous character belonged to
    a run that has been replaced already. *)
Fixpoint replaceRunsFrom (r : jsstring) (inRun : bool) (s : jsstring) : jsstring :=
  match s with
  | [] => []
  | c :: t =>
      if p c
      then (if inRun then [] else r) ++ replaceRunsFrom r true t
      else c :: replaceRunsFrom r false t
  end.

Definition replaceRuns (r s : jsstring) : jsstring := replaceRunsFrom r false s.

(** Replacing [/P/g] by the empty string. *)
Definition removeAll (s : jsstring) : jsstring := filter (fun c => negb (p c)) s.
End Runs.

(** [String.prototype.trim]. *)
Definition trim (s : jsstring) : jsstring := stripEnds isWhiteSpace s.

(** [s.replace(/\s+/g, " ")]. *)
Definition collapseWhiteSpace (s : jsstring) : jsstring :=
  replaceRuns isWhiteSpace [32%N] s.

(** [String.prototype.toLowerCase], one code unit at a time.  The ASCII
    letters, U+0130 (which becomes [i] followed by U+0307) and U+212A (the
    Kelvin sign, which becomes [k]) are the only characters whose lower case
    contains an ASCII code unit.  Every other character outside ASCII is
    mapped by ECMAScript to characters outside ASCII; it is kept as it is
    here, which the functions below cannot observe: they only test code
    units against ASCII classes and ASCII literals. *)
Definition lowerUnit (c : N) : jsstring :=
  if inRange 65 90 c then [(c + 32)%N]
  else if (c =? 304)%N then [105%N; 775%N]
  else if (c =? 8490)%N then [107%N]
  else [c].

Definition toLowerCase (s : jsstring) : jsstring := flat_map lowerUnit s.

(** Decimal digits of a natural number, as [String(n)] and template literals
    print an integer counter. *)
Fixpoint uintUnits (d : Decimal.uint) : jsstring :=
  match d with
  | Decimal.Nil => []
  | Decimal.D0 d' => 48%N :: uintUnits d'
  | Decimal.D1 d' => 49%N :: uintUnits d'
  | Decimal.D2 d' => 50%N :: uintUnits d'
  | Decimal.D3 d' => 51%N :: uintUnits d'
  | Decimal.D4 d' => 52%N :: uintUnits d'
  | Decimal.D5 d' => 53%N :: uintUnits d'
  | Decimal.D6 d' => 54%N :: uintUnits d'
  | Decimal.D7 d' => 55%N :: uintUnits d'
  | Decimal.D8 d' => 56%N :: uintUnits d'
  | Decimal.D9 d' => 57%N :: uintUnits d'
  end.

Definition decimal (n : N) : jsstring := uintUnits (N.to_uint n).

(** [a.join(sep)]. *)
Fixpoint join (sep : jsstring) (l : list jsstring) : jsstring :=
  match l with
  | [] => []
  | [a] => a
  | a :: t => a ++ sep ++ join sep t
  end.

(** [String.prototype.startsWith]-style prefix removal. *)
Fixpoint stripPrefix (pre s : jsstring) : option jsstring :=
  match pre, s with
  | [], _ => Some s
  | a :: pre', b :: s' => if (a =? b)%N then stripPrefix pre' s' else None
  | _ :: _, [] => None
  end.


(** *** Vocabulary of the properties *)

(** The string starts with a character of the class. *)
Definition startsIn (p : N -> bool) (s : jsstring) : bool :=
  match s with
  | [] => false
  | c :: _ => p c
  end.

(** Every character of the class in the string is the character [x], and
    is not followed by another character of the class. *)
Fixpoint isolated (p : N -> bool) (x : N) (s : jsstring) : bool :=
  match s with
  | [] => true
  | c :: t => (if p c then (c =? x)%N && negb (startsIn p t) else true) && isolated p x t
  end.

End JsString.

(** ** ECMAScript numbers

    A Number is a binary64 value.  A finite one is kept as its exact value
    [(-1)^negative * m * 2^e], with [m] odd, or [m = 0] and [e = 0] for the
    two zeros. *)

Module JsNumber.
Import JsString.

Inductive number :=
| NaN
| Infinity (negative : bool)
| Finite (negative : bool) (m : N) (e : Z).

Definition number_eq_dec (a b : number) : {a = b} + {a <> b}.
Proof. decide equality; auto using Bool.bool_dec, N.eq_dec, Z.eq_dec. Defined.

(** [Number.isFinite]. *)
Definition isFinite (x : number) : bool :=
  match x with Finite _ _ _ => true | _ => false end.

Definition zero : number := Finite false 0 0.
(** [x < 0] and [x >= 0]. *)
Definition isNegative (x : number) : bool :=
  match x with
  | NaN => false
  | Infinity s => s
  | Finite s m _ => s && negb (m =? 0)%N
  end.

Definition isNonNegative (x : number) : bool :=
  match x with
  | NaN => false
  | Infinity s => negb s
  | Finite s m _ => negb s || (m =? 0)%N
  end.

(** Truthiness of a number: [0], [-0] and [NaN] are falsy. *)
Definition truthy (x : number) : bool :=
  match x with
  | NaN => false
  | Infinity _ => true
  | Finite _ m _ => negb (m =? 0)%N
  end.

(** The odd part of a positive mantissa, the exponent growing with each
    factor two taken out. *)
Fixpoint oddPart (p : positive) (e : Z) : positive * Z :=
  match p with
  | xO p' => oddPart p' (e + 1)
  | _ => (p, e)
  end.

Definition canonical (negative : bool) (m : Z) (e : Z) : number :=
  match m with
  | Zpos p => let '(p', e') := oddPart p e in Finite negative (Npos p') e'
  | _ => Finite negative 0 0
  end.

(** A natural number below [2^53], and its opposite, as Numbers. *)
Definition ofN (n : N) : number := canonical false (Z.of_N n) 0.
Definition ofNegN (n : N) : number := canonical true (Z.of_N n) 0.

(** The binary64 value nearest to [n / d], ties to even: 53 bits of
    mantissa, exponents from -1074 (subnormal numbers) up, infinity from
    [2^1024] on. *)
Definition round64 (negative : bool) (n : N) (d : positive) : number :=
  match n with
  | N0 => Finite negative 0 0
  | Npos p =>
      let l := (Z.log2 (Zpos p) - Z.log2 (Zpos d))%Z in
      let fl := (if (Zpos d * 2 ^ Z.max 0 l <=? Zpos p * 2 ^ Z.max 0 (- l))
                 then l else l - 1)%Z in
      let e := Z.max (-1074) (fl - 52) in
      let num := (Zpos p * 2 ^ Z.max 0 (- e))%Z in
      let den := (Zpos d * 2 ^ Z.max 0 e)%Z in
      let q := (num / den)%Z in
      let r := (num mod den)%Z in
      let m := (if (den <? 2 * r) || ((den =? 2 * r) && Z.odd q)
                then q + 1 else q)%Z in
      if ((971 <? e) || ((e =? 971) && (2 ^ 53 <=? m)))%Z
      then Infinity negative
      else canonical negative m e
  end.

(** The value [n * 10^k] as a Number. *)
Definition ofDecimal (negative : bool) (n : N) (k : Z) : number :=
  match k with
  | Zneg k' => round64 negative n (10 ^ k')
  | _ => round64 negative (n * 10 ^ Z.to_N k) 1
  end.

(** *** StringToNumber *)

Definition digitsValue (base : N) (s : jsstring) : N :=
  fold_left (fun a c => (base * a + c)%N) s 0%N.

Definition decimalDigit (c : N) : option N :=
  if isDigit c then Some (c - 48)%N else None.

Definition hexDigit (c : N) : option N :=
  if isDigit c then Some (c - 48)%N
  else if inRange 97 102 c then Some (c - 87)%N
  else if inRange 65 70 c then Some (c - 55)%N
  else None.

Definition octalDigit (c : N) : option N :=
  if inRange 48 55 c then Some (c - 48)%N else None.

Definition binaryDigit (c : N) : option N :=
  if inRange 48 49 c then Some (c - 48)%N else None.

(** The longest prefix of digits, as digit values, and the rest. *)
Fixpoint spanDigits (digit : N -> option N) (s : jsstring) : list N * jsstring :=
  match s with
  | [] => ([], [])
  | c :: t =>
      match digit c with
      | Some v => let '(ds, rest) := spanDigits digit t in (v :: ds, rest)
      | None => ([], s)
      end
  end.

(** A non-empty string of digits of the base, and nothing else. *)
Definition allDigits (digit : N -> option N) (base : N) (s : jsstring) : option N :=
  match spanDigits digit s with
  | ((_ :: _) as ds, []) => Some (digitsValue base ds)
  | _ => None
  end.

(** ExponentPart, after the mantissa: empty, or [e] or [E], an optional
    sign and digits. *)
Definition exponentPart (s : jsstring) : option Z :=
  match s with
  | [] => Some 0%Z
  | c :: t =>
      if (c =? 101)%N || (c =? 69)%N then
        match t with
        | 43%N :: ds => option_map Z.of_N (allDigits decimalDigit 10 ds)
        | 45%N :: ds => option_map (fun v => (- Z.of_N v)%Z) (allDigits decimalDigit 10 ds)
        | ds => option_map Z.of_N (allDigits decimalDigit 10 ds)
        end
      else None
  end.

(** StrUnsignedDecimalLiteral. *)
Definition unsignedDecimal (negative : bool) (s : jsstring) : number :=
  if eqb s (str "Infinity") then Infinity negative
  else
    let '(ip, rest) := spanDigits decimalDigit s in
    let '(fp, rest') :=
      match rest with
      | 46%N :: t => spanDigits decimalDigit t
      | _ => ([], rest)
      end in
    match ip ++ fp with
    | [] => NaN
    | ds =>
        match exponentPart rest' with
        | Some ex =>
            ofDecimal negative (digitsValue 10 ds) (ex - Z.of_nat (List.length fp))
        | None => NaN
        end
    end.

Definition nonDecimal (digit : N -> option N) (base : N) (s : jsstring) : number :=
  match allDigits digit base s with
  | Some v => round64 false v 1
  | None => NaN
  end.

(** [Number(s)] for a string [s]. *)
Definition StringToNumber (s : jsstring) : number :=
  match trim s with
  | [] => zero
  | 43%N :: t => unsignedDecimal false t
  | 45%N :: t => unsignedDecimal true t
  | 48%N :: c :: t =>
      if (c =? 120)%N || (c =? 88)%N then nonDecimal hexDigit 16 t
      else if (c =? 111)%N || (c =? 79)%N then nonDecimal octalDigit 8 t
      else if (c =? 98)%N || (c =? 66)%N then nonDecimal binaryDigit 2 t
      else unsignedDecimal false (trim s)
  | t => unsignedDecimal false t
  end.

(** *** Number::toString

    The shortest decimal [s * 10^(n - k)], with [k] digits, that reads back
    as the number, and its layout. *)

Definition pow10 (k : Z) : Z := (10 ^ k)%Z.

(** [x = num / den] for the positive finite number [m * 2^e]. *)
Definition fraction (m : N) (e : Z) : Z * Z :=
  match e with
  | Zneg e' => (Z.of_N m, Z.pow_pos 2 e')
  | _ => (Z.of_N m * 2 ^ e, 1)%Z
  end.

Fixpoint firstScale (fuel : nat) (num den t : Z) : Z :=
  match fuel with
  | O => t
  | S fuel' =>
      if (den <=? num * pow10 t)%Z then t else firstScale fuel' num den (t + 1)%Z
  end.

(** The [n] with [10^(n-1) <= num / den < 10^n]. *)
Definition magnitude (num den : Z) : Z :=
  if (den <=? num)%Z
  then Z.of_nat (List.length (decimal (Z.to_N (num / den))))
  else (1 - firstScale 400 num den 1)%Z.

Definition readsBack (x : number) (s n k : Z) : bool :=
  if number_eq_dec (ofDecimal false (Z.to_N s) (n - k)) x then true else false.

(** The digits [s] and the position [n] of the decimal point, trying
    [k], [k+1], ... digits. *)
Fixpoint shortest (fuel : nat) (x : number) (num den n0 k : Z) : Z * Z :=
  let scale := (n0 - k)%Z in
  let a := (num * pow10 (Z.max 0 (- scale)))%Z in
  let b := (den * pow10 (Z.max 0 scale))%Z in
  let lo := (a / b)%Z in
  let hi := (lo + 1)%Z in
  let up := if (hi <? pow10 k)%Z then (hi, n0) else (pow10 (k - 1), n0 + 1)%Z in
  let okLo := readsBack x lo n0 k in
  let okHi := readsBack x (fst up) (snd up) k in
  let dLo := (a - lo * b)%Z in
  let dHi := (hi * b - a)%Z in
  match fuel with
  | O => (lo, n0)
  | S fuel' =>
      if okLo && okHi then
        (if (dLo <? dHi)%Z || ((dLo =? dHi)%Z && Z.even lo) then (lo, n0) else up)
      else if okLo then (lo, n0)
      else if okHi then up
      else shortest fuel' x num den n0 (k + 1)%Z
  end.

Definition zeros (n : Z) : jsstring := repeat 48%N (Z.to_nat n).

Definition layout (digits : jsstring) (n : Z) : jsstring :=
  let k := Z.of_nat (List.length digits) in
  if ((k <=? n) && (n <=? 21))%Z then digits ++ zeros (n - k)
  else if ((0 <? n) && (n <=? 21))%Z then
    firstn (Z.to_nat n) digits ++ str "." ++ skipn (Z.to_nat n) digits
  else if ((-6 <? n) && (n <=? 0))%Z then str "0." ++ zeros (- n) ++ digits
  else
    let ex := (n - 1)%Z in
    let tail := str "e" ++ (if (ex <? 0)%Z then str "-" else str "+")
                ++ decimal (Z.to_N (Z.abs ex)) in
    match digits with
    | [d] => d :: tail
    | d :: ds => d :: str "." ++ ds ++ tail
    | [] => tail
    end.

Definition NumberToString (x : number) : jsstring :=
  match x with
  | NaN => str "NaN"
  | Infinity false => str "Infinity"
  | Infinity true => str "-Infinity"
  | Finite _ N0 _ => str "0"
  | Finite negative m e =>
      let '(num, den) := fraction m e in
      let '(s, n) := shortest 17 (Finite false m e) num den (magnitude num den) 1 in
      (if negative then str "-" else []) ++ layout (decimal (Z.to_N s)) n
  end.

End JsNumber.

(** ** ECMAScript values, exceptions and coercions *)

Module JsValue.
Import JsString JsNumber.

Inductive primitive :=
| Undefined
| Null
| Bool (b : bool)
| Num (x : number)
| Str (s : jsstring).

(** The values [JSON.parse] delivers, and [undefined]. *)
Inductive value :=
| Prim (p : primitive)
| Arr (elems : list value)
| Obj (props : list (jsstring * value)).

Coercion Prim : primitive >-> value.

Inductive exn :=
| TypeError (message : jsstring)
| Error (message : jsstring)
| UnauthorizedError
| NotFoundError.

(** The outcome of evaluating an expression or a function body. *)
Inductive completion (A : Type) :=
| Normal (a : A)
| Throw (e : exn).

Arguments Normal {A} a.
Arguments Throw {A} e.

Definition bind {A B} (c : completion A) (k : A -> completion B) : completion B :=
  match c with
  | Normal a => k a
  | Throw e => Throw e
  end.

Declare Scope js_scope.
Delimit Scope js_scope with js.
Notation "x <- c ;; k" := (bind c (fun x => k))
  (at level 61, c at next level, right associativity) : js_scope.
Open Scope js_scope.

(** [l.map(f)] where the callback may throw: the first exception ends the
    loop. *)
Fixpoint mapM {A B} (f : A -> completion B) (l : list A) : completion (list B) :=
  match l with
  | [] => Normal []
  | a :: t => b <- f a ;; bs <- mapM f t ;; Normal (b :: bs)
  end.

(** The same with the index as second argument, counting from [i]. *)
Fixpoint mapiM {A B} (f : A -> N -> completion B) (i : N) (l : list A)
  : completion (list B) :=
  match l with
  | [] => Normal []
  | a :: t => b <- f a i ;; bs <- mapiM f (N.succ i) t ;; Normal (b :: bs)
  end.

(** Own property of an object: the first binding of the key. *)
Fixpoint lookup (key : jsstring) (props : list (jsstring * value)) : option value :=
  match props with
  | [] => None
  | (k, v) :: t => if eqb k key then Some v else lookup key t
  end.

Definition hasOwn (key : jsstring) (props : list (jsstring * value)) : bool :=
  match lookup key props with Some _ => true | None => false end.

(** [v.key], for a key that no prototype defines (every key read by the
    code below is one): reading a property of [undefined] or [null] throws,
    primitives and arrays have no such property. *)
Definition get (v : value) (key : string) : completion value :=
  match v with
  | Prim Undefined =>
      Throw (TypeError (str "Cannot read properties of undefined (reading '"
                          ++ str key ++ str "')"))
  | Prim Null =>
      Throw (TypeError (str "Cannot read properties of null (reading '"
                          ++ str key ++ str "')"))
  | Prim _ => Normal (Prim Undefined)
  | Arr _ => Normal (Prim Undefined)
  | Obj props =>
      match lookup (str key) props with
      | Some w => Normal w
      | None => Normal (Prim Undefined)
      end
  end.

(** [v?.key]. *)
Definition optGet (v : value) (key : string) : value :=
  match v with
  | Obj props =>
      match lookup (str key) props with
      | Some w => w
      | None => Prim Undefined
      end
  | _ => Prim Undefined
  end.

(** ToBoolean. *)
Definition truthy (v : value) : bool :=
  match v with
  | Prim Undefined | Prim Null => false
  | Prim (Bool b) => b
  | Prim (Num x) => JsNumber.truthy x
  | Prim (Str s) => nonEmpty s
  | Arr _ | Obj _ => true
  end.

(** [a || b] and [a ?? b]. *)
Definition or (a b : value) : value := if truthy a then a else b.

Definition nullish (v : value) : bool :=
  match v with
  | Prim Undefined | Prim Null => true
  | _ => false
  end.

Definition coalesce (a b : value) : value := if nullish a then b else a.

(** [String(p)] and [Number(p)] on primitives. *)
Definition StringP (p : primitive) : jsstring :=
  match p with
  | Undefined => str "undefined"
  | Null => str "null"
  | Bool true => str "true"
  | Bool false => str "false"
  | Num x => NumberToString x
  | Str s => s
  end.

Definition NumberP (p : primitive) : number :=
  match p with
  | Undefined => NaN
  | Null => zero
  | Bool true => Finite false 1 0
  | Bool false => zero
  | Num x => x
  | Str s => StringToNumber s
  end.

Definition cannotConvert : exn :=
  TypeError (str "Cannot convert object to primitive value").

(** [String(v)]: an array is joined with commas, [undefined] and [null]
    elements printing as nothing; a plain object prints as
    [[object Object]] through [Object.prototype.toString], unless an own
    property [toString] (never callable in parsed JSON) hides that method,
    in which case the conversion throws. *)
Fixpoint ToString (v : value) : completion jsstring :=
  match v with
  | Prim p => Normal (StringP p)
  | Arr elems =>
      let fix each (l : list value) : completion (list jsstring) :=
        match l with
        | [] => Normal []
        | e :: t =>
            s <- (if nullish e then Normal [] else ToString e) ;;
            ss <- each t ;;
            Normal (s :: ss)
        end in
      ss <- each elems ;; Normal (join (str ",") ss)
  | Obj props =>
      if hasOwn (str "toString") props then Throw cannotConvert
      else Normal (str "[object Object]")
  end.

(** [Number(v)]: objects and arrays go through their string. *)
Definition ToNumber (v : value) : completion number :=
  match v with
  | Prim p => Normal (NumberP p)
  | _ => s <- ToString v ;; Normal (StringToNumber s)
  end.

Definition isArray (v : value) : bool :=
  match v with Arr _ => true | _ => false end.

(** [typeof v === "string"], [typeof v === "boolean"] and
    [typeof v === "number"]. *)
Definition asString (v : value) : option jsstring :=
  match v with Prim (Str s) => Some s | _ => None end.

Definition asBool (v : value) : option bool :=
  match v with Prim (Bool b) => Some b | _ => None end.

Definition asNumber (v : value) : option number :=
  match v with Prim (Num x) => Some x | _ => None end.

End JsValue.

(** ** Insertion-ordered maps ([Map<string, V>]) *)

Module JsMap.
Import JsString.

Section Map.
Variable V : Type.

Definition t := list (jsstring * V).

Fixpoint get (m : t) (k : jsstring) : option V :=
  match m with
  | [] => None
  | (k', v) :: rest => if eqb k' k then Some v else get rest k
  end.

(** [m.set(k, v)]: an existing key keeps its place, a new one goes last. *)
Fixpoint set (m : t) (k : jsstring) (v : V) : t :=
  match m with
  | [] => [(k, v)]
  | (k', v') :: rest =>
      if eqb k' k then (k', v) :: rest else (k', v') :: set rest k v
  end.

Definition has (m : t) (k : jsstring) : bool :=
  match get m k with Some _ => true | None => false end.

(** [m.entries()], [m.keys()]. *)
Definition entries (m : t) : list (jsstring * V) := m.
Definition keys (m : t) : list jsstring := List.map fst m.
End Map.

End JsMap.

(** ** The menu editor of the dashboard ([src/app/dashboard/page.tsx]) *)

Module Menu.
Import JsString JsNumber JsValue.

(** [type MenuItem], [type MenuCategory], [type MenuRow].  An optional
    member is an [option]; the identifier is read with [row.id?.trim()],
    so it may be missing as well. *)
Record MenuItem := mkItem {
  item_id : option jsstring;
  item_name : jsstring;
  item_price : number;
  item_description : option jsstring
}.

Record MenuCategory := mkCategory {
  cat_name : jsstring;
  cat_items : list MenuItem
}.

Record MenuRow := mkRow {
  row_id : option jsstring;
  row_category : jsstring;
  row_name : jsstring;
  row_price : number;
  row_description : option jsstring
}.

Definition Uncategorized : jsstring := str "Uncategorized".

(** [slugify]: lower case, every run of characters outside [[a-z0-9]]
    replaced by one hyphen, the hyphens at both ends removed, and the token
    [item] when nothing is left. *)
Definition slugify (value : jsstring) : jsstring :=
  orElse
    (stripEnds isHyphen
       (replaceRuns notLowerAlnum [hyphen] (toLowerCase value)))
    (str "item").

(** [normalizeCategory]: runs of white space collapsed to one space, the
    ends trimmed, and [Uncategorized] when nothing is left. *)
Definition normalizeCategory (value : jsstring) : jsstring :=
  orElse (trim (collapseWhiteSpace value)) Uncategorized.

(** [normalizeHeader]: a leading byte-order mark removed, the ends trimmed,
    lower case, every run of white space and hyphens replaced by one
    underscore. *)
Definition normalizeHeader (header : jsstring) : jsstring :=
  let noBom := match header with 65279%N :: t => t | _ => header end in
  replaceRuns (fun c => isWhiteSpace c || isHyphen c) (str "_")
    (toLowerCase (trim noBom)).

(** [normalizeText], on a spreadsheet cell (Papa.parse and XLSX deliver
    cells as primitives): the string of the cell, nothing for [undefined]
    and [null], with runs of white space collapsed and the ends trimmed. *)
Definition normalizeText (value : primitive) : jsstring :=
  let s := match value with
           | Undefined | Null => []
           | _ => StringP value
           end in
  trim (collapseWhiteSpace s).

(** [parsePrice]: [None] is the source's [null]. *)
Definition parsePrice (value : primitive) : option number :=
  let raw := normalizeText value in
  if nonEmpty raw then
    let cleaned :=
      removeAll (fun c => negb (isDigit c || (c =? 46)%N || isHyphen c)) raw in
    let num := StringToNumber cleaned in
    if isFinite num then Some num else None
  else None.

(** [row.description?.trim() || undefined], and the same test in
    [rowsToCategories] and [categoriesToRows]. *)
Definition trimDescription (d : option jsstring) : option jsstring :=
  match d with
  | Some s => if nonEmpty (trim s) then Some (trim s) else None
  | None => None
  end.

Definition categoriesToRows (cats : list MenuCategory) : list MenuRow :=
  flat_map
    (fun cat =>
       List.map
         (fun it =>
            {| row_id := Some (match item_id it with Some i => i | None => [] end);
               row_category := orElse (cat_name cat) Uncategorized;
               row_name := item_name it;
               row_price := item_price it;
               row_description := trimDescription (item_description it) |})
         (cat_items cat))
    cats.

(** The identifier given to a row: [row.id?.trim() ? row.id.trim() : ...]. *)
Definition explicitId (row : MenuRow) : jsstring :=
  match row_id row with
  | Some i => trim i
  | None => []
  end.

Definition synthesizedId (category name : jsstring) (nextIndex : N) : jsstring :=
  slugify category ++ [hyphen] ++ slugify name ++ [hyphen] ++ decimal nextIndex.

(** One iteration of the callback of [rows.map] in [ensureRowIds], the
    counters being the [Map] the callback closes over. *)
Definition ensureRowId (counters : JsMap.t N) (row : MenuRow) : JsMap.t N * MenuRow :=
  let category := normalizeCategory (row_category row) in
  let name := trim (row_name row) in
  let price := row_price row in
  let nextIndex :=
    (match JsMap.get counters category with Some n => n | None => 0 end + 1)%N in
  let counters' := JsMap.set counters category nextIndex in
  let id := if nonEmpty (explicitId row) then explicitId row
            else synthesizedId category name nextIndex in
  (counters',
   {| row_id := Some id;
      row_category := category;
      row_name := name;
      row_price := price;
      row_description := trimDescription (row_description row) |}).

Fixpoint ensureRowIdsFrom (counters : JsMap.t N) (rows : list MenuRow) : list MenuRow :=
  match rows with
  | [] => []
  | row :: rest =>
      let '(counters', row') := ensureRowId counters row in
      row' :: ensureRowIdsFrom counters' rest
  end.

Definition ensureRowIds (rows : list MenuRow) : list MenuRow :=
  ensureRowIdsFrom [] rows.

(** The test that [rowsToCategories] and [saveMenu] apply to a row:
    [!name || !Number.isFinite(row.price)] is false. *)
Definition validRow (row : MenuRow) : bool :=
  nonEmpty (trim (row_name row)) && isFinite (row_price row).

Definition rowEntry (row : MenuRow) : MenuItem :=
  {| item_id := row_id row;
     item_name := trim (row_name row);
     item_price := row_price row;
     item_description := trimDescription (row_description row) |}.

(** One iteration of [rows.forEach] in [rowsToCategories]. *)
Definition groupRow (grouped : JsMap.t (list MenuItem)) (row : MenuRow)
  : JsMap.t (list MenuItem) :=
  let category := normalizeCategory (row_category row) in
  if validRow row then
    let menus := match JsMap.get grouped category with
                 | Some l => l
                 | None => []
                 end in
    JsMap.set grouped category (menus ++ [rowEntry row])
  else grouped.

Definition rowsToCategories (rows : list MenuRow) : list MenuCategory :=
  List.map (fun '(name, items) => {| cat_name := name; cat_items := items |})
    (JsMap.entries (fold_left groupRow rows [])).

(** *** Loading the stored menu *)

(** The object built for one element of an [items] array or of a flat
    array, [idx] being its index. *)
Definition loadItem (it : value) (idx : N) : completion MenuItem :=
  rawId <- get it "id" ;;
  id <- ToString (or rawId (Str (decimal (idx + 1)))) ;;
  rawName <- get it "name" ;;
  name <- ToString (or rawName (Str [])) ;;
  rawPrice <- get it "price" ;;
  price <- ToNumber (coalesce rawPrice (Num zero)) ;;
  rawDescription <- get it "description" ;;
  Normal {| item_id := Some id;
            item_name := name;
            item_price := price;
            item_description := asString rawDescription |}.

(** [it.name && Number.isFinite(it.price)] *)
Definition keepItem (it : MenuItem) : bool :=
  nonEmpty (item_name it) && isFinite (item_price it).

Definition loadItems (elems : list value) : completion (list MenuItem) :=
  items <- mapiM loadItem 0 elems ;; Normal (filter keepItem items).

Definition loadCategory (c : value) : completion MenuCategory :=
  rawName <- get c "name" ;;
  name <- ToString (or rawName (Str Uncategorized)) ;;
  rawItems <- get c "items" ;;
  items <- match rawItems with
           | Arr elems => loadItems elems
           | _ => Normal []
           end ;;
  Normal {| cat_name := name; cat_items := items |}.

(** [incoming[0]?.items], for an array with the given elements. *)
Definition firstHasItems (elems : list value) : bool :=
  match elems with
  | [] => false
  | first :: _ => truthy (optGet first "items")
  end.

(** The state of the editor that the functions below set:
    [setMenuCategories] and [setMenuRows]. *)
Record menuState := mkState {
  menuCategories : list MenuCategory;
  menuRows : list MenuRow
}.

Definition applyMenuJson (incoming : value) : completion menuState :=
  cats <- match incoming with
          | Arr elems =>
              if firstHasItems elems then mapM loadCategory elems
              else
                items <- loadItems elems ;;
                Normal (match items with
                        | [] => []
                        | _ :: _ => [{| cat_name := Uncategorized; cat_items := items |}]
                        end)
          | _ => Normal []
          end ;;
  Normal {| menuCategories := cats; menuRows := categoriesToRows cats |}.

Definition syncCategoriesFromRows (updated : list MenuRow) : menuState :=
  let normalizedRows := ensureRowIds updated in
  {| menuCategories := rowsToCategories normalizedRows; menuRows := normalizedRows |}.

(** *** Importing a file *)

(** What [Papa.parse(text, { header: true, skipEmptyLines: true })] returns:
    the messages of its errors, [meta.fields], and the records, each keyed
    by field name. *)
Record CsvParsed := mkCsv {
  csv_errors : list jsstring;
  csv_fields : option (list jsstring);
  csv_data : list (list (jsstring * primitive))
}.

(** What [XLSX.read] returns: the sheet names, and for a sheet name the rows
    that [XLSX.utils.sheet_to_json] with [header: 1] makes of that sheet. *)
Record Workbook := mkWorkbook {
  SheetNames : list jsstring;
  sheetRows : jsstring -> list (list primitive)
}.

(** The chosen file: its name, and what the two readers make of its
    contents ([XLSX.read] may throw). *)
Record File := mkFile {
  file_name : jsstring;
  file_csv : CsvParsed;
  file_xlsx : completion Workbook
}.

Inductive importError :=
| UnsupportedFile
| CsvSyntax (message : jsstring)
| MissingColumns (missing : list jsstring)
| NoWorksheet
| EmptySheet
| NoValidRows
| ReaderFailed (e : exn).

(** The message of the [Error] thrown at each place. *)
Definition importErrorText (e : importError) : jsstring :=
  match e with
  | UnsupportedFile => str "Only .csv and .xlsx files are supported."
  | CsvSyntax message => orElse message (str "Failed to parse CSV.")
  | MissingColumns missing =>
      str "Missing required columns: " ++ join (str ", ") missing ++ str "."
  | NoWorksheet => str "Excel file is missing a worksheet."
  | EmptySheet => str "Excel file is empty."
  | NoValidRows => str "No valid rows found in the file."
  | ReaderFailed (TypeError m) => m
  | ReaderFailed (Error m) => m
  | ReaderFailed _ => str "Unknown error"
  end.

Definition endsWith (s suffix : jsstring) : bool :=
  match stripPrefix (rev suffix) (rev s) with
  | Some _ => true
  | None => false
  end.

Definition requiredHeaders : list jsstring := [str "item_name"; str "price"].

Definition includes (l : list jsstring) (x : jsstring) : bool := existsb (eqb x) l.

(** [row[key]] on a record, [row[i]] on an array of cells. *)
Fixpoint field (row : list (jsstring * primitive)) (key : jsstring) : primitive :=
  match row with
  | [] => Undefined
  | (k, v) :: t => if eqb k key then v else field t key
  end.

Definition cellAt (row : list primitive) (i : option N) : primitive :=
  match i with
  | Some n => nth (N.to_nat n) row Undefined
  | None => Undefined
  end.

(** The flat row made of the five cells of a data row, or nothing: the body
    shared by the two [flatMap] callbacks. *)
Definition importRow (itemNameCell priceCell categoryCell idCell descriptionCell : primitive)
  : list MenuRow :=
  let itemName := normalizeText itemNameCell in
  match parsePrice priceCell with
  | None => []
  | Some priceVal =>
      if nonEmpty itemName then
        let category := normalizeCategory (normalizeText categoryCell) in
        let itemId := normalizeText idCell in
        let description := normalizeText descriptionCell in
        [{| row_id := Some itemId;
            row_category := category;
            row_name := itemName;
            row_price := priceVal;
            row_description := if nonEmpty description then Some description else None |}]
      else []
  end.

(** [row[fieldMap.get(h) || ...]], the fallback key being the empty
    string. *)
Definition csvCell (fieldMap : JsMap.t jsstring) (row : list (jsstring * primitive))
    (h : string) : primitive :=
  field row (match JsMap.get fieldMap (str h) with Some f => f | None => [] end).

Definition csvRow (fieldMap : JsMap.t jsstring) (row : list (jsstring * primitive))
  : list MenuRow :=
  importRow (csvCell fieldMap row "item_name") (csvCell fieldMap row "price")
            (csvCell fieldMap row "category") (csvCell fieldMap row "item_id")
            (csvCell fieldMap row "description").

Definition csvRows (parsed : CsvParsed) : importError + list MenuRow :=
  match csv_errors parsed with
  | message :: _ => inl (CsvSyntax message)
  | [] =>
      let fields := match csv_fields parsed with Some f => f | None => [] end in
      let normalized := List.map normalizeHeader fields in
      match filter (fun h => negb (includes normalized h)) requiredHeaders with
      | (_ :: _) as missing => inl (MissingColumns missing)
      | [] =>
          let fieldMap :=
            fold_left (fun m f => JsMap.set m (normalizeHeader f) f) fields [] in
          inr (flat_map (csvRow fieldMap) (csv_data parsed))
      end
  end.

Fixpoint indexHeaders (headerIndex : JsMap.t N) (i : N) (headerRow : list jsstring)
  : JsMap.t N :=
  match headerRow with
  | [] => headerIndex
  | h :: t => indexHeaders (JsMap.set headerIndex h i) (N.succ i) t
  end.

(** [row[headerIndex.get(h) ?? -1]] *)
Definition xlsxCell (headerIndex : JsMap.t N) (row : list primitive) (h : string)
  : primitive :=
  cellAt row (JsMap.get headerIndex (str h)).

Definition xlsxRow (headerIndex : JsMap.t N) (row : list primitive) : list MenuRow :=
  importRow (xlsxCell headerIndex row "item_name") (xlsxCell headerIndex row "price")
            (xlsxCell headerIndex row "category") (xlsxCell headerIndex row "item_id")
            (xlsxCell headerIndex row "description").

Definition headerText (h : primitive) : jsstring :=
  normalizeHeader (match h with Undefined | Null => [] | _ => StringP h end).

Definition xlsxRows (wb : Workbook) : importError + list MenuRow :=
  match SheetNames wb with
  | [] => inl NoWorksheet
  | sheetName :: _ =>
      if nonEmpty sheetName then
        match sheetRows wb sheetName with
        | [] => inl EmptySheet
        | header :: dataRows =>
            let headerRow := List.map headerText header in
            let headerIndex := indexHeaders [] 0 headerRow in
            match filter (fun h => negb (JsMap.has headerIndex h)) requiredHeaders with
            | (_ :: _) as missing => inl (MissingColumns missing)
            | [] => inr (flat_map (xlsxRow headerIndex) dataRows)
            end
        end
      else inl NoWorksheet
  end.

(** The first part of the [try] block of [importMenuFile]: the variable
    [rows] once the file has been read, or the error thrown. *)
Definition readRows (importFile : File) : importError + list MenuRow :=
  let fileName := toLowerCase (file_name importFile) in
  let isCsv := endsWith fileName (str ".csv") in
  let isXlsx := endsWith fileName (str ".xlsx") in
  if negb isCsv && negb isXlsx then inl UnsupportedFile
  else if isCsv then csvRows (file_csv importFile)
  else match file_xlsx importFile with
       | Normal wb => xlsxRows wb
       | Throw e => inl (ReaderFailed e)
       end.

(** The whole [try] block: the rows to install, already given their
    identifiers, or the error thrown. *)
Definition importRows (importFile : File) : importError + list MenuRow :=
  match readRows importFile with
  | inl e => inl e
  | inr [] => inl NoValidRows
  | inr rows => inr (ensureRowIds rows)
  end.

Inductive toast :=
| ToastError (msg : jsstring)
| ToastSuccess (msg : jsstring).

(** [importMenuFile]: the new state of the editor and the toast shown, if
    any. *)
Definition importMenuFile (selectedId : option jsstring) (importFile : option File)
    (st : menuState) : menuState * option toast :=
  match selectedId with
  | None => (st, None)
  | Some sel =>
      if nonEmpty sel then
        match importFile with
        | None => (st, Some (ToastError (str "Pick a .xlsx or .csv file first.")))
        | Some f =>
            match importRows f with
            | inl e => (st, Some (ToastError (importErrorText e)))
            | inr normalizedRows =>
                ({| menuCategories := rowsToCategories normalizedRows;
                    menuRows := normalizedRows |},
                 Some (ToastSuccess
                         (str "Imported "
                            ++ decimal (N.of_nat (List.length normalizedRows))
                            ++ str " items.")))
            end
        end
      else (st, None)
  end.

(** *** Saving the menu *)

(** The body of the request sent to the menu route. *)
Record menuPayload := mkPayload {
  menu_items_json : list MenuCategory;
  menu_image_url : option jsstring
}.

Inductive saveDecision :=
| SaveNothing
| SaveRefused (msg : jsstring)
| SaveRequest (payload : menuPayload) (st : menuState).

(** [saveMenu] up to its request: nothing, a refusal shown as an error
    toast, or the payload posted together with the state installed once the
    route has accepted it. *)
Definition saveMenu (selectedId : option jsstring) (st : menuState)
    (menuImageUrl : jsstring) : saveDecision :=
  match selectedId with
  | None => SaveNothing
  | Some sel =>
      if nonEmpty sel then
        if forallb validRow (menuRows st) then
          let normalizedRows := ensureRowIds (menuRows st) in
          let categories := rowsToCategories normalizedRows in
          match categories with
          | [] => SaveRefused (str "No items to save yet.")
          | _ :: _ =>
              SaveRequest
                {| menu_items_json := categories;
                   menu_image_url :=
                     if nonEmpty menuImageUrl then Some menuImageUrl else None |}
                {| menuCategories := categories; menuRows := normalizedRows |}
          end
        else SaveRefused (str "Please fix menu items (name and price required).")
      else SaveNothing
  end.


(** *** Vocabulary of the properties *)

(** The grouping key of a row. *)
Definition categoryOf (row : MenuRow) : jsstring := normalizeCategory (row_category row).

(** The items that the valid rows of a category make, in row order. *)
Definition itemsOf (rows : list MenuRow) (category : jsstring) : list MenuItem :=
  List.map rowEntry
    (filter (fun r => validRow r && eqb (categoryOf r) category) rows).

(** What a row says of its item, as it stands and once trimmed. *)
Definition triple (row : MenuRow) : jsstring * number * option jsstring :=
  (row_name row, row_price row, row_description row).

Definition trimmedTriple (row : MenuRow) : jsstring * number * option jsstring :=
  (trim (row_name row), row_price row, trimDescription (row_description row)).

(** The number of rows of the category among the first [i + 1] rows. *)
Definition groupIndex (rows : list MenuRow) (i : nat) (category : jsstring) : N :=
  N.of_nat (List.length (filter (fun r => eqb (categoryOf r) category) (firstn (S i) rows))).

(** The identifiers after [n] runs of [ensureRowIds]. *)
Definition idsAfter (n : nat) (rows : list MenuRow) : list (option jsstring) :=
  List.map row_id (Nat.iter n ensureRowIds rows).


(** A row without identifier and description, to write examples with. *)
Definition plainRow (category name : string) (price : number) : MenuRow :=
  {| row_id := None;
     row_category := str category;
     row_name := str name;
     row_price := price;
     row_description := None |}.


(** The array stored for a key, or the empty one. *)
Definition getOr (m : JsMap.t (list MenuItem)) (c : jsstring) : list MenuItem :=
  match JsMap.get m c with Some l => l | None => [] end.

(** What an item says once flattened back to a row. *)
Definition itemTriple (it : MenuItem) : jsstring * number * option jsstring :=
  (item_name it, item_price it, trimDescription (item_description it)).


(** The value of a counter, and the counters once a list of rows has gone
    through the callback of [ensureRowIds]. *)
Definition counterOf (counters : JsMap.t N) (category : jsstring) : N :=
  match JsMap.get counters category with Some n => n | None => 0%N end.

Definition countersAfter (counters : JsMap.t N) (rows : list MenuRow) : JsMap.t N :=
  fold_left (fun m r => fst (ensureRowId m r)) rows counters.


(** The maximal runs of characters of [[a-z0-9]] in a string: the run at
    its start, empty when the string starts with another character, and the
    runs after it. *)
Definition consWord (w : jsstring) (ws : list jsstring) : list jsstring :=
  if nonEmpty w then w :: ws else ws.

Fixpoint splitWords (s : jsstring) : jsstring * list jsstring :=
  match s with
  | [] => ([], [])
  | c :: t =>
      let '(w, ws) := splitWords t in
      if isLowerAlnum c then (c :: w, ws) else ([], consWord w ws)
  end.

Definition words (s : jsstring) : list jsstring :=
  let '(w, ws) := splitWords s in consWord w ws.

(** The slug in the words of the specification: the alphanumeric runs of
    the lower-cased text, joined by single hyphens, and [item] when there
    is none. *)
Definition slugOfWords (value : jsstring) : jsstring :=
  orElse (join [hyphen] (words (toLowerCase value))) (str "item").

(** Every word prefixed by a hyphen. *)
Definition hyphenated (ws : list jsstring) : jsstring :=
  flat_map (fun w => hyphen :: w) ws.


(** Words are not empty and hold characters of [[a-z0-9]] only. *)
Definition wordsOk (ws : list jsstring) : Prop :=
  Forall (fun w => nonEmpty w = true /\ forallb isLowerAlnum w = true) ws.


(** A data row survives the validation of the import when its name cell is
    not blank and its price cell parses. *)
Definition survives (cells : primitive * primitive) : bool :=
  nonEmpty (normalizeText (fst cells))
  && match parsePrice (snd cells) with Some _ => true | None => false end.

(** The name cell and the price cell of every data row of a file that
    passes the structural checks, or the error of the first check that
    fails. *)
Definition csvCells (parsed : CsvParsed) : importError + list (primitive * primitive) :=
  match csv_errors parsed with
  | message :: _ => inl (CsvSyntax message)
  | [] =>
      let fields := match csv_fields parsed with Some f => f | None => [] end in
      match filter (fun h => negb (includes (List.map normalizeHeader fields) h))
                   requiredHeaders with
      | (_ :: _) as missing => inl (MissingColumns missing)
      | [] =>
          let fieldMap :=
            fold_left (fun m f => JsMap.set m (normalizeHeader f) f) fields [] in
          inr (List.map (fun row => (csvCell fieldMap row "item_name",
                                     csvCell fieldMap row "price"))
                        (csv_data parsed))
      end
  end.

Definition xlsxCells (wb : Workbook) : importError + list (primitive * primitive) :=
  match SheetNames wb with
  | [] => inl NoWorksheet
  | sheetName :: _ =>
      if nonEmpty sheetName then
        match sheetRows wb sheetName with
        | [] => inl EmptySheet
        | header :: dataRows =>
            let headerIndex := indexHeaders [] 0 (List.map headerText header) in
            match filter (fun h => negb (JsMap.has headerIndex h)) requiredHeaders with
            | (_ :: _) as missing => inl (MissingColumns missing)
            | [] =>
                inr (List.map (fun row => (xlsxCell headerIndex row "item_name",
                                           xlsxCell headerIndex row "price"))
                              dataRows)
            end
        end
      else inl NoWorksheet
  end.

Definition readCells (importFile : File) : importError + list (primitive * primitive) :=
  let fileName := toLowerCase (file_name importFile) in
  if endsWith fileName (str ".csv") then csvCells (file_csv importFile)
  else if endsWith fileName (str ".xlsx") then
    match file_xlsx importFile with
    | Normal wb => xlsxCells wb
    | Throw e => inl (ReaderFailed e)
    end
  else inl UnsupportedFile.

(** An error of the structure of the file, as opposed to the lack of valid
    rows. *)
Definition structural (e : importError) : bool :=
  match e with NoValidRows => false | _ => true end.


(** A data row yields no flat row when it does not survive, and one valid
    flat row when it does. *)
Definition rowOutcome (cells : primitive * primitive) (out : list MenuRow) : Prop :=
  (survives cells = false /\ out = [])
  \/ (survives cells = true /\ exists r, out = [r] /\ validRow r = true).

(** What reading a file yields, against the cells of its data rows. *)
Definition readAgrees (cells : importError + list (primitive * primitive))
    (rows : importError + list MenuRow) : Prop :=
  match cells with
  | inl e => rows = inl e /\ structural e = true
  | inr cs =>
      exists rs, rows = inr rs
                 /\ List.length rs = List.length (filter survives cs)
                 /\ forallb validRow rs = true
  end.


(** A file of comma-separated values as Papa.parse reads it, to write
    examples with: its name, its header line and its data lines. *)
Definition csvFile (name : string) (header : list string) (lines : list (list string))
  : File :=
  {| file_name := str name;
     file_csv :=
       {| csv_errors := [];
          csv_fields := Some (List.map str header);
          csv_data :=
            List.map (fun line =>
                        List.map (fun '(k, v) => (str k, Str (str v)))
                                 (combine header line))
                     lines |};
     file_xlsx := Throw (Error (str "Not a workbook.")) |}.


(** *** Vocabulary of the stored menu *)

(** [l.map(f)] with the index, for a callback that does not throw. *)
Fixpoint mapi {A B : Type} (f : A -> N -> B) (i : N) (l : list A) : list B :=
  match l with
  | [] => []
  | a :: t => f a i :: mapi f (N.succ i) t
  end.

Definition toPrimitive (v : value) : primitive :=
  match v with Prim p => p | _ => Undefined end.

(** The member is a primitive, or missing. *)
Definition primitiveMember (v : value) (key : string) : bool :=
  match optGet v key with Prim _ => true | _ => false end.

(** An element from which an item can be read without any exception: it is
    neither [null] nor [undefined], and what it has for [id], [name] and
    [price] are primitives. *)
Definition plainItem (v : value) : bool :=
  negb (nullish v)
  && primitiveMember v "id" && primitiveMember v "name" && primitiveMember v "price".

(** The item read from such an element. *)
Definition itemOf (it : value) (idx : N) : MenuItem :=
  {| item_id :=
       Some (StringP (toPrimitive (or (optGet it "id") (Str (decimal (idx + 1))))));
     item_name := StringP (toPrimitive (or (optGet it "name") (Str [])));
     item_price := NumberP (toPrimitive (coalesce (optGet it "price") (Num zero)));
     item_description := asString (optGet it "description") |}.

(** The valid items among those read from the elements. *)
Definition validItems (elems : list value) : list MenuItem :=
  filter keepItem (mapi itemOf 0 elems).

(** An element from which a group can be read without any exception, and
    the group read from it. *)
Definition plainCategory (c : value) : bool :=
  negb (nullish c) && primitiveMember c "name"
  && match optGet c "items" with
     | Arr elems => forallb plainItem elems
     | _ => true
     end.

Definition groupOf (c : value) : MenuCategory :=
  {| cat_name := StringP (toPrimitive (or (optGet c "name") (Str Uncategorized)));
     cat_items := match optGet c "items" with
                  | Arr elems => validItems elems
                  | _ => []
                  end |}.

Definition emptyCatalog : menuState := {| menuCategories := []; menuRows := [] |}.

Definition catalogOf (cats : list MenuCategory) : menuState :=
  {| menuCategories := cats; menuRows := categoriesToRows cats |}.

(** An object of parsed JSON with text members, to write examples with. *)
Definition object (members : list (string * value)) : value :=
  Obj (List.map (fun '(k, v) => (str k, v)) members).

Definition text (s : string) : value := Prim (Str (str s)).


(** The words of a name: its maximal runs of characters that are no white
    space, in order.  Two names differ only in white space (leading,
    trailing, or between words) when they have the same words. *)
Fixpoint splitTokens (s : jsstring) : jsstring * list jsstring :=
  match s with
  | [] => ([], [])
  | c :: t =>
      let '(w, ws) := splitTokens t in
      if isWhiteSpace c then ([], consWord w ws) else (c :: w, ws)
  end.

Definition tokens (s : jsstring) : list jsstring :=
  let '(w, ws) := splitTokens s in consWord w ws.

(** The words of a category name, a name without any word standing for
    [Uncategorized]. *)
Definition categoryWords (s : jsstring) : list jsstring :=
  match tokens s with
  | [] => [Uncategorized]
  | (_ :: _) as ws => ws
  end.

(** Every word prefixed by a space. *)
Definition spaced (ws : list jsstring) : jsstring :=
  flat_map (fun w => 32%N :: w) ws.

(** Tokens are not empty and hold no white space. *)
Definition tokensOk (ws : list jsstring) : Prop :=
  Forall (fun w => nonEmpty w = true
                   /\ forallb (fun c => negb (isWhiteSpace c)) w = true) ws.

End Menu.

(** ** Responses of the route handlers *)

Module Route.
Import JsString JsValue.

(** The [error] member of a response: the message of the first issue that
    zod reports, or a text. *)
Inductive errorText :=
| SchemaIssue
| Message (s : jsstring).

Inductive response :=
| Success
| SuccessCount (count : N)
| Failure (status : N) (error : errorText).

(** The [catch] clause shared by the handlers. *)
Definition caught (e : exn) : response :=
  match e with
  | UnauthorizedError => Failure 401 (Message (str "Unauthorized"))
  | NotFoundError => Failure 404 (Message (str "Restaurant not found"))
  | Error m => Failure 500 (Message m)
  | TypeError m => Failure 500 (Message m)
  end.

End Route.

(** ** The menu route ([POST /api/restaurants/[id]/menu]) *)

Module MenuRoute.
Import JsString JsNumber JsValue Menu Route.

(** [z.coerce.number().nonnegative()] on the price that [JSON.stringify]
    wrote: a finite number is written as it is, any other as [null], which
    the coercion turns into zero. *)
Definition priceSchema (p : number) : bool :=
  if isFinite p then isNonNegative p else true.

(** [ItemSchema]. *)
Definition ItemSchema (it : MenuItem) : bool :=
  match item_id it with
  | Some id => nonEmpty id
  | None => false
  end
  && nonEmpty (item_name it)
  && priceSchema (item_price it).

(** The member [menu_items_json] of [MenuUpsertSchema], on the categories
    that [saveMenu] sends: the first alternative of the union, an array of
    items, accepts the empty array only; the second wants named groups of
    items. *)
Definition itemsJsonSchema (cats : list MenuCategory) : bool :=
  match cats with
  | [] => true
  | _ :: _ =>
      forallb (fun c => nonEmpty (cat_name c) && forallb ItemSchema (cat_items c)) cats
  end.

(** The data that the schema hands back, [parsed.data]: the body read from
    its JSON with every price coerced by [z.coerce.number()].  A price that
    is no finite number was written as [null], which [Number] reads as
    zero, and [-0] was written as [0]. *)
Definition coercedPrice (p : number) : number :=
  if isFinite p && JsNumber.truthy p then p else zero.

Definition parsedItem (it : MenuItem) : MenuItem :=
  {| item_id := item_id it;
     item_name := item_name it;
     item_price := coercedPrice (item_price it);
     item_description := item_description it |}.

Definition parsedCategory (c : MenuCategory) : MenuCategory :=
  {| cat_name := cat_name c; cat_items := List.map parsedItem (cat_items c) |}.

Definition parsedData (body : menuPayload) : menuPayload :=
  {| menu_items_json := List.map parsedCategory (menu_items_json body);
     menu_image_url := menu_image_url body |}.

Section Handler.
(** [z.string().url()] *)
Variable isUrl : jsstring -> bool.

Definition MenuUpsertSchema (body : menuPayload) : bool :=
  itemsJsonSchema (menu_items_json body)
  && match menu_image_url body with
     | Some u => isUrl u
     | None => true
     end.

(** The table [menus], one row for a restaurant: the stored
    [menu_items_json] and [menu_image_url]. *)
Definition menus := list (jsstring * menuPayload).

Fixpoint upsert (table : menus) (id : jsstring) (row : menuPayload) : menus :=
  match table with
  | [] => [(id, row)]
  | (k, old) :: rest =>
      if eqb k id
      then (k, {| menu_items_json := menu_items_json row;
                  menu_image_url :=
                    match menu_image_url row with
                    | Some u => Some u
                    | None => menu_image_url old
                    end |}) :: rest
      else (k, old) :: upsert rest id row
  end.

(** [POST]: [access] is the outcome of the two guards, [fault] the error of
    the upsert, if the store reports one.  The row written holds
    [parsed.data], not the body as it was posted. *)
Definition POST (access : completion unit) (id : jsstring) (body : menuPayload)
    (fault : option jsstring) (table : menus) : response * menus :=
  match access with
  | Throw e => (caught e, table)
  | Normal _ =>
      if MenuUpsertSchema body then
        match fault with
        | Some m => (caught (Error m), table)
        | None => (Success, upsert table id (parsedData body))
        end
      else (Failure 422 SchemaIssue, table)
  end.
End Handler.

(** *** Vocabulary of the properties *)

(** The row of a restaurant in the table [menus]. *)
Fixpoint menuOf (table : menus) (id : jsstring) : option menuPayload :=
  match table with
  | [] => None
  | (k, row) :: rest => if eqb k id then Some row else menuOf rest id
  end.

(** Every price of the stored menu is a finite number that is not
    negative. *)
Definition storablePrice (p : number) : bool := isFinite p && isNonNegative p.

Definition storablePrices (row : menuPayload) : bool :=
  forallb (fun c => forallb (fun it => storablePrice (item_price it)) (cat_items c))
          (menu_items_json row).

End MenuRoute.

(** ** The delivery-zone route ([POST /api/restaurants/[id]/delivery-zones]) *)

Module DeliveryZones.
Import JsString JsNumber JsValue Route.

(** A zone after [normalizeZone], and a row of the table [delivery_zones]
    (the columns [id] and [created_at], which the store fills in, are left
    out). *)
Record Zone := mkZone {
  city : jsstring;
  zone_name : jsstring;
  delivery_fee : number;
  min_order_amount : number;
  is_active : bool
}.

Record ZoneRow := mkZoneRow {
  restaurant_id : jsstring;
  zone : Zone
}.

(** [toNumber]: [None] is [undefined]. *)
Definition toNumber (v : value) : completion (option number) :=
  match v with
  | Prim Undefined | Prim Null => Normal None
  | Prim (Str []) => Normal None
  | Prim (Num x) => Normal (Some (if isFinite x then x else NaN))
  | _ => num <- ToNumber v ;; Normal (Some (if isFinite num then num else NaN))
  end.

(** [toString] *)
Definition toString (v : value) : completion jsstring :=
  match v with
  | Prim Undefined | Prim Null => Normal []
  | _ => s <- ToString v ;; Normal (trim s)
  end.

Definition normalizeZone (input : value) (fallbackCity : jsstring) : completion Zone :=
  ownCity <- toString (optGet input "city") ;;
  let city := orElse ownCity fallbackCity in
  name <- toString (optGet input "zone_name") ;;
  zoneName <- (if nonEmpty name then Normal name else toString (optGet input "area")) ;;
  deliveryFee <- toNumber (coalesce (optGet input "delivery_fee")
                                    (optGet input "deliveryFee")) ;;
  minOrder <- toNumber (coalesce (coalesce (optGet input "min_order_amount")
                                           (optGet input "minOrder"))
                                 (optGet input "min_order")) ;;
  let isActive :=
    match asBool (optGet input "is_active") with
    | Some b => b
    | None => match asBool (optGet input "active") with
              | Some b => b
              | None => true
              end
    end in
  Normal {| city := city;
            zone_name := zoneName;
            delivery_fee := match deliveryFee with
                            | Some x => if isFinite x then x else NaN
                            | None => NaN
                            end;
            min_order_amount := match minOrder with
                                | Some x => if isFinite x then x else zero
                                | None => zero
                                end;
            is_active := isActive |}.

(** An element of [NormalizedZonesSchema]: [z.number().min(0).finite()]
    refuses [NaN], negative and infinite numbers. *)
Definition zoneSchema (z : Zone) : bool :=
  nonEmpty (city z) && nonEmpty (zone_name z)
  && isFinite (delivery_fee z) && isNonNegative (delivery_fee z)
  && isFinite (min_order_amount z) && isNonNegative (min_order_amount z).

Definition NormalizedZonesSchema (zones : list Zone) : bool :=
  match zones with
  | [] => false
  | _ :: _ => forallb zoneSchema zones
  end.

(** [rawZones]: the array [body.zones], or else the one zone written with
    the members of the body itself. *)
Definition bodyMembers : list string :=
  ["city"; "zone_name"; "area"; "delivery_fee"; "deliveryFee"; "min_order_amount";
   "minOrder"; "min_order"; "is_active"; "active"]%string.

Definition rawZones (body : value) : list value :=
  match optGet body "zones" with
  | Arr zones => zones
  | _ => [Obj (List.map (fun k => (str k, optGet body k)) bodyMembers)]
  end.

(** [zonesByCity]: one iteration of [rows.forEach], and the whole map. *)
Definition addZoneName (zonesByCity : JsMap.t (list jsstring)) (row : ZoneRow)
  : JsMap.t (list jsstring) :=
  let list := match JsMap.get zonesByCity (city (zone row)) with
              | Some l => l
              | None => []
              end in
  JsMap.set zonesByCity (city (zone row)) (list ++ [zone_name (zone row)]).

Definition zonesByCity (rows : list ZoneRow) : JsMap.t (list jsstring) :=
  fold_left addZoneName rows [].

(** *** The store

    The table [delivery_zones], and what the store will answer to the
    statements sent to it, in order: [None] when it carries the statement
    out, [Some message] when it reports an error and changes nothing.  A
    store that has no answer left carries every statement out. *)
Record store := mkStore {
  delivery_zones : list ZoneRow;
  answers : list (option jsstring)
}.

(** The filter of the delete statement: [restaurant_id] equal to [id],
    [city] equal to the city of the group, [zone_name] among [zoneNames]. *)
Definition selected (id group : jsstring) (zoneNames : list jsstring) (r : ZoneRow)
  : bool :=
  eqb (restaurant_id r) id && eqb (city (zone r)) group
  && existsb (eqb (zone_name (zone r))) zoneNames.

(** The answer of the store to the next statement, and the answers left. *)
Definition nextAnswer (s : store) : option jsstring * list (option jsstring) :=
  match answers s with
  | [] => (None, [])
  | a :: rest => (a, rest)
  end.

(** The delete statement: the error reported, if any, and the store
    afterwards. *)
Definition deleteZones (id group : jsstring) (zoneNames : list jsstring) (s : store)
  : option jsstring * store :=
  match nextAnswer s with
  | (Some message, rest) =>
      (Some message, {| delivery_zones := delivery_zones s; answers := rest |})
  | (None, rest) =>
      (None,
       {| delivery_zones :=
            filter (fun r => negb (selected id group zoneNames r)) (delivery_zones s);
          answers := rest |})
  end.

(** The insert statement. *)
Definition insertZones (rows : list ZoneRow) (s : store) : option jsstring * store :=
  match nextAnswer s with
  | (Some message, rest) =>
      (Some message, {| delivery_zones := delivery_zones s; answers := rest |})
  | (None, rest) =>
      (None, {| delivery_zones := delivery_zones s ++ rows; answers := rest |})
  end.

(** The loop over [zonesByCity.entries()]: the first error reported is
    thrown as an [Error] with the message of the store. *)
Fixpoint deleteGroups (id : jsstring) (groups : list (jsstring * list jsstring))
    (s : store) : completion unit * store :=
  match groups with
  | [] => (Normal tt, s)
  | (group, zoneNames) :: rest =>
      match deleteZones id group zoneNames s with
      | (Some message, s') => (Throw (Error message), s')
      | (None, s') => deleteGroups id rest s'
      end
  end.

(** [rows]: the zones of the batch as rows of the restaurant. *)
Definition rowsOf (id : jsstring) (zones : list Zone) : list ZoneRow :=
  List.map (fun z => {| restaurant_id := id; zone := z |}) zones.

(** The safe-replace protocol: the name lists, the deletes and the
    insert. *)
Definition replaceZones (id : jsstring) (zones : list Zone) (s : store)
  : completion N * store :=
  let rows := rowsOf id zones in
  match deleteGroups id (JsMap.entries (zonesByCity rows)) s with
  | (Throw e, s') => (Throw e, s')
  | (Normal _, s') =>
      match insertZones rows s' with
      | (Some message, s'') => (Throw (Error message), s'')
      | (None, s'') => (Normal (N.of_nat (List.length rows)), s'')
      end
  end.

(** [normalized]: every raw zone of the body, normalised. *)
Definition normalizeBody (body : value) : completion (list Zone) :=
  fallbackCity <- toString (optGet body "city") ;;
  mapM (fun z => normalizeZone z fallbackCity) (rawZones body).

(** [POST]: [access] is the outcome of the two guards. *)
Definition POST (access : completion unit) (id : jsstring) (body : value) (s : store)
  : response * store :=
  match access with
  | Throw e => (caught e, s)
  | Normal _ =>
      match normalizeBody body with
      | Throw e => (caught e, s)
      | Normal normalized =>
          if NormalizedZonesSchema normalized then
            match replaceZones id normalized s with
            | (Throw e, s') => (caught e, s')
            | (Normal count, s') => (SuccessCount count, s')
            end
          else (Failure 400 SchemaIssue, s)
      end
  end.

(** *** Vocabulary of the properties *)

(** The row is one that some delete statement of the loop selects. *)
Definition targeted (id : jsstring) (groups : list (jsstring * list jsstring))
    (r : ZoneRow) : bool :=
  existsb (fun '(group, zoneNames) => selected id group zoneNames r) groups.

(** The row belongs to the restaurant and the batch holds a zone of its
    city and of its name. *)
Definition inBatch (id : jsstring) (zones : list Zone) (r : ZoneRow) : bool :=
  eqb (restaurant_id r) id
  && existsb (fun z => eqb (city z) (city (zone r))
                       && eqb (zone_name z) (zone_name (zone r))) zones.

(** The names of the zones of a city in the batch, in the order of the
    batch. *)
Definition namesOf (rows : list ZoneRow) (group : jsstring) : list jsstring :=
  List.map (fun r => zone_name (zone r))
           (filter (fun r => eqb (city (zone r)) group) rows).

Definition namesOr (m : JsMap.t (list jsstring)) (group : jsstring) : list jsstring :=
  match JsMap.get m group with Some l => l | None => [] end.

(** The rows of the table that a predicate keeps. *)
Definition kept (keep : ZoneRow -> bool) (s : store) : list ZoneRow :=
  filter keep (delivery_zones s).

(** A zone and a request body, to write examples with. *)
Definition zoneOf (cityName zoneName : string) (fee : N) : Zone :=
  {| city := str cityName; zone_name := str zoneName;
     delivery_fee := ofN fee; min_order_amount := zero; is_active := true |}.

Definition zoneValue (cityName zoneName : string) (fee : N) : value :=
  Obj [(str "city", Prim (Str (str cityName)));
       (str "zone_name", Prim (Str (str zoneName)));
       (str "delivery_fee", Prim (Num (ofN fee)))].

Definition bodyOf (zones : list value) : value := Obj [(str "zones", Arr zones)].


(** The group whose delete statement is the first that the store answers
    with an error, and the message of that error, if there is one. *)
Fixpoint failedGroup (groups : list (jsstring * list jsstring))
    (answers : list (option jsstring)) : option (jsstring * jsstring) :=
  match groups, answers with
  | (group, _) :: _, Some message :: _ => Some (group, message)
  | _ :: rest, None :: more => failedGroup rest more
  | _, _ => None
  end.

(** The groups of a batch, in the order of the loop. *)
Definition groupsOf (id : jsstring) (zones : list Zone) : list (jsstring * list jsstring) :=
  JsMap.entries (zonesByCity (rowsOf id zones)).

End DeliveryZones.

(** ** The handlers of the menu editor ([src/app/dashboard/page.tsx]) *)

Module MenuEditor.
Import JsString JsNumber JsValue Menu.

(** [rows.filter((_, i) => i !== idx)] *)
Fixpoint removeAt {A : Type} (idx : nat) (l : list A) : list A :=
  match l, idx with
  | [], _ => []
  | _ :: t, O => t
  | a :: t, S i => a :: removeAt i t
  end.

(** The click on the bin of a row:
    [syncCategoriesFromRows(menuRows.filter((_, i) => i !== idx))]. *)
Definition removeMenuRow (st : menuState) (idx : nat) : menuState :=
  syncCategoriesFromRows (removeAt idx (menuRows st)).

(** [rows.map((x, i) => (i === idx ? f(x) : x))] *)
Fixpoint updateAt {A : Type} (idx : nat) (f : A -> A) (l : list A) : list A :=
  match l, idx with
  | [], _ => []
  | a :: t, O => f a :: t
  | a :: t, S i => a :: updateAt i f t
  end.

Definition withCategory (category : jsstring) (x : MenuRow) : MenuRow :=
  {| row_id := row_id x; row_category := category; row_name := row_name x;
     row_price := row_price x; row_description := row_description x |}.

Definition withName (name : jsstring) (x : MenuRow) : MenuRow :=
  {| row_id := row_id x; row_category := row_category x; row_name := name;
     row_price := row_price x; row_description := row_description x |}.

Definition withPrice (price : number) (x : MenuRow) : MenuRow :=
  {| row_id := row_id x; row_category := row_category x; row_name := row_name x;
     row_price := price; row_description := row_description x |}.

(** The three inputs of a row of the table, [text] being [e.target.value]. *)
Definition editCategory (st : menuState) (idx : nat) (text : jsstring) : menuState :=
  syncCategoriesFromRows (updateAt idx (withCategory text) (menuRows st)).

Definition editName (st : menuState) (idx : nat) (text : jsstring) : menuState :=
  syncCategoriesFromRows (updateAt idx (withName text) (menuRows st)).

Definition editPrice (st : menuState) (idx : nat) (text : jsstring) : menuState :=
  syncCategoriesFromRows
    (updateAt idx (withPrice (StringToNumber text)) (menuRows st)).

(** [menuItemForm] and [menuItemErrors]. *)
Record itemForm := mkForm {
  form_category : jsstring;
  form_item_name : jsstring;
  form_price : jsstring
}.

Record itemErrors := mkErrors {
  err_item_name : option jsstring;
  err_price : option jsstring
}.

Record editor := mkEditor {
  ed_menu : menuState;
  ed_form : itemForm;
  ed_errors : itemErrors
}.

Definition emptyForm : itemForm :=
  {| form_category := []; form_item_name := []; form_price := [] |}.

Definition noErrors : itemErrors := {| err_item_name := None; err_price := None |}.

(** The errors that [addMenuItem] finds in the form. *)
Definition formErrors (form : itemForm) : itemErrors :=
  let price := StringToNumber (form_price form) in
  {| err_item_name :=
       if nonEmpty (trim (form_item_name form)) then None
       else Some (str "Item name is required.");
     err_price :=
       if nonEmpty (trim (form_price form)) && isFinite price then None
       else Some (str "Price must be a number.") |}.

(** [newRow] of [addMenuItem]; its identifier is the empty string. *)
Definition newRow (form : itemForm) : MenuRow :=
  {| row_id := Some [];
     row_category := normalizeCategory (form_category form);
     row_name := trim (form_item_name form);
     row_price := StringToNumber (form_price form);
     row_description := None |}.

Definition addMenuItem (e : editor) : editor :=
  let errs := formErrors (ed_form e) in
  match err_item_name errs, err_price errs with
  | None, None =>
      {| ed_menu := syncCategoriesFromRows (menuRows (ed_menu e) ++ [newRow (ed_form e)]);
         ed_form := emptyForm;
         ed_errors := noErrors |}
  | _, _ => {| ed_menu := ed_menu e; ed_form := ed_form e; ed_errors := errs |}
  end.

(** *** Vocabulary of the properties *)

(** A row as [ensureRowIds] writes it: an identifier that is neither blank
    nor padded, a category in normal form, a trimmed name, and a
    description that is trimmed and not blank, or missing. *)
Definition normalizedRow (r : MenuRow) : bool :=
  match row_id r with
  | Some i => nonEmpty i && eqb (trim i) i
  | None => false
  end
  && eqb (normalizeCategory (row_category r)) (row_category r)
  && eqb (trim (row_name r)) (row_name r)
  && match row_description r with
     | Some d => nonEmpty d && eqb (trim d) d
     | None => true
     end.

(** The keys of a list in the order in which each is seen first. *)
Definition firstSeen (keys : list jsstring) : list jsstring :=
  fold_left (fun seen k => if existsb (eqb k) seen then seen else seen ++ [k]) keys [].

(** The strings are pairwise different. *)
Fixpoint distinct (l : list jsstring) : bool :=
  match l with
  | [] => true
  | a :: t => negb (existsb (eqb a) t) && distinct t
  end.

(** An item and a group as [rowsToCategories] writes them. *)
Definition normalizedItem (it : MenuItem) : bool :=
  match item_id it with Some _ => true | None => false end
  && nonEmpty (item_name it) && eqb (trim (item_name it)) (item_name it)
  && isFinite (item_price it)
  && match item_description it with
     | Some d => nonEmpty d && eqb (trim d) d
     | None => true
     end.

Definition normalizedGroup (g : MenuCategory) : bool :=
  eqb (normalizeCategory (cat_name g)) (cat_name g)
  && match cat_items g with [] => false | _ :: _ => true end
  && forallb normalizedItem (cat_items g).

(** The rows of a category, in row order. *)
Definition rowsIn (rows : list MenuRow) (category : jsstring) : list MenuRow :=
  filter (fun r => eqb (row_category r) category) rows.

(** *** The stored menu

    The value that [JSON.parse] delivers from the text that
    [JSON.stringify] writes for the categories of the payload: a finite
    number is written as it is and [-0] as [0], any other number as
    [null], and a member that is [undefined] is left out. *)
Definition jsonNumber (x : number) : value :=
  if isFinite x then Prim (Num (if JsNumber.truthy x then x else zero))
  else Prim Null.

Definition jsonMember (key : string) (s : option jsstring) : list (jsstring * value) :=
  match s with
  | Some v => [(str key, Prim (Str v))]
  | None => []
  end.

Definition jsonItem (it : MenuItem) : value :=
  Obj (jsonMember "id" (item_id it)
       ++ [(str "name", Prim (Str (item_name it)));
           (str "price", jsonNumber (item_price it))]
       ++ jsonMember "description" (item_description it)).

Definition jsonCategory (c : MenuCategory) : value :=
  Obj [(str "name", Prim (Str (cat_name c)));
       (str "items", Arr (List.map jsonItem (cat_items c)))].

Definition jsonOf (cats : list MenuCategory) : value :=
  Arr (List.map jsonCategory cats).

(** The price that comes back: zero for [-0] and for what is no finite
    number. *)
Definition storedPrice (x : number) : number :=
  if isFinite x && JsNumber.truthy x then x else zero.

Definition storedItem (it : MenuItem) : MenuItem :=
  {| item_id := item_id it;
     item_name := item_name it;
     item_price := storedPrice (item_price it);
     item_description := item_description it |}.

Definition storedCategory (c : MenuCategory) : MenuCategory :=
  {| cat_name := cat_name c; cat_items := List.map storedItem (cat_items c) |}.

End MenuEditor.

(** ** The delivery-zone form of the dashboard *)

Module ZoneEditor.
Import JsString JsNumber JsValue Route DeliveryZones MenuEditor.

(** [CITY_OPTIONS] and [CITY_AREAS]. *)
Inductive City := Karachi | Hyderabad | Islamabad.

Definition cityName (c : City) : jsstring :=
  match c with
  | Karachi => str "Karachi"
  | Hyderabad => str "Hyderabad"
  | Islamabad => str "Islamabad"
  end.

Definition CITY_AREAS (c : City) : list jsstring :=
  match c with
  | Karachi =>
      [str "Gulshan"; str "Johar"; str "DHA"; str "Clifton"; str "North Nazimabad"]
  | Hyderabad => [str "Latifabad"; str "Qasimabad"; str "Autobahn"]
  | Islamabad => [str "F-6"; str "F-7"; str "G-10"; str "I-8"]
  end.

(** An element of [pendingZones]: the fee and the minimum order are the
    texts of their inputs. *)
Record PendingZone := mkPending {
  pz_city : City;
  pz_zone_name : jsstring;
  pz_delivery_fee : jsstring;
  pz_min_order_amount : jsstring;
  pz_is_active : bool
}.

(** [zoneForm], [pendingZones] and [customAreaText]. *)
Record zoneEditor := mkZoneEditor {
  zoneCity : City;
  selectedAreas : list jsstring;
  pendingZones : list PendingZone;
  customAreaText : jsstring
}.

(** The pending zone made for a name that has none yet. *)
Definition freshZone (c : City) (name : jsstring) : PendingZone :=
  {| pz_city := c; pz_zone_name := name;
     pz_delivery_fee := []; pz_min_order_amount := []; pz_is_active := true |}.

Section Areas.
(** [String.prototype.toLowerCase], which the form applies to names that
    may hold any character: the functions below are written for whatever
    function stands for it. *)
Variable lowerCase : jsstring -> jsstring.

Definition normalizeAreaName (value : jsstring) : jsstring := trim value.

(** [normalizeAreaName(name).toLowerCase()] *)
Definition areaKey (name : jsstring) : jsstring := lowerCase (normalizeAreaName name).

Definition isPredefinedArea (name : jsstring) (c : City) : bool :=
  let key := areaKey name in
  existsb (fun a => eqb (lowerCase a) key) (CITY_AREAS c).

(** [uniqueAreas]: the loop of [names.forEach], [seen] being the set of
    the keys met so far. *)
Fixpoint uniqueAreasFrom (seen : list jsstring) (names : list jsstring)
  : list jsstring :=
  match names with
  | [] => []
  | name :: rest =>
      let key := areaKey name in
      if negb (nonEmpty key) || existsb (eqb key) seen
      then uniqueAreasFrom seen rest
      else name :: uniqueAreasFrom (key :: seen) rest
  end.

Definition uniqueAreas (names : list jsstring) : list jsstring :=
  uniqueAreasFrom [] names.

(** [addCustomArea]: the state of the form afterwards, and the text of the
    error toast, if the name is refused. *)
Definition addCustomArea (e : zoneEditor) : zoneEditor * option jsstring :=
  let normalized := normalizeAreaName (customAreaText e) in
  if negb (nonEmpty normalized) then (e, Some (str "Enter a valid area name."))
  else if (40 <? List.length normalized)%nat
  then (e, Some (str "Area name must be 40 characters or less."))
  else
    let key := lowerCase normalized in
    let existsInSelected :=
      existsb (fun a => eqb (areaKey a) key) (selectedAreas e) in
    let existsInPending :=
      existsb (fun z => eqb (areaKey (pz_zone_name z)) key) (pendingZones e) in
    let existsInList :=
      existsb (fun a => eqb (lowerCase a) key) (CITY_AREAS (zoneCity e)) in
    if existsInSelected || existsInPending || existsInList
    then (e, Some (str "Area already exists."))
    else
      ({| zoneCity := zoneCity e;
          selectedAreas := uniqueAreas (selectedAreas e ++ [normalized]);
          pendingZones := pendingZones e ++ [freshZone (zoneCity e) normalized];
          customAreaText := [] |},
       None).

(** The names of the pending zones that are no predefined area of the
    city. *)
Definition customNames (c : City) (zones : list PendingZone) : list jsstring :=
  List.map pz_zone_name
    (filter (fun z => negb (isPredefinedArea (pz_zone_name z) c)) zones).

(** The change of the selection in the list of areas, [selected] being the
    values of the options now selected. *)
Definition selectAreas (selected : list jsstring) (e : zoneEditor) : zoneEditor :=
  let c := zoneCity e in
  let prev := pendingZones e in
  let keepKeys := List.map areaKey (selected ++ customNames c prev) in
  let kept :=
    filter (fun z => existsb (eqb (areaKey (pz_zone_name z))) keepKeys) prev in
  let existing := List.map (fun z => areaKey (pz_zone_name z)) kept in
  let additions :=
    List.map (freshZone c)
      (filter (fun name => negb (existsb (eqb (areaKey name)) existing)) selected) in
  {| zoneCity := c;
     selectedAreas := uniqueAreas (selected ++ customNames c prev);
     pendingZones := kept ++ additions;
     customAreaText := customAreaText e |}.

(** The key of a pending zone. *)
Definition zoneKey (z : PendingZone) : jsstring := areaKey (pz_zone_name z).

End Areas.

(** *** Saving the pending zones *)

(** [Number(zone.delivery_fee) || 0] and
    [zone.min_order_amount ? Number(zone.min_order_amount) : 0]. *)
Definition feeNumber (text : jsstring) : number :=
  let x := StringToNumber text in
  if JsNumber.truthy x then x else zero.

Definition minOrderNumber (text : jsstring) : number :=
  if nonEmpty text then StringToNumber text else zero.

(** The body of the request of [addZone], as the route parses it. *)
Definition zonePayload (z : PendingZone) : value :=
  Obj [(str "city", Prim (Str (cityName (pz_city z))));
       (str "zone_name", Prim (Str (pz_zone_name z)));
       (str "delivery_fee", jsonNumber (feeNumber (pz_delivery_fee z)));
       (str "min_order_amount", jsonNumber (minOrderNumber (pz_min_order_amount z)));
       (str "is_active", Prim (Bool (pz_is_active z)))].

Definition addZoneBody (pending : list PendingZone) : value :=
  Obj [(str "zones", Arr (List.map zonePayload pending))].

Inductive zoneSave :=
| ZoneNothing
| ZoneRefused (msg : jsstring)
| ZoneRequest (body : value) (after : zoneEditor).

(** [addZone] up to its request: nothing, the error shown under the form,
    or the body posted together with the form as it is reset once the
    route has accepted the request. *)
Definition addZone (selectedId : option jsstring) (e : zoneEditor) : zoneSave :=
  match selectedId with
  | None => ZoneNothing
  | Some sel =>
      if nonEmpty sel then
        match pendingZones e with
        | [] => ZoneRefused (str "Add at least one area before saving.")
        | _ :: _ =>
            ZoneRequest (addZoneBody (pendingZones e))
              {| zoneCity := zoneCity e; selectedAreas := [];
                 pendingZones := []; customAreaText := [] |}
        end
      else ZoneNothing
  end.

(** The zone that the route reads from a pending zone of the form. *)
Definition sentZone (z : PendingZone) : Zone :=
  {| city := cityName (pz_city z);
     zone_name := trim (pz_zone_name z);
     delivery_fee := if isFinite (feeNumber (pz_delivery_fee z))
                     then feeNumber (pz_delivery_fee z) else NaN;
     min_order_amount := storedPrice (minOrderNumber (pz_min_order_amount z));
     is_active := pz_is_active z |}.

End ZoneEditor.

(** ** The deal form of the dashboard *)

Module DealEditor.
Import JsString JsNumber JsValue.

(** [s.split(sep)], for a separator of one code unit. *)
Fixpoint split (sep : N) (s : jsstring) : list jsstring :=
  match s with
  | [] => [[]]
  | c :: t =>
      if (c =? sep)%N then [] :: split sep t
      else match split sep t with
           | [] => [[c]]
           | w :: ws => (c :: w) :: ws
           end
  end.

Definition lineFeed : N := 10.

(** [dealForm]. *)
Record dealForm := mkDealForm {
  deal_title : jsstring;
  deal_price : jsstring;
  deal_description : jsstring;
  deal_is_active : bool
}.

(** The body of the request of [addDeal]; [None] is [null], and
    [deal_items] holds the names of [items_json.items]. *)
Record dealPayload := mkDealPayload {
  sent_title : jsstring;
  sent_price : number;
  sent_description : option jsstring;
  sent_is_active : bool;
  sent_items : list jsstring
}.

Inductive dealDecision :=
| DealNothing
| DealRefused (msg : jsstring)
| DealRequest (payload : dealPayload).

(** [addDeal] up to its request. *)
Definition addDeal (selectedId : option jsstring) (form : dealForm)
    (dealItemsText : jsstring) : dealDecision :=
  match selectedId with
  | None => DealNothing
  | Some sel =>
      if nonEmpty sel then
        if negb (nonEmpty (trim (deal_title form)))
        then DealRefused (str "Title is required.")
        else
          let priceValue :=
            if nonEmpty (trim (deal_price form))
            then StringToNumber (deal_price form) else zero in
          if negb (isFinite priceValue) || isNegative priceValue
          then DealRefused (str "Price must be a number >= 0.")
          else
            let items :=
              filter nonEmpty (List.map trim (split lineFeed dealItemsText)) in
            DealRequest
              {| sent_title := trim (deal_title form);
                 sent_price := priceValue;
                 sent_description :=
                   if nonEmpty (trim (deal_description form))
                   then Some (trim (deal_description form)) else None;
                 sent_is_active := deal_is_active form;
                 sent_items := items |}
      else DealNothing
  end.

End DealEditor.

(** * Properties *)

(** ** Strings *)

Module StringFacts.
Import JsString.

Lemma eqb_eq (a b : jsstring) : eqb a b = true <-> a = b.
Proof. unfold eqb. destruct (list_eq_dec N.eq_dec a b); split; congruence. Qed.

Lemma eqb_neq (a b : jsstring) : eqb a b = false <-> a <> b.
Proof. unfold eqb. destruct (list_eq_dec N.eq_dec a b); split; congruence. Qed.

Lemma eqb_refl (a : jsstring) : eqb a a = true.
Proof. now apply eqb_eq. Qed.

Lemma eqb_sym (a b : jsstring) : eqb a b = eqb b a.
Proof.
  destruct (eqb a b) eqn:E.
  - apply eqb_eq in E. subst. now rewrite eqb_refl.
  - apply eqb_neq in E. symmetry. apply eqb_neq. congruence.
Qed.

Lemma nonEmpty_false (s : jsstring) : nonEmpty s = false <-> s = [].
Proof. destruct s; simpl; split; congruence. Qed.

Lemma nonEmpty_true (s : jsstring) : nonEmpty s = true <-> s <> [].
Proof. destruct s; simpl; split; congruence. Qed.

Lemma orElse_cases (a b : jsstring) :
  (nonEmpty a = true /\ orElse a b = a) \/ (a = [] /\ orElse a b = b).
Proof. destruct a; [right | left]; auto. Qed.

Lemma nonEmpty_app_r (a b : jsstring) : nonEmpty b = true -> nonEmpty (a ++ b) = true.
Proof. destruct a, b; simpl; congruence. Qed.

Section RunFacts.
Variable p : N -> bool.

Lemma dropWhile_head s c t : dropWhile p s = c :: t -> p c = false.
Proof.
  induction s as [|a s IH]; simpl; [discriminate|].
  destruct (p a) eqn:E; [exact IH|]. intros H. inversion H; subst. exact E.
Qed.

Lemma dropWhile_idem s : dropWhile p (dropWhile p s) = dropWhile p s.
Proof.
  induction s as [|a s IH]; simpl; [reflexivity|].
  destruct (p a) eqn:E; [exact IH|]. simpl. now rewrite E.
Qed.

Lemma dropWhileEnd_idem s : dropWhileEnd p (dropWhileEnd p s) = dropWhileEnd p s.
Proof.
  induction s as [|a s IH]; simpl; [reflexivity|].
  destruct (dropWhileEnd p s) as [|x d] eqn:E.
  - destruct (p a) eqn:Ea; simpl; [reflexivity|]. now rewrite Ea.
  - change (dropWhileEnd p (a :: x :: d)) with
      (match dropWhileEnd p (x :: d) with
       | [] => if p a then [] else [a]
       | t' => a :: t'
       end).
    now rewrite IH.
Qed.

Lemma dropWhileEnd_keeps_head c t :
  p c = false -> exists t', dropWhileEnd p (c :: t) = c :: t'.
Proof.
  intros H. simpl. destruct (dropWhileEnd p t) as [|x d].
  - rewrite H. now exists [].
  - now exists (x :: d).
Qed.

Lemma stripEnds_idem s : stripEnds p (stripEnds p s) = stripEnds p s.
Proof.
  unfold stripEnds.
  destruct (dropWhile p s) as [|c t] eqn:E; [reflexivity|].
  pose proof (dropWhile_head _ E) as Hc.
  destruct (dropWhileEnd_keeps_head t Hc) as [t' Ht'].
  rewrite Ht'. simpl dropWhile. rewrite Hc. rewrite <- Ht'.
  apply dropWhileEnd_idem.
Qed.

Lemma dropWhile_fixed s : forallb (fun c => negb (p c)) s = true -> dropWhile p s = s.
Proof.
  destruct s as [|c t]; simpl; [reflexivity|].
  intros H. apply andb_true_iff in H. destruct H as [H _].
  apply negb_true_iff in H. now rewrite H.
Qed.

Lemma dropWhileEnd_fixed s :
  forallb (fun c => negb (p c)) s = true -> dropWhileEnd p s = s.
Proof.
  induction s as [|c t IH]; simpl; [reflexivity|].
  intros H. apply andb_true_iff in H. destruct H as [Hc Ht].
  apply negb_true_iff in Hc. rewrite (IH Ht).
  destruct t; [now rewrite Hc | reflexivity].
Qed.

Lemma stripEnds_fixed s :
  forallb (fun c => negb (p c)) s = true -> stripEnds p s = s.
Proof.
  intros H. unfold stripEnds. rewrite (dropWhile_fixed _ H).
  now apply dropWhileEnd_fixed.
Qed.

(** Dropping from either end keeps a sublist, so a property that holds
    for every character survives. *)
Lemma dropWhile_incl s c : In c (dropWhile p s) -> In c s.
Proof.
  induction s as [|a s IH]; simpl; [tauto|].
  destruct (p a); simpl; auto.
Qed.

Lemma dropWhileEnd_incl s c : In c (dropWhileEnd p s) -> In c s.
Proof.
  revert c. induction s as [|a s IH]; simpl; [tauto|]. intros c.
  destruct (dropWhileEnd p s) as [|x d].
  - destruct (p a); simpl; tauto.
  - simpl. intros [H|H]; [now left | right; apply IH; exact H].
Qed.

Lemma stripEnds_incl s c : In c (stripEnds p s) -> In c s.
Proof. intros H. apply dropWhile_incl. eapply dropWhileEnd_incl. exact H. Qed.

(** The last character of what [dropWhileEnd] leaves is outside the class. *)
Lemma dropWhileEnd_last s t c : dropWhileEnd p s = t ++ [c] -> p c = false.
Proof.
  revert t. induction s as [|a s IH]; simpl; intros t H.
  - now destruct t.
  - destruct (dropWhileEnd p s) as [|x d] eqn:E.
    + destruct (p a) eqn:Ea; [now destruct t|].
      destruct t as [|y t]; [inversion H; subst; exact Ea|].
      inversion H. now destruct t.
    + destruct t as [|y t]; [discriminate|].
      inversion H; subst. eapply IH. eassumption.
Qed.

End RunFacts.


(** *** Runs replaced by one character of the class itself

    Replacing the runs of a class by a single character [x] of that class
    (a space for white space, a hyphen for what is not alphanumeric) leaves
    a string in which every character of the class is an isolated [x]; such
    a string is left as it is by a second replacement. *)

Section Isolated.
Variable p : N -> bool.
Variable x : N.
Hypothesis p_x : p x = true.

Lemma isolated_replaceRunsFrom s :
  isolated p x (replaceRunsFrom p [x] false s) = true
  /\ isolated p x (replaceRunsFrom p [x] true s) = true
  /\ startsIn p (replaceRunsFrom p [x] true s) = false.
Proof.
  induction s as [|c t [IH1 [IH2 IH3]]]; simpl; [auto|].
  destruct (p c) eqn:E; simpl.
  - rewrite p_x, N.eqb_refl, IH3, IH2. auto.
  - rewrite E, IH1. auto.
Qed.

Lemma isolated_replaceRuns s : isolated p x (replaceRuns p [x] s) = true.
Proof. apply isolated_replaceRunsFrom. Qed.

Lemma replaceRunsFrom_true_fresh s :
  startsIn p s = false ->
  replaceRunsFrom p [x] true s = replaceRunsFrom p [x] false s.
Proof. destruct s as [|c t]; simpl; [reflexivity|]. intros ->. reflexivity. Qed.

Lemma replaceRuns_fixed s : isolated p x s = true -> replaceRuns p [x] s = s.
Proof.
  unfold replaceRuns. induction s as [|c t IH]; simpl; [reflexivity|].
  intros H. apply andb_true_iff in H. destruct H as [Hc Ht].
  destruct (p c) eqn:E.
  - apply andb_true_iff in Hc. destruct Hc as [Hx Hs].
    apply N.eqb_eq in Hx. apply negb_true_iff in Hs. subst c. simpl.
    rewrite (replaceRunsFrom_true_fresh _ Hs). now rewrite (IH Ht).
  - now rewrite (IH Ht).
Qed.

Lemma isolated_tail c t : isolated p x (c :: t) = true -> isolated p x t = true.
Proof. simpl. intros H. apply andb_true_iff in H. tauto. Qed.

Lemma isolated_dropWhile q s : isolated p x s = true -> isolated p x (dropWhile q s) = true.
Proof.
  induction s as [|c t IH]; simpl dropWhile; [auto|].
  intros H. destruct (q c); [apply IH; eapply isolated_tail; eauto | exact H].
Qed.

Lemma startsIn_dropWhileEnd q t :
  startsIn p t = false ->
  startsIn p (dropWhileEnd q t) = false.
Proof.
  destruct t as [|a t]; simpl; [auto|]. intros H.
  destruct (dropWhileEnd q t); [destruct (q a)|]; simpl; auto.
Qed.

Lemma isolated_dropWhileEnd q s :
  isolated p x s = true -> isolated p x (dropWhileEnd q s) = true.
Proof.
  induction s as [|c t IH]; [auto|].
  intros H. pose proof (isolated_tail _ _ H) as Ht. specialize (IH Ht).
  simpl in H. apply andb_true_iff in H. destruct H as [Hc _].
  simpl dropWhileEnd.
  destruct (dropWhileEnd q t) as [|a d] eqn:E.
  - destruct (q c); [reflexivity|]. simpl.
    destruct (p c); [|reflexivity].
    apply andb_true_iff in Hc. destruct Hc as [-> _]. reflexivity.
  - simpl. simpl in IH. rewrite IH, andb_true_r.
    destruct (p c); [|reflexivity].
    apply andb_true_iff in Hc. destruct Hc as [-> Hs]. simpl.
    apply negb_true_iff in Hs.
    pose proof (startsIn_dropWhileEnd q t Hs) as Hd. rewrite E in Hd.
    simpl in Hd. now rewrite Hd.
Qed.

Lemma isolated_stripEnds q s :
  isolated p x s = true -> isolated p x (stripEnds q s) = true.
Proof. intros H. apply isolated_dropWhileEnd, isolated_dropWhile, H. Qed.

End Isolated.


(** *** Character classes *)

Ltac classes :=
  unfold isWhiteSpace, isLowerAlnum, isDigit, isHyphen, hyphen, inRange in *;
  repeat match goal with
         | H : _ = true |- _ =>
             first [ apply orb_true_iff in H | apply andb_true_iff in H
                   | apply N.leb_le in H | apply N.eqb_eq in H
                   | apply negb_true_iff in H ]
         | H : _ = false |- _ =>
             first [ apply orb_false_iff in H | apply andb_false_iff in H
                   | apply N.leb_gt in H | apply N.eqb_neq in H
                   | apply negb_false_iff in H ]
         | H : _ /\ _ |- _ => destruct H
         | H : _ \/ _ |- _ => destruct H
         end;
  repeat match goal with
         | |- _ = false =>
             first [ apply orb_false_iff; split | apply N.eqb_neq
                   | apply andb_false_iff;
                     first [ left; apply N.leb_gt; lia | right; apply N.leb_gt; lia ] ]
         end;
  try lia.

Lemma alnum_not_space c : isLowerAlnum c = true -> isWhiteSpace c = false.
Proof. intros H. classes. Qed.

Lemma hyphen_not_space c : isHyphen c = true -> isWhiteSpace c = false.
Proof. intros H. classes. Qed.

Lemma digit_not_space c : isDigit c = true -> isWhiteSpace c = false.
Proof. intros H. classes. Qed.

Lemma digit_not_hyphen c : isDigit c = true -> isHyphen c = false.
Proof. intros H. classes. Qed.

Lemma digit_alnum c : isDigit c = true -> isLowerAlnum c = true.
Proof. intros H. unfold isLowerAlnum. rewrite H. apply orb_true_r. Qed.

Lemma alnum_not_hyphen c : isLowerAlnum c = true -> isHyphen c = false.
Proof. intros H. classes. Qed.

(** *** Decimal digits *)

Lemma uintUnits_digits d : forallb isDigit (uintUnits d) = true.
Proof. induction d; simpl; auto. Qed.

Lemma uintUnits_inj d d' : uintUnits d = uintUnits d' -> d = d'.
Proof.
  revert d'. induction d; destruct d'; simpl; intros H;
    try discriminate; try reflexivity;
    inversion H; f_equal; auto.
Qed.

Lemma decimal_digits n : forallb isDigit (decimal n) = true.
Proof. apply uintUnits_digits. Qed.

Lemma decimal_inj n n' : decimal n = decimal n' -> n = n'.
Proof. intros H. apply DecimalN.Unsigned.to_uint_inj, uintUnits_inj, H. Qed.

Lemma decimal_nonEmpty n : nonEmpty (decimal n) = true.
Proof.
  unfold decimal. destruct n as [|p]; [reflexivity|].
  simpl. pose proof (DecimalPos.Unsigned.to_uint_nonnil p) as H.
  destruct (Pos.to_uint p); simpl; congruence.
Qed.

(** *** Replaced runs, character by character *)

Lemma replaceRunsFrom_chars p r b s c :
  In c (replaceRunsFrom p r b s) -> In c r \/ (In c s /\ p c = false).
Proof.
  revert b. induction s as [|a t IH]; simpl; intros b H; [tauto|].
  destruct (p a) eqn:E.
  - apply in_app_or in H. destruct H as [H|H].
    + destruct b; [contradiction | now left].
    + destruct (IH _ H) as [?|[? ?]]; auto.
  - destruct H as [H|H]; [subst; auto|].
    destruct (IH _ H) as [?|[? ?]]; auto.
Qed.

(** *** [trim] *)

Lemma trim_idem s : trim (trim s) = trim s.
Proof. apply stripEnds_idem. Qed.

Lemma trim_fixed s :
  forallb (fun c => negb (isWhiteSpace c)) s = true -> trim s = s.
Proof. apply stripEnds_fixed. Qed.

Lemma collapse_trim_fixed s :
  collapseWhiteSpace (trim (collapseWhiteSpace s)) = trim (collapseWhiteSpace s).
Proof.
  apply replaceRuns_fixed.
  apply isolated_stripEnds, isolated_replaceRuns. reflexivity.
Qed.


Lemma dropWhileEnd_cons_out p c s :
  p c = false -> dropWhileEnd p (c :: s) = c :: dropWhileEnd p s.
Proof. intros H. simpl. destruct (dropWhileEnd p s); [now rewrite H | reflexivity]. Qed.

Lemma dropWhileEnd_cons_in p c s :
  p c = true ->
  dropWhileEnd p (c :: s)
  = match dropWhileEnd p s with [] => [] | t => c :: t end.
Proof. intros H. simpl. destruct (dropWhileEnd p s); [now rewrite H | reflexivity]. Qed.

Lemma dropWhile_dropWhileEnd p s :
  dropWhileEnd p (dropWhile p s) = dropWhile p (dropWhileEnd p s).
Proof.
  induction s as [|c t IH]; [reflexivity|].
  destruct (p c) eqn:E.
  - rewrite dropWhileEnd_cons_in by exact E. cbn [dropWhile]. rewrite E, IH.
    destruct (dropWhileEnd p t); [reflexivity|]. cbn [dropWhile]. now rewrite E.
  - rewrite dropWhileEnd_cons_out by exact E. cbn [dropWhile]. rewrite E.
    now rewrite dropWhileEnd_cons_out by exact E.
Qed.





End StringFacts.

(** ** Insertion-ordered maps *)

Module MapFacts.
Import JsString StringFacts.

Section MapFacts.
Variable V : Type.
Implicit Types (m : JsMap.t V) (k : jsstring) (v : V).

Lemma get_set_same m k v : JsMap.get (JsMap.set m k v) k = Some v.
Proof.
  induction m as [|[k' v'] m IH]; simpl.
  - now rewrite eqb_refl.
  - destruct (eqb k' k) eqn:E; simpl; rewrite E; auto.
Qed.

Lemma get_set_other m k k' v :
  k <> k' -> JsMap.get (JsMap.set m k v) k' = JsMap.get m k'.
Proof.
  intros Hk. induction m as [|[k0 v0] m IH]; simpl.
  - apply eqb_neq in Hk. now rewrite Hk.
  - destruct (eqb k0 k) eqn:E; simpl.
    + apply eqb_eq in E. subst k0. apply eqb_neq in Hk. now rewrite Hk.
    + now rewrite IH.
Qed.

Lemma keys_set m k v :
  JsMap.keys (JsMap.set m k v)
  = if JsMap.has m k then JsMap.keys m else JsMap.keys m ++ [k].
Proof.
  unfold JsMap.has, JsMap.keys.
  induction m as [|[k' v'] m IH]; simpl; [reflexivity|].
  destruct (eqb k' k) eqn:E; simpl; [reflexivity|].
  rewrite IH. now destruct (JsMap.get m k).
Qed.

Lemma has_keys m k : JsMap.has m k = true <-> In k (JsMap.keys m).
Proof.
  unfold JsMap.has, JsMap.keys.
  induction m as [|[k' v'] m IH]; simpl; [split; [discriminate|tauto]|].
  destruct (eqb k' k) eqn:E.
  - apply eqb_eq in E. split; auto.
  - apply eqb_neq in E. rewrite IH. split; [auto|]. intros [H|H]; [congruence|auto].
Qed.

Lemma NoDup_keys_set m k v :
  NoDup (JsMap.keys m) -> NoDup (JsMap.keys (JsMap.set m k v)).
Proof.
  intros H. rewrite keys_set. destruct (JsMap.has m k) eqn:E; [exact H|].
  apply NoDup_app; [exact H | constructor; [tauto | constructor] |].
  intros a Ha [<-|[]]. apply has_keys in Ha. congruence.
Qed.

Lemma get_In m k v : JsMap.get m k = Some v -> In (k, v) m.
Proof.
  induction m as [|[k' v'] m IH]; simpl; [discriminate|].
  destruct (eqb k' k) eqn:E; [|auto].
  apply eqb_eq in E. intros H. inversion H; subst. now left.
Qed.

Lemma In_get m k v : NoDup (JsMap.keys m) -> In (k, v) m -> JsMap.get m k = Some v.
Proof.
  induction m as [|[k' v'] m IH]; simpl; [tauto|].
  intros Hnd [H|H].
  - inversion H; subst. now rewrite eqb_refl.
  - inversion Hnd as [|? ? Hnotin Hnd']; subst.
    destruct (eqb k' k) eqn:E; [|auto].
    apply eqb_eq in E. subst k'. exfalso. apply Hnotin.
    change k with (fst (k, v)). now apply in_map.
Qed.

End MapFacts.

End MapFacts.

(** ** The menu editor *)

Module MenuFacts.
Import JsString JsNumber JsValue Menu StringFacts MapFacts.

(** *** The functions on the examples of the documentation *)

Lemma number_examples :
  StringToNumber (str "0.1") = Finite false 3602879701896397 (-55)
  /\ NumberToString (Finite false 3602879701896397 (-55)) = str "0.1"
  /\ StringToNumber (str "1e21") = Finite false 476837158203125 21
  /\ NumberToString (Finite false 476837158203125 21) = str "1e+21"
  /\ StringToNumber (str "1e400") = Infinity false
  /\ StringToNumber (str "5e-324") = Finite false 1 (-1074)
  /\ StringToNumber (str "1.2.3") = NaN
  /\ StringToNumber (str " 0x1f ") = ofN 31
  /\ NumberToString (ofN 1250) = str "1250"
  /\ NumberToString (Finite true 3 (-1)) = str "-1.5".
Proof. repeat split; vm_compute; reflexivity. Qed.

Lemma parsePrice_examples :
  parsePrice (Str (str "PKR 1,250")) = Some (ofN 1250)
  /\ parsePrice (Str (str "450")) = Some (ofN 450)
  /\ parsePrice (Str (str " ")) = None
  /\ parsePrice Undefined = None
  /\ parsePrice (Str (str "12-5")) = None
  /\ parsePrice (Num (ofN 450)) = Some (ofN 450)
  /\ parsePrice (Str (str "-5")) = Some (ofNegN 5).
Proof. repeat split; vm_compute; reflexivity. Qed.

Lemma normalize_examples :
  normalizeHeader (str " Item_Name ") = str "item_name"
  /\ normalizeHeader (str "Item - Name") = str "item_name"
  /\ normalizeCategory (str "  Fast   Food ") = str "Fast Food"
  /\ normalizeCategory (str "   ") = Uncategorized
  /\ slugify (str "Hot & Spicy -- Wings!") = str "hot-spicy-wings"
  /\ slugify (str "***") = str "item".
Proof. repeat split; vm_compute; reflexivity. Qed.

(** *** Normalisation is idempotent *)

Lemma normalizeCategory_nonEmpty s : nonEmpty (normalizeCategory s) = true.
Proof.
  unfold normalizeCategory, orElse.
  destruct (nonEmpty (trim (collapseWhiteSpace s))) eqn:E; [exact E | reflexivity].
Qed.

Lemma normalizeCategory_idem s :
  normalizeCategory (normalizeCategory s) = normalizeCategory s.
Proof.
  assert (H : normalizeCategory s
              = if nonEmpty (trim (collapseWhiteSpace s))
                then trim (collapseWhiteSpace s) else Uncategorized) by reflexivity.
  destruct (nonEmpty (trim (collapseWhiteSpace s))) eqn:E; rewrite H; [|reflexivity].
  unfold normalizeCategory, orElse.
  rewrite collapse_trim_fixed, trim_idem, E. reflexivity.
Qed.

Lemma trimDescription_idem d : trimDescription (trimDescription d) = trimDescription d.
Proof.
  destruct d as [s|]; simpl; [|reflexivity].
  destruct (nonEmpty (trim s)) eqn:E; simpl; [|reflexivity].
  now rewrite trim_idem, E.
Qed.

(** *** Grouping *)

Lemma groupRow_get m row c :
  getOr (groupRow m row) c
  = getOr m c ++ (if validRow row && eqb (categoryOf row) c then [rowEntry row] else []).
Proof.
  unfold groupRow, getOr. fold (categoryOf row).
  destruct (validRow row); simpl; [|now rewrite app_nil_r].
  destruct (eqb (categoryOf row) c) eqn:E.
  - apply eqb_eq in E. subst c. now rewrite get_set_same.
  - apply eqb_neq in E. rewrite get_set_other by exact E. now rewrite app_nil_r.
Qed.

Lemma groupRow_has m row c :
  JsMap.has (groupRow m row) c
  = JsMap.has m c || (validRow row && eqb (categoryOf row) c).
Proof.
  unfold groupRow, JsMap.has. fold (categoryOf row).
  destruct (validRow row); simpl; [|now rewrite orb_false_r].
  destruct (eqb (categoryOf row) c) eqn:E.
  - apply eqb_eq in E. subst c. rewrite get_set_same. now rewrite orb_true_r.
  - apply eqb_neq in E. rewrite get_set_other by exact E. now rewrite orb_false_r.
Qed.

Lemma groupRow_NoDup m row :
  NoDup (JsMap.keys m) -> NoDup (JsMap.keys (groupRow m row)).
Proof.
  intros H. unfold groupRow. destruct (validRow row); [|exact H].
  now apply NoDup_keys_set.
Qed.

Lemma grouped_get rows : forall m c,
  getOr (fold_left groupRow rows m) c = getOr m c ++ itemsOf rows c.
Proof.
  unfold itemsOf.
  induction rows as [|row rows IH]; intros m c; simpl; [now rewrite app_nil_r|].
  rewrite IH, groupRow_get, <- app_assoc. f_equal.
  now destruct (validRow row && eqb (categoryOf row) c).
Qed.

Lemma grouped_has rows : forall m c,
  JsMap.has (fold_left groupRow rows m) c
  = JsMap.has m c || existsb (fun r => validRow r && eqb (categoryOf r) c) rows.
Proof.
  induction rows as [|row rows IH]; intros m c; simpl; [now rewrite orb_false_r|].
  now rewrite IH, groupRow_has, orb_assoc.
Qed.

Lemma grouped_NoDup rows : forall m,
  NoDup (JsMap.keys m) -> NoDup (JsMap.keys (fold_left groupRow rows m)).
Proof.
  induction rows as [|row rows IH]; intros m H; simpl; [exact H|].
  apply IH, groupRow_NoDup, H.
Qed.

Lemma rowsToCategories_names rows :
  List.map cat_name (rowsToCategories rows)
  = JsMap.keys (fold_left groupRow rows []).
Proof.
  unfold rowsToCategories, JsMap.entries, JsMap.keys.
  rewrite map_map. apply map_ext. now intros [k v].
Qed.

Lemma rowsToCategories_NoDup rows : NoDup (List.map cat_name (rowsToCategories rows)).
Proof. rewrite rowsToCategories_names. apply grouped_NoDup. constructor. Qed.

(** The group of a name, when there is one, holds the items of the valid
    rows of that category, in row order. *)
Lemma rowsToCategories_In rows g :
  In g (rowsToCategories rows) <->
  cat_items g = itemsOf rows (cat_name g) /\ cat_items g <> [].
Proof.
  unfold rowsToCategories, JsMap.entries.
  pose proof (grouped_NoDup rows [] (NoDup_nil _)) as Hnd.
  pose proof (grouped_get rows [] (cat_name g)) as Hget.
  pose proof (grouped_has rows [] (cat_name g)) as Hhas.
  unfold getOr, JsMap.has in *. simpl in Hget, Hhas.
  split.
  - intros H. apply in_map_iff in H. destruct H as [[k v] [<- H]]. simpl in *.
    rewrite (@In_get _ _ _ _ Hnd H) in Hget, Hhas. split; [exact Hget|].
    rewrite Hget. unfold itemsOf. symmetry in Hhas.
    apply existsb_exists in Hhas. destruct Hhas as [r [Hr Hv]].
    intros Hnil. apply map_eq_nil in Hnil.
    assert (Hin : In r (filter (fun r => validRow r && eqb (categoryOf r) k) rows))
      by (apply filter_In; auto).
    rewrite Hnil in Hin. exact Hin.
  - intros [Hitems Hne]. apply in_map_iff. exists (cat_name g, cat_items g).
    split; [now destruct g|].
    apply get_In.
    destruct (JsMap.get (fold_left groupRow rows []) (cat_name g)) as [l|].
    + now rewrite Hget, <- Hitems.
    + exfalso. apply Hne. now rewrite Hitems, <- Hget.
Qed.


(** A valid row has its item in the group of its category. *)
Lemma valid_row_grouped rows r :
  In r rows -> validRow r = true ->
  exists g, In g (rowsToCategories rows)
            /\ cat_name g = categoryOf r
            /\ In (rowEntry r) (cat_items g).
Proof.
  intros Hr Hv.
  assert (Hin : In (rowEntry r) (itemsOf rows (categoryOf r))).
  { unfold itemsOf. apply in_map, filter_In. split; [exact Hr|].
    now rewrite Hv, eqb_refl. }
  exists {| cat_name := categoryOf r; cat_items := itemsOf rows (categoryOf r) |}.
  cbn [cat_name cat_items]. split; [|split; [reflexivity | exact Hin]].
  apply rowsToCategories_In. cbn [cat_name cat_items]. split; [reflexivity|].
  intros Hnil. rewrite Hnil in Hin. exact Hin.
Qed.

(** *** The normal form of a category, word by word *)

Lemma consWord_tokensOk w ws :
  forallb (fun c => negb (isWhiteSpace c)) w = true -> tokensOk ws ->
  tokensOk (consWord w ws).
Proof.
  intros Hw Hws. unfold consWord. destruct (nonEmpty w) eqn:E; [|exact Hws].
  constructor; auto.
Qed.

Lemma splitTokens_ok s :
  forallb (fun c => negb (isWhiteSpace c)) (fst (splitTokens s)) = true
  /\ tokensOk (snd (splitTokens s)).
Proof.
  induction s as [|c t [IHw IHws]]; simpl; [split; [reflexivity | constructor]|].
  destruct (splitTokens t) as [w ws]. simpl in *.
  destruct (isWhiteSpace c) eqn:E; simpl.
  - split; [reflexivity | now apply consWord_tokensOk].
  - rewrite E. auto.
Qed.

Lemma tokens_ok s : tokensOk (tokens s).
Proof.
  unfold tokens. pose proof (splitTokens_ok s) as [Hw Hws].
  destruct (splitTokens s) as [w ws]. now apply consWord_tokensOk.
Qed.

Lemma join_spaced w ws : join [32%N] (w :: ws) = w ++ spaced ws.
Proof.
  revert w. induction ws as [|x ws IH]; intros w.
  - simpl. now rewrite app_nil_r.
  - change (join [32%N] (w :: x :: ws)) with (w ++ [32%N] ++ join [32%N] (x :: ws)).
    rewrite IH. reflexivity.
Qed.

Lemma spaced_join ws :
  spaced ws = match ws with [] => [] | _ :: _ => 32%N :: join [32%N] ws end.
Proof. destruct ws as [|x ws]; [reflexivity|]. now rewrite join_spaced. Qed.

(** What is left of the collapsed text once the white space at its end is
    cut: the words, each later one behind its space. *)
Lemma collapsed_tokens s :
  let '(w, ws) := splitTokens s in
  dropWhileEnd isWhiteSpace (replaceRunsFrom isWhiteSpace [32%N] false s)
  = w ++ spaced ws
  /\ dropWhileEnd isWhiteSpace (replaceRunsFrom isWhiteSpace [32%N] true s)
     = if nonEmpty w then w ++ spaced ws else join [32%N] ws.
Proof.
  induction s as [|c t IH]; [split; reflexivity|].
  pose proof (splitTokens_ok t) as [_ Hok].
  cbn [splitTokens replaceRunsFrom].
  destruct (splitTokens t) as [w ws]. destruct IH as [IH0 IH1]. simpl in Hok.
  destruct (isWhiteSpace c) eqn:E; cbn [app].
  - split.
    + rewrite dropWhileEnd_cons_in by reflexivity. rewrite IH1.
      unfold consWord. destruct (nonEmpty w) eqn:Ew.
      * destruct w; [discriminate | reflexivity].
      * rewrite spaced_join. destruct ws as [|x ws]; [reflexivity|].
        inversion Hok as [|? ? [Hx _] _]; subst.
        rewrite join_spaced. destruct x; [discriminate | reflexivity].
    + rewrite IH1. unfold consWord. destruct (nonEmpty w) eqn:Ew; [|reflexivity].
      cbn [nonEmpty]. now rewrite join_spaced.
  - rewrite dropWhileEnd_cons_out by exact E. rewrite IH0. split; reflexivity.
Qed.

Lemma dropWhile_token w rest :
  nonEmpty w = true -> forallb (fun c => negb (isWhiteSpace c)) w = true ->
  dropWhile isWhiteSpace (w ++ rest) = w ++ rest.
Proof.
  destruct w as [|c w]; [discriminate|]. intros _ H. simpl in *.
  apply andb_true_iff in H. destruct H as [H _]. apply negb_true_iff in H.
  now rewrite H.
Qed.

Lemma trimmed_tokens s : trim (collapseWhiteSpace s) = join [32%N] (tokens s).
Proof.
  unfold trim, collapseWhiteSpace, stripEnds, replaceRuns, tokens.
  rewrite dropWhile_dropWhileEnd.
  pose proof (collapsed_tokens s) as H. pose proof (splitTokens_ok s) as [Hw Hws].
  destruct (splitTokens s) as [w ws]. destruct H as [-> _]. simpl in Hw, Hws.
  unfold consWord. destruct (nonEmpty w) eqn:Ew.
  - rewrite join_spaced. now apply dropWhile_token.
  - apply nonEmpty_false in Ew. subst w. cbn [app].
    destruct ws as [|x ws]; [reflexivity|].
    inversion Hws as [|? ? [Hx Hal] _]; subst.
    rewrite join_spaced.
    change (spaced (x :: ws)) with (32%N :: x ++ spaced ws).
    cbn [dropWhile]. change (isWhiteSpace 32) with true. cbn iota.
    now apply dropWhile_token.
Qed.

Lemma categoryWords_ok s :
  tokensOk (categoryWords s) /\ categoryWords s <> [].
Proof.
  unfold categoryWords. pose proof (tokens_ok s) as H.
  destruct (tokens s) as [|w ws]; [|split; [exact H | discriminate]].
  split; [|discriminate]. constructor; [split; reflexivity | constructor].
Qed.

(** The normal form of a category is its words joined by single spaces. *)
Lemma normalizeCategory_words s :
  normalizeCategory s = join [32%N] (categoryWords s).
Proof.
  unfold normalizeCategory, categoryWords. rewrite trimmed_tokens.
  pose proof (tokens_ok s) as Hok.
  destruct (tokens s) as [|w ws]; [reflexivity|].
  inversion Hok as [|? ? [Hw _] _]; subst.
  destruct (orElse_cases (join [32%N] (w :: ws)) Uncategorized)
    as [[_ ->]|[E _]]; [reflexivity|].
  rewrite join_spaced in E. destruct w; [discriminate Hw | discriminate E].
Qed.

Lemma splitTokens_spaced ws :
  tokensOk ws -> splitTokens (spaced ws) = ([], ws).
Proof.
  induction 1 as [|x ws [Hne Hx] Hws IH]; [reflexivity|].
  cbn [spaced flat_map]. fold (spaced ws).
  assert (Hword : forall w, forallb (fun c => negb (isWhiteSpace c)) w = true ->
            splitTokens (w ++ spaced ws) = (w, ws)).
  { induction w as [|c w IHw]; intros Hw; [exact IH|].
    cbn [forallb] in Hw. apply andb_true_iff in Hw. destruct Hw as [Hc Hw].
    apply negb_true_iff in Hc.
    cbn [app splitTokens]. now rewrite (IHw Hw), Hc. }
  cbn [app splitTokens]. rewrite (Hword x Hx).
  change (isWhiteSpace 32) with true. cbn iota.
  unfold consWord. now rewrite Hne.
Qed.

(** Joining words by single spaces loses nothing: the words can be read
    back. *)
Lemma tokens_join ws : tokensOk ws -> tokens (join [32%N] ws) = ws.
Proof.
  intros Hok. destruct ws as [|w ws]; [reflexivity|].
  inversion Hok as [|? ? [Hne Hw] Hws]; subst.
  rewrite join_spaced. unfold tokens.
  assert (H : splitTokens (w ++ spaced ws) = (w, ws)).
  { clear Hne Hok. induction w as [|c w IH]; [now apply splitTokens_spaced|].
    cbn [forallb] in Hw. apply andb_true_iff in Hw. destruct Hw as [Hc Hw].
    apply negb_true_iff in Hc.
    cbn [app splitTokens]. now rewrite (IH Hw), Hc. }
  rewrite H. unfold consWord. now rewrite Hne.
Qed.

(** Two names have the same normal form exactly when they have the same
    words. *)
Lemma normalizeCategory_same a b :
  normalizeCategory a = normalizeCategory b <-> categoryWords a = categoryWords b.
Proof.
  rewrite !normalizeCategory_words. split; [|now intros ->].
  intros H. apply (f_equal tokens) in H.
  now rewrite !tokens_join in H by apply categoryWords_ok.
Qed.

Lemma same_tokens_same_words a b : tokens a = tokens b -> categoryWords a = categoryWords b.
Proof. unfold categoryWords. now intros ->. Qed.

(** The characters of the words are the characters of the name that are no
    white space, in their order. *)
Lemma concat_tokens s :
  List.concat (tokens s) = filter (fun c => negb (isWhiteSpace c)) s.
Proof.
  unfold tokens.
  assert (H : let '(w, ws) := splitTokens s in
              w ++ List.concat ws = filter (fun c => negb (isWhiteSpace c)) s).
  { induction s as [|c t IH]; [reflexivity|].
    cbn [splitTokens filter]. destruct (splitTokens t) as [w ws].
    destruct (isWhiteSpace c); cbn [negb app].
    - unfold consWord. destruct (nonEmpty w) eqn:E; [exact IH|].
      apply nonEmpty_false in E. now subst w.
    - now rewrite <- IH. }
  destruct (splitTokens s) as [w ws]. unfold consWord.
  destruct (nonEmpty w) eqn:E; [exact H|].
  apply nonEmpty_false in E. now subst w.
Qed.

(** Names that differ in a character that is no white space, such as the
    case of a letter, have different words. *)
Lemma other_character_other_words before after c c' :
  isWhiteSpace c = false -> isWhiteSpace c' = false -> c <> c' ->
  categoryWords (before ++ c :: after) <> categoryWords (before ++ c' :: after).
Proof.
  intros Hc Hc' Hne H.
  assert (Hfilter : forall x, isWhiteSpace x = false ->
            List.concat (categoryWords (before ++ x :: after))
            = filter (fun c => negb (isWhiteSpace c)) before
              ++ x :: filter (fun c => negb (isWhiteSpace c)) after).
  { intros x Hx. unfold categoryWords.
    pose proof (concat_tokens (before ++ x :: after)) as Hk.
    rewrite filter_app in Hk. cbn [filter] in Hk. rewrite Hx in Hk. cbn [negb] in Hk.
    destruct (tokens (before ++ x :: after)) as [|w ws]; [|exact Hk].
    cbn [List.concat] in Hk. symmetry in Hk. apply app_eq_nil in Hk.
    destruct Hk as [_ Hk]. discriminate. }
  apply (f_equal (@List.concat N)) in H.
  rewrite (Hfilter c Hc), (Hfilter c' Hc') in H.
  apply app_inv_head in H. injection H as H. contradiction.
Qed.

(** *** C1: the grouping key *)

(** C1, as amended.  [rowsToCategories] puts every valid row into the one
    group that has the normal form of its category for name, and that
    group holds the items of the valid rows of that normal form.  Two valid
    rows are in one and the same group exactly when their category names
    have the same words, a name without any word counting as
    [Uncategorized]: that is the case when the names differ only in
    leading, trailing or repeated white space, and it is not when they
    differ in a character that is no white space, the case of a letter
    included.  The comparison of the keys is exact: it does not fold letter
    case. *)
Theorem same_group_up_to_white_space rows r1 r2 :
  In r1 rows -> In r2 rows ->
  validRow r1 = true -> validRow r2 = true ->
  exists g1 g2,
    In g1 (rowsToCategories rows) /\ In g2 (rowsToCategories rows)
    /\ cat_name g1 = categoryOf r1 /\ cat_name g2 = categoryOf r2
    /\ cat_items g1 = itemsOf rows (cat_name g1)
    /\ cat_items g2 = itemsOf rows (cat_name g2)
    /\ In (rowEntry r1) (cat_items g1) /\ In (rowEntry r2) (cat_items g2)
    /\ (forall g', In g' (rowsToCategories rows) ->
          cat_name g' = cat_name g1 -> g' = g1)
    /\ (forall g', In g' (rowsToCategories rows) ->
          cat_name g' = cat_name g2 -> g' = g2)
    /\ (g1 = g2
        <-> categoryWords (row_category r1) = categoryWords (row_category r2))
    /\ (tokens (row_category r1) = tokens (row_category r2) -> g1 = g2)
    /\ (forall before after c c',
          row_category r1 = before ++ c :: after ->
          row_category r2 = before ++ c' :: after ->
          isWhiteSpace c = false -> isWhiteSpace c' = false -> c <> c' ->
          g1 <> g2).
Proof.
  intros H1 H2 V1 V2.
  assert (Hin : forall r, In r rows -> validRow r = true ->
                          In (rowEntry r) (itemsOf rows (categoryOf r))).
  { intros r Hr Hv. unfold itemsOf. apply in_map, filter_In. split; [exact Hr|].
    now rewrite Hv, eqb_refl. }
  assert (Hgroup : forall r, In r rows -> validRow r = true ->
            In {| cat_name := categoryOf r; cat_items := itemsOf rows (categoryOf r) |}
               (rowsToCategories rows)).
  { intros r Hr Hv. apply rowsToCategories_In. cbn [cat_name cat_items].
    split; [reflexivity|]. intros Hnil. pose proof (Hin r Hr Hv) as Hi.
    rewrite Hnil in Hi. exact Hi. }
  assert (Honly : forall name g', In g' (rowsToCategories rows) ->
            cat_name g' = name ->
            g' = {| cat_name := name; cat_items := itemsOf rows name |}).
  { intros name g' Hg' Hn. apply rowsToCategories_In in Hg'. destruct Hg' as [Hi _].
    destruct g' as [n its]. cbn [cat_name cat_items] in *. subst n. now rewrite Hi. }
  assert (Hsame : {| cat_name := categoryOf r1;
                     cat_items := itemsOf rows (categoryOf r1) |}
                  = {| cat_name := categoryOf r2;
                       cat_items := itemsOf rows (categoryOf r2) |}
                  <-> categoryWords (row_category r1)
                      = categoryWords (row_category r2)).
  { rewrite <- normalizeCategory_same. fold (categoryOf r1). fold (categoryOf r2).
    split; [intros E; now injection E | now intros ->]. }
  exists {| cat_name := categoryOf r1; cat_items := itemsOf rows (categoryOf r1) |},
         {| cat_name := categoryOf r2; cat_items := itemsOf rows (categoryOf r2) |}.
  cbn [cat_name cat_items].
  split; [now apply Hgroup|]. split; [now apply Hgroup|].
  split; [reflexivity|]. split; [reflexivity|].
  split; [reflexivity|]. split; [reflexivity|].
  split; [now apply Hin|]. split; [now apply Hin|].
  split; [intros g'; apply Honly|]. split; [intros g'; apply Honly|].
  split; [exact Hsame|]. split.
  - intros Ht. apply Hsame. now apply same_tokens_same_words.
  - intros before after c c' E1 E2 Hc Hc' Hne Heq. apply Hsame in Heq.
    rewrite E1, E2 in Heq.
    exact (other_character_other_words before after Hc Hc' Hne Heq).
Qed.

Lemma same_group_up_to_white_space_witness :
  let r1 := plainRow "Fast  Food " "Fries" (ofN 250) in
  let r2 := plainRow " Fast Food" "Wrap" (ofN 400) in
  let r3 := plainRow " fast Food" "Roll" (ofN 300) in
  (exists g, In g (rowsToCategories [r1; r2; r3])
             /\ In (rowEntry r1) (cat_items g) /\ In (rowEntry r2) (cat_items g))
  /\ (exists g1 g3, In g1 (rowsToCategories [r1; r2; r3])
                    /\ In g3 (rowsToCategories [r1; r2; r3])
                    /\ cat_name g1 = categoryOf r1 /\ cat_name g3 = categoryOf r3
                    /\ g1 <> g3).
Proof.
  intros r1 r2 r3. split.
  - destruct (@same_group_up_to_white_space [r1; r2; r3] r1 r2)
      as [g1 [g2 [Hg1 [_ [_ [_ [_ [_ [Hi1 [Hi2 [_ [_ [_ [Hsame _]]]]]]]]]]]]]];
      [simpl; auto | simpl; auto | reflexivity | reflexivity |].
    exists g1. split; [exact Hg1|]. split; [exact Hi1|].
    rewrite (Hsame eq_refl). exact Hi2.
  - destruct (@same_group_up_to_white_space [r1; r2; r3] r2 r3)
      as [g1 [g3 [Hg1 [Hg3 [Hn1 [Hn3 [_ [_ [_ [_ [_ [_ [_ [_ Hcase]]]]]]]]]]]]]];
      [simpl; auto | simpl; auto | reflexivity | reflexivity |].
    exists g1, g3. split; [exact Hg1|]. split; [exact Hg3|].
    split; [exact Hn1|]. split; [exact Hn3|].
    apply (Hcase (str " ") (str "ast Food") 70%N 102%N);
      [reflexivity | reflexivity | reflexivity | reflexivity | discriminate].
Defined.

(** C1 as stated fails: two valid rows whose categories differ in letter
    case only end up in two groups. *)
Lemma case_splits_groups :
  let r1 := plainRow "Burgers" "Classic" (ofN 450) in
  let r2 := plainRow "burgers" "Zinger" (ofN 500) in
  toLowerCase (row_category r1) = toLowerCase (row_category r2)
  /\ validRow r1 = true /\ validRow r2 = true
  /\ List.length (rowsToCategories [r1; r2]) = 2
  /\ ~ (exists g, In g (rowsToCategories [r1; r2])
                  /\ In (rowEntry r1) (cat_items g)
                  /\ In (rowEntry r2) (cat_items g)).
Proof.
  intros r1 r2. repeat split.
  intros [g [Hg [H1 H2]]].
  vm_compute in Hg.
  destruct Hg as [<-|[<-|[]]]; vm_compute in H1, H2;
    intuition discriminate.
Qed.


(** *** C3: rows to groups and back *)

Lemma set_append_Permutation (m : JsMap.t (list MenuItem)) c e :
  Permutation (flat_map snd (JsMap.set m c (getOr m c ++ [e])))
              (flat_map snd m ++ [e]).
Proof.
  unfold getOr. induction m as [|[k v] m IH]; simpl; [reflexivity|].
  destruct (eqb k c) eqn:E; simpl.
  - rewrite <- !app_assoc. apply Permutation_app_head, Permutation_app_comm.
  - rewrite <- app_assoc. apply Permutation_app_head, IH.
Qed.

Lemma groupRow_Permutation m row :
  Permutation (flat_map snd (groupRow m row))
              (flat_map snd m ++ (if validRow row then [rowEntry row] else [])).
Proof.
  unfold groupRow. destruct (validRow row); [|now rewrite app_nil_r].
  apply set_append_Permutation.
Qed.

Lemma grouped_Permutation rows : forall m,
  Permutation (flat_map snd (fold_left groupRow rows m))
              (flat_map snd m ++ List.map rowEntry (filter validRow rows)).
Proof.
  induction rows as [|row rows IH]; intros m; simpl; [now rewrite app_nil_r|].
  rewrite IH, groupRow_Permutation, <- app_assoc.
  apply Permutation_app_head. now destruct (validRow row).
Qed.

Lemma triples_of_categories cats :
  List.map triple (categoriesToRows cats)
  = List.map itemTriple (flat_map cat_items cats).
Proof.
  unfold categoriesToRows.
  induction cats as [|c cats IH]; simpl; [reflexivity|].
  rewrite !map_app, IH, map_map. reflexivity.
Qed.

Lemma items_of_categories rows :
  flat_map cat_items (rowsToCategories rows)
  = flat_map snd (fold_left groupRow rows []).
Proof.
  unfold rowsToCategories, JsMap.entries.
  induction (fold_left groupRow rows []) as [|[k v] m IH]; simpl; [reflexivity|].
  now rewrite IH.
Qed.

Lemma filter_all (A : Type) (f : A -> bool) l : forallb f l = true -> filter f l = l.
Proof.
  induction l as [|a l IH]; simpl; [reflexivity|].
  intros H. apply andb_true_iff in H. destruct H as [-> H]. now rewrite IH.
Qed.

Lemma round_trip_Permutation rows :
  Permutation (List.map triple (categoriesToRows (rowsToCategories rows)))
              (List.map trimmedTriple (filter validRow rows)).
Proof.
  rewrite triples_of_categories, items_of_categories.
  rewrite (grouped_Permutation rows []). simpl. rewrite map_map.
  apply Permutation_refl'. apply map_ext. intros r.
  unfold itemTriple, trimmedTriple. simpl. now rewrite trimDescription_idem.
Qed.

(** C3, as amended.  For valid rows, projecting to groups and flattening
    back yields, whatever the identifiers, the names, prices and
    descriptions of the input once each name and description is trimmed (a
    blank description counting as none): the same ones with the same
    multiplicities, hence the same set; and those of the input itself when
    its names and descriptions are trimmed already. *)
Theorem round_trip_up_to_trimming rows :
  forallb validRow rows = true ->
  let back := List.map triple (categoriesToRows (rowsToCategories rows)) in
  Permutation back (List.map trimmedTriple rows)
  /\ (forall t, In t back <-> In t (List.map trimmedTriple rows))
  /\ ((forall r, In r rows -> triple r = trimmedTriple r) ->
      forall t, In t back <-> In t (List.map triple rows)).
Proof.
  intros Hv back.
  assert (HP : Permutation back (List.map trimmedTriple rows)).
  { unfold back. rewrite round_trip_Permutation. now rewrite (filter_all _ _ Hv). }
  assert (Hset : forall t, In t back <-> In t (List.map trimmedTriple rows)).
  { intros t. split; apply Permutation_in; [exact HP | now symmetry]. }
  repeat split; try apply Hset; auto.
  - intros Ht. apply Hset in Ht. erewrite map_ext_in; [exact Ht|]. exact H.
  - intros Ht. apply Hset. erewrite map_ext_in; [exact Ht|].
    intros r Hr. symmetry. now apply H.
Qed.

Lemma round_trip_up_to_trimming_witness :
  let rows := [ {| row_id := Some (str "x1"); row_category := str "Drinks";
                   row_name := str " Lassi "; row_price := ofN 180;
                   row_description := Some (str "sweet ") |};
                plainRow "Burgers" "Zinger" (ofN 500) ] in
  let back := List.map triple (categoriesToRows (rowsToCategories rows)) in
  Permutation back (List.map trimmedTriple rows)
  /\ (forall t, In t back <-> In t (List.map trimmedTriple rows))
  /\ ((forall r, In r rows -> triple r = trimmedTriple r) ->
      forall t, In t back <-> In t (List.map triple rows)).
Proof.
  intros rows. apply (@round_trip_up_to_trimming rows). reflexivity.
Defined.

(** C3 as stated fails: a valid row, alone in its list, whose description
    has white space at an end comes back with the description trimmed. *)
Lemma round_trip_trims_description :
  let rows := [ {| row_id := Some (str "b1"); row_category := str "Burgers";
                   row_name := str "Zinger"; row_price := ofN 500;
                   row_description := Some (str " spicy") |} ] in
  rows <> []
  /\ forallb validRow rows = true
  /\ Forall (fun r => row_name r = trim (row_name r)) rows
  /\ NoDup (List.map (fun r => (row_category r, row_name r)) rows)
  /\ ~ (forall t, In t (List.map triple (categoriesToRows (rowsToCategories rows)))
                  <-> In t (List.map triple rows)).
Proof.
  intros rows. split; [discriminate|]. split; [reflexivity|].
  split; [repeat constructor|]. split; [repeat constructor; simpl; tauto|].
  intros H.
  specialize (H (str "Zinger", ofN 500, Some (str " spicy"))).
  destruct H as [_ H]. specialize (H (or_introl eq_refl)).
  vm_compute in H. destruct H as [H|[]]. discriminate.
Qed.


(** *** Identifiers *)

Lemma slugify_chars s c :
  In c (slugify s) -> isLowerAlnum c = true \/ isHyphen c = true.
Proof.
  unfold slugify.
  destruct (orElse_cases
              (stripEnds isHyphen
                 (replaceRuns notLowerAlnum [hyphen] (toLowerCase s)))
              (str "item")) as [[_ ->]|[_ ->]].
  - intros H. apply stripEnds_incl in H. apply replaceRunsFrom_chars in H.
    destruct H as [[<-|[]]|[_ H]]; [now right | left].
    now apply negb_false_iff in H.
  - intros H. vm_compute in H.
    repeat (destruct H as [<-|H]; [now left|]). contradiction.
Qed.

Lemma slugify_nonEmpty s : nonEmpty (slugify s) = true.
Proof.
  unfold slugify.
  destruct (orElse_cases
              (stripEnds isHyphen
                 (replaceRuns notLowerAlnum [hyphen] (toLowerCase s)))
              (str "item")) as [[E ->]|[_ ->]]; [exact E | reflexivity].
Qed.

Lemma slugify_no_space s : forallb (fun c => negb (isWhiteSpace c)) (slugify s) = true.
Proof.
  apply forallb_forall. intros c H. apply negb_true_iff.
  destruct (slugify_chars _ _ H); [now apply alnum_not_space | now apply hyphen_not_space].
Qed.

Lemma decimal_no_space n : forallb (fun c => negb (isWhiteSpace c)) (decimal n) = true.
Proof.
  apply forallb_forall. intros c H. apply negb_true_iff, digit_not_space.
  pose proof (decimal_digits n) as Hd. rewrite forallb_forall in Hd. now apply Hd.
Qed.

Lemma synthesizedId_no_space c n i :
  forallb (fun c => negb (isWhiteSpace c)) (synthesizedId c n i) = true.
Proof.
  unfold synthesizedId. rewrite !forallb_app.
  now rewrite !slugify_no_space, decimal_no_space.
Qed.

Lemma synthesizedId_nonEmpty c n i : nonEmpty (synthesizedId c n i) = true.
Proof.
  unfold synthesizedId. pose proof (slugify_nonEmpty c) as H.
  destruct (slugify c); [discriminate | reflexivity].
Qed.

(** The identifier that [ensureRowIds] writes into a row. *)
Lemma assignedId_trimmed counters row :
  exists id, row_id (snd (ensureRowId counters row)) = Some id
             /\ trim id = id /\ nonEmpty id = true.
Proof.
  unfold ensureRowId. simpl.
  destruct (nonEmpty (explicitId row)) eqn:E.
  - exists (explicitId row). repeat split; [|exact E].
    unfold explicitId in *. destruct (row_id row); [apply trim_idem | discriminate].
  - eexists. split; [reflexivity|]. split.
    + apply trim_fixed, synthesizedId_no_space.
    + apply synthesizedId_nonEmpty.
Qed.

(** A row that [ensureRowIds] has written is written back unchanged,
    whatever the counters. *)
Lemma ensureRowId_again counters counters' row :
  snd (ensureRowId counters' (snd (ensureRowId counters row)))
  = snd (ensureRowId counters row).
Proof.
  destruct (assignedId_trimmed counters row) as [id [Hid [Ht Hn]]].
  remember (snd (ensureRowId counters row)) as row' eqn:Hrow'.
  assert (Hc : row_category row' = normalizeCategory (row_category row))
    by (now subst row').
  assert (Hname : row_name row' = trim (row_name row)) by (now subst row').
  assert (Hd : row_description row' = trimDescription (row_description row))
    by (now subst row').
  unfold ensureRowId at 1. simpl. unfold explicitId.
  rewrite Hid, Ht, Hn, Hc, Hname, Hd.
  rewrite normalizeCategory_idem, trim_idem, trimDescription_idem.
  destruct row' as [i c n p d]. simpl in *. now subst.
Qed.

Lemma ensureRowIdsFrom_cons counters row rows :
  ensureRowIdsFrom counters (row :: rows)
  = snd (ensureRowId counters row)
      :: ensureRowIdsFrom (fst (ensureRowId counters row)) rows.
Proof. cbn [ensureRowIdsFrom]. now destruct (ensureRowId counters row). Qed.

Lemma ensureRowIdsFrom_again rows : forall counters counters',
  ensureRowIdsFrom counters' (ensureRowIdsFrom counters rows)
  = ensureRowIdsFrom counters rows.
Proof.
  induction rows as [|row rows IH]; intros counters counters'; [reflexivity|].
  rewrite !ensureRowIdsFrom_cons. f_equal; [apply ensureRowId_again | apply IH].
Qed.

Lemma ensureRowIds_idem rows : ensureRowIds (ensureRowIds rows) = ensureRowIds rows.
Proof. apply ensureRowIdsFrom_again. Qed.

Lemma ensureRowIds_iter n rows :
  Nat.iter (S n) ensureRowIds rows = ensureRowIds rows.
Proof.
  induction n as [|n IH]; [reflexivity|].
  change (Nat.iter (S (S n)) ensureRowIds rows)
    with (ensureRowIds (Nat.iter (S n) ensureRowIds rows)).
  rewrite IH. apply ensureRowIds_idem.
Qed.

(** The row written at each position. *)
Lemma ensureRowIdsFrom_nth rows : forall counters i row,
  nth_error rows i = Some row ->
  nth_error (ensureRowIdsFrom counters rows) i
  = Some (snd (ensureRowId (countersAfter counters (firstn i rows)) row)).
Proof.
  induction rows as [|r rows IH]; intros counters i row H.
  - now destruct i.
  - rewrite ensureRowIdsFrom_cons. destruct i as [|i].
    + cbn in H. inversion H; subst. reflexivity.
    + cbn [nth_error firstn] in *. now apply IH.
Qed.

Lemma counterOf_step counters row c :
  counterOf (fst (ensureRowId counters row)) c
  = (counterOf counters c + if eqb (categoryOf row) c then 1 else 0)%N.
Proof.
  unfold ensureRowId, counterOf. simpl. fold (categoryOf row).
  destruct (eqb (categoryOf row) c) eqn:E.
  - apply eqb_eq in E. subst c. now rewrite get_set_same.
  - apply eqb_neq in E. rewrite get_set_other by exact E. lia.
Qed.

Lemma counterOf_after rows : forall counters c,
  counterOf (countersAfter counters rows) c
  = (counterOf counters c
     + N.of_nat (List.length (filter (fun r => eqb (categoryOf r) c) rows)))%N.
Proof.
  induction rows as [|r rows IH]; intros counters c.
  - unfold countersAfter. simpl. lia.
  - change (countersAfter counters (r :: rows))
      with (countersAfter (fst (ensureRowId counters r)) rows).
    rewrite IH, counterOf_step. cbn [filter].
    destruct (eqb (categoryOf r) c); cbn [List.length]; lia.
Qed.

Lemma firstn_S_nth (A : Type) (l : list A) i a :
  nth_error l i = Some a -> firstn (S i) l = firstn i l ++ [a].
Proof.
  revert i. induction l as [|x l IH]; intros [|i] H; simpl in *;
    try discriminate.
  - now inversion H.
  - f_equal. now apply IH.
Qed.

(** The identifier of a row that brings none: the slugs of its category and
    of its name, and its rank among the rows of its category. *)
Lemma synthesized_at rows i row :
  nth_error rows i = Some row ->
  nonEmpty (explicitId row) = false ->
  nth_error (ensureRowIds rows) i
  = Some {| row_id := Some (synthesizedId (categoryOf row) (trim (row_name row))
                                           (groupIndex rows i (categoryOf row)));
            row_category := categoryOf row;
            row_name := trim (row_name row);
            row_price := row_price row;
            row_description := trimDescription (row_description row) |}.
Proof.
  intros Hnth Hid. unfold ensureRowIds.
  rewrite (ensureRowIdsFrom_nth _ _ _ Hnth).
  unfold ensureRowId at 1. simpl. rewrite Hid. fold (categoryOf row).
  change (match JsMap.get ?m ?c with Some n => n | None => 0%N end)
    with (counterOf m c).
  assert (Hn : (counterOf (countersAfter [] (firstn i rows)) (categoryOf row) + 1)%N
               = groupIndex rows i (categoryOf row)).
  { unfold groupIndex.
    rewrite counterOf_after, (firstn_S_nth _ _ Hnth), filter_app, length_app.
    cbn [filter]. rewrite eqb_refl. unfold counterOf. cbn [JsMap.get List.length]. lia. }
  now rewrite Hn.
Qed.

(** A row that brings an identifier keeps it, trimmed. *)
Lemma explicit_at rows i row :
  nth_error rows i = Some row ->
  nonEmpty (explicitId row) = true ->
  option_map row_id (nth_error (ensureRowIds rows) i) = Some (Some (explicitId row)).
Proof.
  intros Hnth Hid. unfold ensureRowIds.
  rewrite (ensureRowIdsFrom_nth _ _ _ Hnth).
  unfold ensureRowId. simpl. now rewrite Hid.
Qed.


(** *** C4: identity assignment is idempotent *)

(** C4, as amended.  Running [ensureRowIds] on its own result changes
    nothing, so every further run yields the identifiers of the first; a
    row that brings an identifier that is not blank keeps that identifier
    with the white space at its ends removed, on every run, and so keeps it
    verbatim when it has no such white space. *)
Theorem identity_assignment_idempotent rows :
  ensureRowIds (ensureRowIds rows) = ensureRowIds rows
  /\ (forall n, idsAfter (S n) rows = idsAfter 1 rows)
  /\ (forall i row n,
        nth_error rows i = Some row ->
        nonEmpty (explicitId row) = true ->
        nth_error (idsAfter (S n) rows) i = Some (Some (explicitId row)))
  /\ (forall i row id n,
        nth_error rows i = Some row ->
        row_id row = Some id -> nonEmpty id = true -> trim id = id ->
        nth_error (idsAfter (S n) rows) i = Some (Some id)).
Proof.
  assert (Hex : forall i row n,
             nth_error rows i = Some row ->
             nonEmpty (explicitId row) = true ->
             nth_error (idsAfter (S n) rows) i = Some (Some (explicitId row))).
  { intros i row n Hnth Hid. unfold idsAfter. rewrite ensureRowIds_iter.
    rewrite nth_error_map. apply explicit_at; assumption. }
  split; [apply ensureRowIds_idem|]. split.
  - intros n. unfold idsAfter. now rewrite !ensureRowIds_iter.
  - split; [exact Hex|]. intros i row id n Hnth Hrow Hne Htrim.
    assert (He : explicitId row = id) by (unfold explicitId; now rewrite Hrow).
    rewrite <- He. apply Hex; [exact Hnth | now rewrite He].
Qed.

Lemma identity_assignment_idempotent_witness :
  let rows := [ {| row_id := Some (str " b1 "); row_category := str "Burgers";
                   row_name := str "Zinger"; row_price := ofN 500;
                   row_description := None |};
                plainRow "Burgers" "Classic" (ofN 450) ] in
  nth_error (idsAfter 3 rows) 0 = Some (Some (str "b1"))
  /\ idsAfter 3 rows = idsAfter 1 rows.
Proof.
  intros rows.
  destruct (identity_assignment_idempotent rows) as [_ [Hn [Hex _]]].
  split; [|apply Hn].
  apply (Hex 0%nat (nth 0 rows (plainRow "none" "none" NaN)) 2%nat); reflexivity.
Defined.

(** C4 as stated fails: an identifier with white space at an end is not
    kept verbatim. *)
Lemma padded_identifier_not_verbatim :
  let row := {| row_id := Some (str " b1"); row_category := str "Burgers";
                row_name := str "Zinger"; row_price := ofN 500;
                row_description := None |} in
  row_id row = Some (str " b1")
  /\ nonEmpty (str " b1") = true
  /\ List.map row_id (ensureRowIds [row]) = [Some (str "b1")]
  /\ List.map row_id (ensureRowIds [row]) <> [row_id row].
Proof. intros row. repeat split. discriminate. Qed.

(** *** C6: which identifiers are distinct *)

Lemma until_hyphen (u u' v v' : jsstring) :
  forallb isDigit u = true -> forallb isDigit u' = true ->
  u ++ hyphen :: v = u' ++ hyphen :: v' -> u = u'.
Proof.
  revert u'. induction u as [|a u IH]; intros [|b u'] Hu Hu' H; simpl in *.
  - reflexivity.
  - inversion H; subst. apply andb_true_iff in Hu'. destruct Hu' as [Hb _].
    discriminate Hb.
  - inversion H; subst. apply andb_true_iff in Hu. destruct Hu as [Ha _].
    discriminate Ha.
  - apply andb_true_iff in Hu, Hu'. destruct Hu as [_ Hu], Hu' as [_ Hu'].
    inversion H; subst. f_equal. now apply IH.
Qed.

Lemma forallb_rev (A : Type) (f : A -> bool) l : forallb f (rev l) = forallb f l.
Proof.
  induction l as [|a l IH]; simpl; [reflexivity|].
  rewrite forallb_app, IH. simpl. rewrite andb_true_r. apply andb_comm.
Qed.

Lemma after_last_hyphen (a b d d' : jsstring) :
  forallb isDigit d = true -> forallb isDigit d' = true ->
  a ++ hyphen :: d = b ++ hyphen :: d' -> d = d'.
Proof.
  intros Hd Hd' H. apply (f_equal (@rev N)) in H.
  rewrite !rev_app_distr in H. cbn [rev] in H.
  rewrite <- !app_assoc in H. cbn [app] in H.
  apply until_hyphen in H; [|now rewrite forallb_rev..].
  rewrite <- (rev_involutive d), <- (rev_involutive d'). now f_equal.
Qed.

Lemma synthesizedId_index c n n' k k' :
  synthesizedId c n k = synthesizedId c n' k' -> k = k'.
Proof.
  unfold synthesizedId. intros H. apply decimal_inj.
  apply (@after_last_hyphen (slugify c ++ [hyphen] ++ slugify n)
                            (slugify c ++ [hyphen] ++ slugify n'));
    [apply decimal_digits | apply decimal_digits |].
  rewrite <- !app_assoc. exact H.
Qed.

Lemma groupIndex_lt rows i j rj c :
  (i < j)%nat -> nth_error rows j = Some rj -> categoryOf rj = c ->
  (groupIndex rows i c < groupIndex rows j c)%N.
Proof.
  intros Hij Hj Hc. unfold groupIndex.
  rewrite (firstn_S_nth _ _ Hj), filter_app, length_app.
  cbn [filter]. rewrite Hc, eqb_refl. cbn [List.length].
  assert (Hle : (List.length (filter (fun r => eqb (categoryOf r) c) (firstn (S i) rows))
                 <= List.length (filter (fun r => eqb (categoryOf r) c) (firstn j rows)))%nat).
  { rewrite <- (firstn_skipn (S i) (firstn j rows)).
    rewrite firstn_firstn, filter_app, length_app.
    replace (Nat.min (S i) j) with (S i) by lia. lia. }
  lia.
Qed.

(** C6, as amended.  Two different rows of one category (after
    normalisation) that both come without an identifier are given different
    identifiers.  Nothing makes the identifiers that rows bring themselves
    differ from one another or from the synthesized ones. *)
Theorem synthesized_ids_distinct rows i j ri rj :
  i <> j ->
  nth_error rows i = Some ri -> nth_error rows j = Some rj ->
  nonEmpty (explicitId ri) = false -> nonEmpty (explicitId rj) = false ->
  categoryOf ri = categoryOf rj ->
  option_map row_id (nth_error (ensureRowIds rows) i)
  <> option_map row_id (nth_error (ensureRowIds rows) j).
Proof.
  intros Hij Hi Hj Ei Ej Hc.
  rewrite (synthesized_at _ _ Hi Ei), (synthesized_at _ _ Hj Ej). simpl.
  rewrite Hc. intros H. inversion H as [Hid]. apply synthesizedId_index in Hid.
  destruct (Nat.lt_total i j) as [Hlt|[Heq|Hgt]]; [|contradiction|].
  - pose proof (groupIndex_lt _ Hlt Hj eq_refl). lia.
  - pose proof (groupIndex_lt _ Hgt Hi Hc). lia.
Qed.

Lemma synthesized_ids_distinct_witness :
  let rows := [ plainRow "Burgers" "Zinger" (ofN 500);
                plainRow "Drinks" "Lassi" (ofN 180);
                plainRow " burgers" "Zinger" (ofN 520);
                plainRow "Burgers " "Zinger" (ofN 550) ] in
  option_map row_id (nth_error (ensureRowIds rows) 0)
  <> option_map row_id (nth_error (ensureRowIds rows) 3).
Proof.
  intros rows.
  apply (@synthesized_ids_distinct rows 0 3
           (plainRow "Burgers" "Zinger" (ofN 500))
           (plainRow "Burgers " "Zinger" (ofN 550)));
    [discriminate | reflexivity | reflexivity | reflexivity | reflexivity | reflexivity].
Defined.

(** C6 as stated fails: two rows that bring the same identifier keep it,
    and a synthesized identifier may repeat one that another row brings. *)
Lemma identifiers_may_repeat :
  let twice := [ {| row_id := Some (str "x1"); row_category := str "Burgers";
                    row_name := str "Zinger"; row_price := ofN 500;
                    row_description := None |};
                 {| row_id := Some (str "x1"); row_category := str "Drinks";
                    row_name := str "Lassi"; row_price := ofN 180;
                    row_description := None |} ] in
  let mixed := [ {| row_id := Some (str "burgers-zinger-2"); row_category := str "Burgers";
                    row_name := str "Classic"; row_price := ofN 450;
                    row_description := None |};
                 plainRow "Burgers" "Zinger" (ofN 500) ] in
  ~ NoDup (List.map row_id (ensureRowIds twice))
  /\ ~ NoDup (List.map row_id (ensureRowIds mixed)).
Proof.
  intros twice mixed. split; intros H; vm_compute in H;
    inversion H as [|? ? Hnotin _]; apply Hnotin; now left.
Qed.


(** *** The slug, word by word *)

Lemma consWord_ok w ws :
  forallb isLowerAlnum w = true -> wordsOk ws -> wordsOk (consWord w ws).
Proof.
  intros Hw Hws. unfold consWord. destruct (nonEmpty w) eqn:E; [|exact Hws].
  constructor; auto.
Qed.

Lemma splitWords_ok s :
  forallb isLowerAlnum (fst (splitWords s)) = true /\ wordsOk (snd (splitWords s)).
Proof.
  induction s as [|c t [IHw IHws]]; simpl; [split; [reflexivity | constructor]|].
  destruct (splitWords t) as [w ws]. simpl in *.
  destruct (isLowerAlnum c) eqn:E; simpl.
  - rewrite E. auto.
  - split; [reflexivity | now apply consWord_ok].
Qed.

Lemma join_hyphenated w ws : join [hyphen] (w :: ws) = w ++ hyphenated ws.
Proof.
  revert w. induction ws as [|x ws IH]; intros w.
  - simpl. now rewrite app_nil_r.
  - change (join [hyphen] (w :: x :: ws)) with (w ++ [hyphen] ++ join [hyphen] (x :: ws)).
    rewrite IH. reflexivity.
Qed.

Lemma hyphenated_join ws :
  hyphenated ws = match ws with [] => [] | _ :: _ => hyphen :: join [hyphen] ws end.
Proof. destruct ws as [|x ws]; [reflexivity|]. now rewrite join_hyphenated. Qed.

(** What is left of the replaced text once the hyphens at its end are cut:
    the words, each later one behind its hyphen. *)
Lemma replaced_words s :
  let '(w, ws) := splitWords s in
  dropWhileEnd isHyphen (replaceRunsFrom notLowerAlnum [hyphen] false s)
  = w ++ hyphenated ws
  /\ dropWhileEnd isHyphen (replaceRunsFrom notLowerAlnum [hyphen] true s)
     = if nonEmpty w then w ++ hyphenated ws else join [hyphen] ws.
Proof.
  induction s as [|c t IH]; [split; reflexivity|].
  pose proof (splitWords_ok t) as [_ Hok].
  cbn [splitWords replaceRunsFrom].
  destruct (splitWords t) as [w ws]. destruct IH as [IH0 IH1]. simpl in Hok.
  assert (En : notLowerAlnum c = negb (isLowerAlnum c)) by reflexivity.
  rewrite !En. clear En.
  destruct (isLowerAlnum c) eqn:E; cbn [negb app].
  - assert (Hc : isHyphen c = false) by now apply alnum_not_hyphen.
    rewrite dropWhileEnd_cons_out by exact Hc. rewrite IH0. split; reflexivity.
  - split.
    + rewrite dropWhileEnd_cons_in by reflexivity. rewrite IH1.
      unfold consWord. destruct (nonEmpty w) eqn:Ew.
      * destruct w; [discriminate | reflexivity].
      * rewrite hyphenated_join. destruct ws as [|x ws]; [reflexivity|].
        inversion Hok as [|? ? [Hx _] _]; subst.
        rewrite join_hyphenated. destruct x; [discriminate | reflexivity].
    + rewrite IH1. unfold consWord. destruct (nonEmpty w) eqn:Ew; [|reflexivity].
      cbn [nonEmpty]. now rewrite join_hyphenated.
Qed.

Lemma dropWhile_word w rest :
  nonEmpty w = true -> forallb isLowerAlnum w = true ->
  dropWhile isHyphen (w ++ rest) = w ++ rest.
Proof.
  destruct w as [|c w]; [discriminate|]. intros _ H. simpl in *.
  apply andb_true_iff in H. destruct H as [H _].
  now rewrite alnum_not_hyphen by exact H.
Qed.

Lemma stripped_words s :
  stripEnds isHyphen (replaceRuns notLowerAlnum [hyphen] s) = join [hyphen] (words s).
Proof.
  unfold stripEnds, replaceRuns, words. rewrite dropWhile_dropWhileEnd.
  pose proof (replaced_words s) as H. pose proof (splitWords_ok s) as [Hw Hws].
  destruct (splitWords s) as [w ws]. destruct H as [-> _]. simpl in Hw, Hws.
  unfold consWord. destruct (nonEmpty w) eqn:Ew.
  - rewrite join_hyphenated. now apply dropWhile_word.
  - apply nonEmpty_false in Ew. subst w. cbn [app].
    destruct ws as [|x ws]; [reflexivity|].
    inversion Hws as [|? ? [Hx Hal] _]; subst.
    rewrite join_hyphenated.
    change (hyphenated (x :: ws)) with (hyphen :: x ++ hyphenated ws).
    cbn [dropWhile]. change (isHyphen hyphen) with true. cbn iota.
    now apply dropWhile_word.
Qed.

(** The slug of the source is the slug of the specification. *)
Lemma slugify_words s : slugify s = slugOfWords s.
Proof. unfold slugify, slugOfWords. now rewrite stripped_words. Qed.










(** *** C5: the synthesized identifier *)




(** *** C7: an import without valid rows *)

Lemma normalizeText_trimmed v : trim (normalizeText v) = normalizeText v.
Proof. unfold normalizeText. apply trim_idem. Qed.

Lemma parsePrice_finite v x : parsePrice v = Some x -> isFinite x = true.
Proof.
  unfold parsePrice. destruct (nonEmpty (normalizeText v)); [|discriminate].
  destruct (isFinite (StringToNumber _)) eqn:E; [|discriminate].
  intros H. inversion H; subst. exact E.
Qed.

Lemma importRow_outcome a b c d e : rowOutcome (a, b) (importRow a b c d e).
Proof.
  unfold rowOutcome, importRow, survives. cbn [fst snd].
  destruct (parsePrice b) as [x|] eqn:Ep.
  - destruct (nonEmpty (normalizeText a)) eqn:En; [right | left; auto].
    split; [reflexivity|]. eexists. split; [reflexivity|].
    unfold validRow. cbn [row_name row_price].
    now rewrite normalizeText_trimmed, En, (parsePrice_finite _ Ep).
  - left. now rewrite andb_false_r.
Qed.

Lemma survivors_of_flat_map (A : Type) (g : A -> list MenuRow)
    (h : A -> primitive * primitive) (l : list A) :
  (forall x, rowOutcome (h x) (g x)) ->
  List.length (flat_map g l) = List.length (filter survives (List.map h l))
  /\ forallb validRow (flat_map g l) = true.
Proof.
  intros H. induction l as [|x l [IHl IHv]]; [split; reflexivity|].
  cbn [flat_map List.map filter].
  rewrite length_app, forallb_app, IHl, IHv.
  destruct (H x) as [[Hs ->]|[Hs [r [-> Hr]]]]; rewrite Hs; cbn.
  - auto.
  - rewrite Hr. auto.
Qed.

Lemma csvRows_agree parsed : readAgrees (csvCells parsed) (csvRows parsed).
Proof.
  unfold readAgrees, csvCells, csvRows.
  destruct (csv_errors parsed); [|auto].
  destruct (filter _ requiredHeaders); [|auto].
  eexists. split; [reflexivity|].
  apply survivors_of_flat_map. intros row. apply importRow_outcome.
Qed.

Lemma xlsxRows_agree wb : readAgrees (xlsxCells wb) (xlsxRows wb).
Proof.
  unfold readAgrees, xlsxCells, xlsxRows.
  destruct (SheetNames wb) as [|sheetName ?]; [auto|].
  destruct (nonEmpty sheetName); [|auto].
  destruct (sheetRows wb sheetName) as [|header dataRows]; [auto|].
  destruct (filter _ requiredHeaders); [|auto].
  eexists. split; [reflexivity|].
  apply survivors_of_flat_map. intros row. apply importRow_outcome.
Qed.

Lemma readRows_agree f : readAgrees (readCells f) (readRows f).
Proof.
  unfold readCells, readRows.
  destruct (endsWith (toLowerCase (file_name f)) (str ".csv")) eqn:Ec; cbn [negb andb].
  - apply csvRows_agree.
  - destruct (endsWith (toLowerCase (file_name f)) (str ".xlsx")); cbn [negb].
    + destruct (file_xlsx f) as [wb|e]; [apply xlsxRows_agree | now split].
    + now split.
Qed.

Lemma ensureRowIdsFrom_length rows : forall counters,
  List.length (ensureRowIdsFrom counters rows) = List.length rows.
Proof.
  induction rows as [|r rows IH]; intros counters; [reflexivity|].
  rewrite ensureRowIdsFrom_cons. cbn [List.length]. now rewrite IH.
Qed.

Lemma ensureRowId_valid counters row :
  validRow (snd (ensureRowId counters row)) = validRow row.
Proof.
  unfold ensureRowId, validRow. cbn [snd row_name row_price].
  now rewrite trim_idem.
Qed.

Lemma ensureRowIdsFrom_valid rows : forall counters,
  forallb validRow (ensureRowIdsFrom counters rows) = forallb validRow rows.
Proof.
  induction rows as [|r rows IH]; intros counters; [reflexivity|].
  rewrite ensureRowIdsFrom_cons. cbn [forallb].
  now rewrite ensureRowId_valid, IH.
Qed.

Lemma rowsToCategories_nonEmpty rows :
  rows <> [] -> forallb validRow rows = true -> rowsToCategories rows <> [].
Proof.
  destruct rows as [|r rows]; [congruence|]. intros _ Hv Hnil.
  cbn [forallb] in Hv. apply andb_true_iff in Hv. destruct Hv as [Hr _].
  pose proof (grouped_has (r :: rows) [] (categoryOf r)) as H.
  cbn [existsb] in H. rewrite Hr, eqb_refl in H.
  change (JsMap.has [] (categoryOf r)) with false in H. cbn [andb orb] in H.
  apply has_keys in H. rewrite <- rowsToCategories_names, Hnil in H. exact H.
Qed.

(** The import and the rows that [parsePrice] keeps.  The import fails for
    want of valid rows exactly when the file passes the structural checks
    and none of its data rows has both a name cell that is not blank and a
    price cell on which [parsePrice] does not return [null]; every other
    failure is a structural error.  When the import succeeds, the rows
    installed are as many as such data rows, at least one, and the
    catalogue made of them is not empty. *)
Theorem import_fails_iff_no_row_survives (f : File) :
  (importRows f = inl NoValidRows
   <-> exists cells, readCells f = inr cells
                     /\ forallb (fun c => negb (survives c)) cells = true)
  /\ (forall e, readCells f = inl e -> importRows f = inl e /\ structural e = true)
  /\ (forall rows, importRows f = inr rows ->
        exists cells, readCells f = inr cells
                      /\ List.length rows = List.length (filter survives cells)
                      /\ rows <> []
                      /\ rowsToCategories rows <> [])
  /\ importErrorText NoValidRows = str "No valid rows found in the file."
  /\ (forall sel st st' msg,
        importMenuFile sel (Some f) st = (st', Some (ToastSuccess msg)) ->
        menuRows st' <> [] /\ menuCategories st' <> []).
Proof.
  assert (Hnone : forall cs : list (primitive * primitive),
             forallb (fun c => negb (survives c)) cs = true
             <-> List.length (filter survives cs) = 0%nat).
  { induction cs as [|c cs IH]; cbn; [tauto|].
    destruct (survives c); cbn; [split; discriminate | exact IH]. }
  assert (Hok : forall rows, importRows f = inr rows ->
             exists cells, readCells f = inr cells
                           /\ List.length rows = List.length (filter survives cells)
                           /\ rows <> []
                           /\ rowsToCategories rows <> []).
  { intros rows H. unfold importRows in H.
    pose proof (readRows_agree f) as Ha. unfold readAgrees in Ha.
    destruct (readCells f) as [e|cells].
    - destruct Ha as [Ha _]. rewrite Ha in H. discriminate.
    - destruct Ha as [rs [Ha [Hlen Hv]]]. rewrite Ha in H.
      destruct rs as [|r rs]; [discriminate|]. inversion H; subst rows.
      exists cells. split; [reflexivity|].
      assert (Hne : ensureRowIds (r :: rs) <> []).
      { unfold ensureRowIds. rewrite ensureRowIdsFrom_cons. discriminate. }
      repeat split.
      + unfold ensureRowIds. now rewrite ensureRowIdsFrom_length.
      + exact Hne.
      + apply rowsToCategories_nonEmpty; [exact Hne|].
        unfold ensureRowIds. now rewrite ensureRowIdsFrom_valid. }
  split; [|split; [|split; [exact Hok | split; [reflexivity|]]]].
  - unfold importRows.
    pose proof (readRows_agree f) as Ha. unfold readAgrees in Ha.
    destruct (readCells f) as [e|cells].
    + destruct Ha as [Ha Hs]. rewrite Ha. split.
      * intros H. inversion H; subst. discriminate.
      * intros [cells [H _]]. discriminate.
    + destruct Ha as [rs [Ha [Hlen _]]]. rewrite Ha. split.
      * intros H. exists cells. split; [reflexivity|]. apply Hnone.
        destruct rs; [now rewrite <- Hlen | discriminate].
      * intros [cells' [H Hall]]. inversion H; subst cells'.
        apply Hnone in Hall. rewrite Hall in Hlen.
        now destruct rs.
  - intros e He. unfold importRows.
    pose proof (readRows_agree f) as Ha. unfold readAgrees in Ha.
    rewrite He in Ha. destruct Ha as [Ha Hs]. now rewrite Ha.
  - intros sel st st' msg H. unfold importMenuFile in H.
    destruct sel as [sel|]; [|discriminate].
    destruct (nonEmpty sel); [|discriminate].
    destruct (importRows f) as [e|rows] eqn:Ei; [discriminate|].
    inversion H; subst. cbn [menuRows menuCategories].
    destruct (Hok rows eq_refl) as [_ [_ [_ [Hne Hc]]]]. auto.
Qed.


Lemma import_fails_iff_no_row_survives_witness :
  let f := csvFile "Menu.CSV" [" Item_Name "; "PRICE"]%string
             [["  "; "450"]; ["Tea"; "-"]; ["Naan"; " "]]%string in
  importRows f = inl NoValidRows.
Proof.
  intros f.
  destruct (import_fails_iff_no_row_survives f) as [[_ H] _].
  apply H. eexists. split; reflexivity.
Defined.


(** *** C8: loading the stored menu *)

Lemma get_optGet v key : nullish v = false -> get v key = Normal (optGet v key).
Proof.
  destruct v as [[]| |props]; try discriminate; intros _; try reflexivity.
  simpl. now destruct (lookup (str key) props).
Qed.

Lemma ToString_primitive v :
  match v with Prim _ => true | _ => false end = true ->
  ToString v = Normal (StringP (toPrimitive v)).
Proof. destruct v; [reflexivity | discriminate | discriminate]. Qed.

Lemma ToNumber_primitive v :
  match v with Prim _ => true | _ => false end = true ->
  ToNumber v = Normal (NumberP (toPrimitive v)).
Proof. destruct v; [reflexivity | discriminate | discriminate]. Qed.

Lemma or_primitive a p :
  match a with Prim _ => true | _ => false end = true ->
  match or a (Prim p) with Prim _ => true | _ => false end = true.
Proof. unfold or. now destruct (truthy a). Qed.

Lemma coalesce_primitive a p :
  match a with Prim _ => true | _ => false end = true ->
  match coalesce a (Prim p) with Prim _ => true | _ => false end = true.
Proof. unfold coalesce. now destruct (nullish a). Qed.

Lemma loadItem_plain it idx :
  plainItem it = true -> loadItem it idx = Normal (itemOf it idx).
Proof.
  unfold plainItem, primitiveMember. intros H.
  repeat (apply andb_true_iff in H; destruct H as [H ?]).
  apply negb_true_iff in H.
  unfold loadItem. rewrite !get_optGet by exact H. cbn [bind].
  rewrite ToString_primitive by (apply or_primitive; assumption). cbn [bind].
  rewrite ToString_primitive by (apply or_primitive; assumption). cbn [bind].
  rewrite ToNumber_primitive by (apply coalesce_primitive; assumption). reflexivity.
Qed.

Lemma mapiM_plain elems : forall i,
  forallb plainItem elems = true ->
  mapiM loadItem i elems = Normal (mapi itemOf i elems).
Proof.
  induction elems as [|e elems IH]; intros i H; [reflexivity|].
  cbn [forallb] in H. apply andb_true_iff in H. destruct H as [He Hs].
  cbn [mapiM mapi]. rewrite loadItem_plain by exact He. cbn [bind].
  now rewrite IH by exact Hs.
Qed.

Lemma loadItems_plain elems :
  forallb plainItem elems = true -> loadItems elems = Normal (validItems elems).
Proof. intros H. unfold loadItems. now rewrite mapiM_plain by exact H. Qed.

Lemma loadCategory_plain c :
  plainCategory c = true -> loadCategory c = Normal (groupOf c).
Proof.
  unfold plainCategory, primitiveMember. intros H.
  repeat (apply andb_true_iff in H; destruct H as [H ?]).
  apply negb_true_iff in H.
  unfold loadCategory, groupOf. rewrite !get_optGet by exact H. cbn [bind].
  rewrite ToString_primitive by (apply or_primitive; assumption). cbn [bind].
  destruct (optGet c "items") as [p|elems|props]; try reflexivity.
  now rewrite loadItems_plain by assumption.
Qed.

Lemma mapM_plain elems :
  forallb plainCategory elems = true ->
  mapM loadCategory elems = Normal (List.map groupOf elems).
Proof.
  induction elems as [|c elems IH]; intros H; [reflexivity|].
  cbn [forallb] in H. apply andb_true_iff in H. destruct H as [Hc Hs].
  cbn [mapM List.map]. rewrite loadCategory_plain by exact Hc. cbn [bind].
  now rewrite IH by exact Hs.
Qed.

(** C8, as amended.  [applyMenuJson] probes the member [items] of the first
    element.  Whatever is not an array ([null], [undefined], any other
    value) loads as the empty catalogue, and no error is raised.  An array
    whose first element has a truthy [items] loads as the groups read from
    its elements, each with its valid items.  Any other array is read as a
    flat array of items, and loads as the single group [Uncategorized]
    holding its valid items when there is at least one, and as the empty
    catalogue when there is none.  The two statements on arrays are for
    elements that are neither [null] nor [undefined] and have primitives
    for [id], [name] and [price] (and for the name of a group). *)
Theorem stored_menu_shapes :
  (forall incoming, isArray incoming = false ->
     applyMenuJson incoming = Normal emptyCatalog)
  /\ (forall elems,
        firstHasItems elems = true -> forallb plainCategory elems = true ->
        applyMenuJson (Arr elems) = Normal (catalogOf (List.map groupOf elems)))
  /\ (forall elems,
        firstHasItems elems = false -> forallb plainItem elems = true ->
        applyMenuJson (Arr elems)
        = Normal (match validItems elems with
                  | [] => emptyCatalog
                  | (_ :: _) as items =>
                      catalogOf [{| cat_name := Uncategorized; cat_items := items |}]
                  end)
        /\ forallb keepItem (validItems elems) = true).
Proof.
  split; [|split].
  - intros incoming H. destruct incoming; [reflexivity | discriminate | reflexivity].
  - intros elems Hf Hp. unfold applyMenuJson. rewrite Hf.
    rewrite mapM_plain by exact Hp. reflexivity.
  - intros elems Hf Hp. split.
    + unfold applyMenuJson. rewrite Hf. rewrite loadItems_plain by exact Hp.
      cbn [bind]. now destruct (validItems elems).
    + apply forallb_forall. intros it Hit. unfold validItems in Hit.
      apply filter_In in Hit. tauto.
Qed.

Lemma stored_menu_shapes_witness :
  let tea := object [("name", text "Tea"); ("price", Prim (Num (ofN 120)))]%string in
  let blank := object [("name", text "Chai")]%string in
  let nameless := object [("price", Prim (Num (ofN 90)))]%string in
  applyMenuJson (Arr [object [("name", text "Drinks");
                              ("items", Arr [tea; nameless])]%string;
                      object [("items", Prim Null)]%string])
  = Normal (catalogOf [ {| cat_name := str "Drinks";
                           cat_items := [itemOf tea 0] |};
                        {| cat_name := Uncategorized; cat_items := [] |} ])
  /\ applyMenuJson (Arr [tea; nameless; blank])
     = Normal (catalogOf [ {| cat_name := Uncategorized;
                              cat_items := [itemOf tea 0; itemOf blank 2] |} ]).
Proof.
  intros tea blank nameless.
  destruct stored_menu_shapes as [_ [Hgroups Hflat]]. split.
  - rewrite Hgroups; reflexivity.
  - destruct (Hflat [tea; nameless; blank] eq_refl eq_refl) as [-> _]. reflexivity.
Defined.

(** C8 as stated fails: a flat array none of whose elements is a valid item
    loads as the empty catalogue, not as a group [Uncategorized]; and an
    array that holds [null] makes [applyMenuJson] throw a [TypeError]. *)
Lemma no_group_without_valid_item :
  let nameless := object [("price", Prim (Num (ofN 90)))]%string in
  applyMenuJson (Arr [nameless]) = Normal emptyCatalog
  /\ applyMenuJson (Arr []) = Normal emptyCatalog
  /\ applyMenuJson (Arr [Prim Null])
     = Throw (TypeError (str "Cannot read properties of null (reading 'id')")).
Proof. intros nameless. repeat split. Qed.


(** The text of a price cell without any digit is cleaned to the empty
    string, which [Number] reads as zero: such a row is kept, with price
    zero. *)
Lemma letters_parse_as_zero : parsePrice (Str (str "abc")) = Some zero.
Proof. reflexivity. Qed.

(** *** C7: a price without digits *)

Lemma removeAll_nothing_left (p : N -> bool) s :
  forallb p s = true -> removeAll p s = [].
Proof.
  unfold removeAll. induction s as [|c s IH]; [reflexivity|].
  cbn [forallb filter]. intros H. apply andb_true_iff in H. destruct H as [Hc Hs].
  rewrite Hc. cbn [negb]. now apply IH.
Qed.

(** C7 fails on the code, by a slip of [parsePrice].  A price cell that is
    not blank and holds no digit, no dot and no hyphen (the text [abc],
    say) is cleaned to the empty string, which [Number] reads as zero
    instead of [NaN]: [parsePrice] returns zero where it was to return
    [null], the row is kept with the price zero, and a file all of whose
    prices are such texts is imported instead of failing for want of valid
    rows. *)
Theorem digitless_price_is_kept_as_zero :
  (forall v,
     nonEmpty (normalizeText v) = true ->
     forallb (fun c => negb (isDigit c || (c =? 46)%N || isHyphen c))
             (normalizeText v) = true ->
     parsePrice v = Some zero)
  /\ (forall name v c d e,
        nonEmpty (normalizeText name) = true ->
        nonEmpty (normalizeText v) = true ->
        forallb (fun c => negb (isDigit c || (c =? 46)%N || isHyphen c))
                (normalizeText v) = true ->
        exists r, importRow name v c d e = [r]
                  /\ row_name r = normalizeText name
                  /\ row_price r = zero
                  /\ validRow r = true)
  /\ (let f := csvFile "menu.csv" ["item_name"; "price"]%string
                  [["Tea"; "abc"]; ["Naan"; "n/a"]]%string in
      let rows := [ {| row_id := Some (str "uncategorized-tea-1");
                       row_category := Uncategorized; row_name := str "Tea";
                       row_price := zero; row_description := None |};
                    {| row_id := Some (str "uncategorized-naan-2");
                       row_category := Uncategorized; row_name := str "Naan";
                       row_price := zero; row_description := None |} ] in
      readRows f <> inr []
      /\ importRows f = inr rows
      /\ importRows f <> inl NoValidRows
      /\ importMenuFile (Some (str "r1")) (Some f) emptyCatalog
         = ({| menuCategories := rowsToCategories rows; menuRows := rows |},
            Some (ToastSuccess (str "Imported 2 items.")))).
Proof.
  assert (Hparse : forall v,
            nonEmpty (normalizeText v) = true ->
            forallb (fun c => negb (isDigit c || (c =? 46)%N || isHyphen c))
                    (normalizeText v) = true ->
            parsePrice v = Some zero).
  { intros v Hne Hall. unfold parsePrice. rewrite Hne.
    rewrite removeAll_nothing_left by exact Hall. reflexivity. }
  split; [exact Hparse|]. split.
  - intros name v c d e Hn Hne Hall. unfold importRow.
    rewrite (Hparse v Hne Hall), Hn. eexists. split; [reflexivity|].
    cbn [row_name row_price]. split; [reflexivity|]. split; [reflexivity|].
    unfold validRow. cbn [row_name row_price].
    now rewrite normalizeText_trimmed, Hn.
  - intros f rows. split; [discriminate|]. split; [reflexivity|].
    split; [discriminate | reflexivity].
Qed.

Lemma In_ensureRowIdsFrom rows : forall counters r,
  In r rows ->
  exists r', In r' (ensureRowIdsFrom counters rows)
             /\ row_price r' = row_price r /\ validRow r' = validRow r.
Proof.
  induction rows as [|x rows IH]; intros counters r H; [contradiction|].
  rewrite ensureRowIdsFrom_cons. destruct H as [->|H].
  - exists (snd (ensureRowId counters r)). split; [now left|].
    split; [reflexivity | apply ensureRowId_valid].
  - destruct (IH (fst (ensureRowId counters x)) r H) as [r' [Hin Hr']].
    exists r'. split; [now right | exact Hr'].
Qed.

End MenuFacts.

(** ** Prices on their way to the store *)

Module PriceFacts.
Import JsString JsNumber JsValue Menu Route MenuRoute StringFacts MenuFacts.

Lemma negative_refused x :
  isFinite x = true -> isNegative x = true -> priceSchema x = false.
Proof.
  unfold priceSchema. intros Hf H. destruct x as [|s|s m e]; try discriminate.
  simpl in *. apply andb_true_iff in H. destruct H as [-> H].
  apply negb_true_iff in H. now rewrite H.
Qed.

Lemma schema_refuses_negative cats cat it :
  In cat cats -> In it (cat_items cat) ->
  isFinite (item_price it) = true -> isNegative (item_price it) = true ->
  itemsJsonSchema cats = false.
Proof.
  intros Hcat Hit Hf Hn. unfold itemsJsonSchema.
  destruct cats as [|c cats]; [contradiction|].
  apply not_true_is_false. intros H. rewrite forallb_forall in H.
  specialize (H cat Hcat). apply andb_true_iff in H. destruct H as [_ H].
  rewrite forallb_forall in H. specialize (H it Hit).
  unfold ItemSchema in H. rewrite (negative_refused _ Hf Hn) in H.
  now rewrite andb_false_r in H.
Qed.

Lemma schema_prices cats cat it :
  itemsJsonSchema cats = true -> In cat cats -> In it (cat_items cat) ->
  priceSchema (item_price it) = true.
Proof.
  intros H Hcat Hit. unfold itemsJsonSchema in H.
  destruct cats as [|c cats]; [contradiction|].
  rewrite forallb_forall in H. specialize (H cat Hcat).
  apply andb_true_iff in H. destruct H as [_ H].
  rewrite forallb_forall in H. specialize (H it Hit).
  unfold ItemSchema in H. apply andb_true_iff in H. tauto.
Qed.

Lemma coercedPrice_storable p :
  priceSchema p = true -> storablePrice (coercedPrice p) = true.
Proof.
  unfold priceSchema, coercedPrice, storablePrice.
  destruct p as [|s|s m e]; try reflexivity. cbn [isFinite andb].
  intros H. destruct (JsNumber.truthy (Finite s m e)); [|reflexivity].
  cbn [isFinite andb]. exact H.
Qed.

Lemma parsedData_storable payload :
  itemsJsonSchema (menu_items_json payload) = true ->
  storablePrices (parsedData payload) = true.
Proof.
  intros H. unfold storablePrices, parsedData. cbn [menu_items_json].
  apply forallb_forall. intros c Hc. apply in_map_iff in Hc.
  destruct Hc as [cat [<- Hcat]]. cbn [parsedCategory cat_items].
  apply forallb_forall. intros it Hit. apply in_map_iff in Hit.
  destruct Hit as [x [<- Hx]]. cbn [parsedItem item_price].
  apply coercedPrice_storable. exact (schema_prices _ _ _ H Hcat Hx).
Qed.

Lemma menuOf_upsert table id row :
  exists stored, menuOf (upsert table id row) id = Some stored
                 /\ menu_items_json stored = menu_items_json row.
Proof.
  induction table as [|[k old] table IH]; cbn [upsert].
  - exists row. cbn [menuOf]. now rewrite eqb_refl.
  - destruct (eqb k id) eqn:E; cbn [menuOf]; rewrite E; [|exact IH].
    eexists. split; reflexivity.
Qed.

Lemma upsert_storable table id row :
  forallb (fun entry => storablePrices (snd entry)) table = true ->
  storablePrices row = true ->
  forallb (fun entry => storablePrices (snd entry)) (upsert table id row) = true.
Proof.
  intros Ht Hr. induction table as [|[k old] table IH]; cbn [upsert forallb snd].
  - now rewrite Hr.
  - cbn [forallb snd] in Ht. apply andb_true_iff in Ht. destruct Ht as [Ho Ht].
    destruct (eqb k id); cbn [forallb snd].
    + rewrite Ht, andb_true_r. exact Hr.
    + now rewrite Ho, IH.
Qed.

(** C2, as amended.  Neither the import nor [saveMenu] looks at the sign of
    a price.  A data row with a name and a price cell that parses is
    imported with the parsed price, negative or not; [saveMenu] refuses to
    send a row with a blank name or a price that is not finite, and sends
    every other row in the payload of its request.  It is the menu route
    that stops a negative price: its schema rejects, with status 422 and
    without touching the store, every payload that holds a finite negative
    price.  What it stores is the parsed payload, in which every price is a
    finite number that is not negative (a price that is no finite number
    arrives as [null] and is stored as zero): the row written by a request
    that succeeds holds such prices only, and a table that holds such
    prices only still does after any request. *)
Theorem negative_price_stopped_by_route (isUrl : jsstring -> bool) :
  (forall a b c d e x,
     nonEmpty (normalizeText a) = true -> parsePrice b = Some x ->
     exists r, importRow a b c d e = [r] /\ row_price r = x)
  /\ (forall a b c d e,
        nonEmpty (normalizeText a) = false \/ parsePrice b = None ->
        importRow a b c d e = [])
  /\ (forall sel st url,
        nonEmpty sel = true -> menuRows st <> [] ->
        forallb validRow (menuRows st) = true ->
        exists payload st',
          saveMenu (Some sel) st url = SaveRequest payload st'
          /\ forall r, In r (menuRows st) ->
               exists cat it, In cat (menu_items_json payload)
                              /\ In it (cat_items cat)
                              /\ item_price it = row_price r)
  /\ (forall sel st url payload st',
        saveMenu sel st url = SaveRequest payload st' ->
        forall r, In r (menuRows st) ->
                  nonEmpty (trim (row_name r)) = true /\ isFinite (row_price r) = true)
  /\ (forall access id payload fault table cat it,
        In cat (menu_items_json payload) -> In it (cat_items cat) ->
        isFinite (item_price it) = true -> isNegative (item_price it) = true ->
        snd (POST isUrl access id payload fault table) = table
        /\ (access = Normal tt ->
            fst (POST isUrl access id payload fault table) = Failure 422 SchemaIssue))
  /\ (forall access id payload fault table table',
        POST isUrl access id payload fault table = (Success, table') ->
        exists stored,
          menuOf table' id = Some stored
          /\ menu_items_json stored
             = List.map parsedCategory (menu_items_json payload)
          /\ forall cat it,
               In cat (menu_items_json stored) -> In it (cat_items cat) ->
               isFinite (item_price it) = true
               /\ isNonNegative (item_price it) = true)
  /\ (forall access id payload fault table,
        forallb (fun entry => storablePrices (snd entry)) table = true ->
        forallb (fun entry => storablePrices (snd entry))
                (snd (POST isUrl access id payload fault table)) = true).
Proof.
  split; [|split; [|split; [|split; [|split; [|split]]]]].
  - intros a b c d e x Hn Hp. unfold importRow. rewrite Hp, Hn.
    eexists. split; reflexivity.
  - intros a b c d e [H|H]; unfold importRow; rewrite H;
      [now destruct (parsePrice b) | reflexivity].
  - intros sel st url Hsel Hne Hv. unfold saveMenu. rewrite Hsel, Hv.
    assert (Hv' : forallb validRow (ensureRowIds (menuRows st)) = true)
      by (unfold ensureRowIds; now rewrite ensureRowIdsFrom_valid).
    assert (Hne' : ensureRowIds (menuRows st) <> []).
    { destruct (menuRows st); [congruence|].
      unfold ensureRowIds. rewrite ensureRowIdsFrom_cons. discriminate. }
    pose proof (rowsToCategories_nonEmpty Hne' Hv') as Hc.
    destruct (rowsToCategories (ensureRowIds (menuRows st))) as [|g gs] eqn:Eg;
      [congruence|].
    eexists. eexists. split; [reflexivity|]. cbn [menu_items_json].
    intros r Hr.
    destruct (In_ensureRowIdsFrom (menuRows st) [] r Hr) as [r' [Hin [Hp Hvr]]].
    fold (ensureRowIds (menuRows st)) in Hin.
    rewrite forallb_forall in Hv. rewrite (Hv r Hr) in Hvr.
    destruct (valid_row_grouped _ _ Hin Hvr) as [cat [Hcat [_ Hit]]].
    rewrite Eg in Hcat.
    exists cat, (rowEntry r'). repeat split; [exact Hcat | exact Hit | exact Hp].
  - intros sel st url payload st' H r Hr. unfold saveMenu in H.
    destruct sel as [sel|]; [|discriminate].
    destruct (nonEmpty sel); [|discriminate].
    destruct (forallb validRow (menuRows st)) eqn:Hv; [|discriminate].
    rewrite forallb_forall in Hv. specialize (Hv r Hr).
    unfold validRow in Hv. apply andb_true_iff in Hv. exact Hv.
  - intros access id payload fault table cat it Hcat Hit Hf Hn.
    unfold POST, MenuUpsertSchema.
    rewrite (schema_refuses_negative _ _ _ Hcat Hit Hf Hn). cbn [andb].
    split; [now destruct access | now intros ->].
  - intros access id payload fault table table' H.
    unfold POST in H. destruct access as [u|e]; [|destruct e; discriminate].
    destruct (MenuUpsertSchema isUrl payload) eqn:Es; [|discriminate].
    destruct fault; [discriminate|].
    unfold MenuUpsertSchema in Es. apply andb_true_iff in Es. destruct Es as [Es _].
    injection H as <-.
    destruct (menuOf_upsert table id (parsedData payload)) as [stored [Hs Hi]].
    exists stored. split; [exact Hs|]. split; [exact Hi|].
    intros cat it Hcat Hit. rewrite Hi in Hcat.
    pose proof (parsedData_storable payload Es) as Hok.
    unfold storablePrices in Hok. rewrite forallb_forall in Hok.
    specialize (Hok cat Hcat). rewrite forallb_forall in Hok.
    specialize (Hok it Hit). unfold storablePrice in Hok.
    now apply andb_true_iff in Hok.
  - intros access id payload fault table Ht. unfold POST.
    destruct access as [u|e]; [|exact Ht].
    destruct (MenuUpsertSchema isUrl payload) eqn:Es; [|exact Ht].
    destruct fault; [exact Ht|]. cbn [snd].
    unfold MenuUpsertSchema in Es. apply andb_true_iff in Es. destruct Es as [Es _].
    apply upsert_storable; [exact Ht | now apply parsedData_storable].
Qed.

Lemma negative_price_stopped_by_route_witness :
  let st := {| menuCategories := [];
               menuRows := [plainRow "Burgers" "Zinger" (ofNegN 5)] |} in
  exists payload st',
    saveMenu (Some (str "r1")) st [] = SaveRequest payload st'
    /\ POST (fun _ => true) (Normal tt) (str "r1") payload None []
       = (Failure 422 SchemaIssue, []).
Proof.
  intros st.
  destruct (negative_price_stopped_by_route (fun _ => true))
    as [_ [_ [Hsave [_ [Hpost _]]]]].
  destruct (Hsave (str "r1") st [] eq_refl ltac:(discriminate) eq_refl)
    as [payload [st' [Hs Hin]]].
  exists payload, st'. split; [exact Hs|].
  destruct (Hin _ (or_introl eq_refl)) as [cat [it [Hcat [Hit Hp]]]].
  destruct (Hpost (Normal tt) (str "r1") payload None [] cat it Hcat Hit)
    as [Hsnd Hfst]; [now rewrite Hp | now rewrite Hp |].
  specialize (Hfst eq_refl).
  destruct (POST (fun _ => true) (Normal tt) (str "r1") payload None []) as [resp tbl].
  simpl in *. now subst.
Defined.

(** C2 as stated fails: a file row with the price [-5] is imported, passes
    the check of [saveMenu], and is part of the payload posted. *)
Lemma negative_price_reaches_payload :
  let f := csvFile "menu.csv" ["category"; "item_name"; "price"]%string
             [["Burgers"; "Zinger"; "-5"]]%string in
  exists rows payload st' cat it,
    importRows f = inr rows
    /\ saveMenu (Some (str "r1"))
                {| menuCategories := rowsToCategories rows; menuRows := rows |} []
       = SaveRequest payload st'
    /\ In cat (menu_items_json payload)
    /\ In it (cat_items cat)
    /\ item_price it = ofNegN 5
    /\ isFinite (item_price it) = true
    /\ isNegative (item_price it) = true.
Proof.
  intros f. do 5 eexists.
  split; [reflexivity|]. split; [reflexivity|].
  split; [now left|]. split; [now left|]. repeat split.
Qed.

End PriceFacts.

(** ** The safe-replace protocol of the delivery zones *)

Module ZoneFacts.
Import JsString JsNumber JsValue Route DeliveryZones StringFacts MapFacts.

(** *** The name lists *)

Lemma addZoneName_get m row c :
  namesOr (addZoneName m row) c
  = namesOr m c ++ (if eqb (city (zone row)) c then [zone_name (zone row)] else []).
Proof.
  unfold addZoneName, namesOr.
  destruct (eqb (city (zone row)) c) eqn:E.
  - apply eqb_eq in E. subst c. now rewrite get_set_same.
  - apply eqb_neq in E. rewrite get_set_other by exact E. now rewrite app_nil_r.
Qed.

Lemma addZoneName_has m row c :
  JsMap.has (addZoneName m row) c = JsMap.has m c || eqb (city (zone row)) c.
Proof.
  unfold addZoneName, JsMap.has.
  destruct (eqb (city (zone row)) c) eqn:E.
  - apply eqb_eq in E. subst c. rewrite get_set_same. now rewrite orb_true_r.
  - apply eqb_neq in E. rewrite get_set_other by exact E. now rewrite orb_false_r.
Qed.

Lemma zonesByCity_get rows : forall m c,
  namesOr (fold_left addZoneName rows m) c = namesOr m c ++ namesOf rows c.
Proof.
  unfold namesOf.
  induction rows as [|row rows IH]; intros m c; cbn [fold_left filter List.map];
    [now rewrite app_nil_r|].
  rewrite IH, addZoneName_get, <- app_assoc. f_equal.
  now destruct (eqb (city (zone row)) c).
Qed.

Lemma zonesByCity_has rows : forall m c,
  JsMap.has (fold_left addZoneName rows m) c
  = JsMap.has m c || existsb (fun r => eqb (city (zone r)) c) rows.
Proof.
  induction rows as [|row rows IH]; intros m c; cbn [fold_left existsb];
    [now rewrite orb_false_r|].
  now rewrite IH, addZoneName_has, orb_assoc.
Qed.

Lemma zonesByCity_NoDup rows : forall m,
  NoDup (JsMap.keys m) -> NoDup (JsMap.keys (fold_left addZoneName rows m)).
Proof.
  induction rows as [|row rows IH]; intros m H; cbn [fold_left]; [exact H|].
  apply IH. unfold addZoneName. now apply NoDup_keys_set.
Qed.

(** An entry of [zonesByCity] is a city of the batch with the names of the
    zones of that city in the batch. *)
Lemma zonesByCity_entries rows group zoneNames :
  In (group, zoneNames) (JsMap.entries (zonesByCity rows)) <->
  zoneNames = namesOf rows group /\ zoneNames <> [].
Proof.
  unfold JsMap.entries, zonesByCity.
  pose proof (zonesByCity_NoDup rows [] (NoDup_nil _)) as Hnd.
  pose proof (zonesByCity_get rows [] group) as Hget.
  pose proof (zonesByCity_has rows [] group) as Hhas.
  unfold namesOr, JsMap.has in Hget, Hhas. cbn [JsMap.get app orb] in Hget, Hhas.
  split.
  - intros H. rewrite (@In_get _ _ _ _ Hnd H) in Hget, Hhas.
    split; [exact Hget|]. subst zoneNames. unfold namesOf.
    symmetry in Hhas. apply existsb_exists in Hhas. destruct Hhas as [r [Hr Hc]].
    intros Hnil. apply map_eq_nil in Hnil.
    assert (Hin : In r (filter (fun r => eqb (city (zone r)) group) rows))
      by (apply filter_In; auto).
    rewrite Hnil in Hin. exact Hin.
  - intros [Hn Hne]. apply get_In.
    destruct (JsMap.get (fold_left addZoneName rows []) group) as [l|].
    + now rewrite Hget, <- Hn.
    + exfalso. apply Hne. now rewrite Hn, <- Hget.
Qed.

Lemma In_namesOf id zones group name :
  In name (namesOf (rowsOf id zones) group) <->
  exists z, In z zones /\ city z = group /\ zone_name z = name.
Proof.
  unfold namesOf, rowsOf. rewrite in_map_iff. split.
  - intros [r [Hn Hr]]. apply filter_In in Hr. destruct Hr as [Hr Hc].
    apply in_map_iff in Hr. destruct Hr as [z [<- Hz]]. cbn in *.
    apply eqb_eq in Hc. eauto.
  - intros [z [Hz [Hc Hn]]]. exists {| restaurant_id := id; zone := z |}.
    split; [exact Hn|]. apply filter_In. split.
    + apply in_map_iff. eauto.
    + cbn. apply eqb_eq. exact Hc.
Qed.

(** The rows that the loop of deletes selects are the rows of the
    restaurant whose city and name are those of a zone of the batch. *)
Lemma targeted_inBatch id zones r :
  targeted id (JsMap.entries (zonesByCity (rowsOf id zones))) r = inBatch id zones r.
Proof.
  unfold targeted, inBatch.
  apply eq_true_iff_eq. rewrite existsb_exists, andb_true_iff, existsb_exists.
  split.
  - intros [[group zoneNames] [Hin Hsel]]. unfold selected in Hsel.
    apply andb_true_iff in Hsel. destruct Hsel as [Hsel Hname].
    apply andb_true_iff in Hsel. destruct Hsel as [Hid Hcity].
    split; [exact Hid|].
    apply zonesByCity_entries in Hin. destruct Hin as [-> _].
    apply existsb_exists in Hname. destruct Hname as [name [Hname Heq]].
    apply eqb_eq in Heq. apply eqb_eq in Hcity.
    apply In_namesOf in Hname. destruct Hname as [z [Hz [Hc Hn]]].
    exists z. split; [exact Hz|].
    apply andb_true_iff. split; apply eqb_eq; congruence.
  - intros [Hid [z [Hz Hm]]]. apply andb_true_iff in Hm. destruct Hm as [Hc Hn].
    apply eqb_eq in Hc. apply eqb_eq in Hn.
    exists (city z, namesOf (rowsOf id zones) (city z)).
    assert (Hname : In (zone_name z) (namesOf (rowsOf id zones) (city z)))
      by (apply In_namesOf; eauto).
    split.
    + apply zonesByCity_entries. split; [reflexivity|].
      intros Hnil. rewrite Hnil in Hname. exact Hname.
    + unfold selected. rewrite Hid. cbn [andb].
      apply andb_true_iff. split; [apply eqb_eq; symmetry; exact Hc|].
      apply existsb_exists. exists (zone_name z). split; [exact Hname|].
      apply eqb_eq. symmetry. exact Hn.
Qed.

(** *** The frame of the deletes and of the insert *)

Lemma filter_filter_keep (A : Type) (keep drop : A -> bool) l :
  (forall a, keep a = true -> drop a = false) ->
  filter keep (filter (fun a => negb (drop a)) l) = filter keep l.
Proof.
  intros H. induction l as [|a l IH]; cbn [filter]; [reflexivity|].
  destruct (keep a) eqn:Ek.
  - rewrite (H a Ek). cbn [negb filter]. rewrite Ek. now f_equal.
  - destruct (negb (drop a)); cbn [filter]; [rewrite Ek|]; exact IH.
Qed.

Lemma deleteZones_frame keep id group zoneNames s :
  (forall r, keep r = true -> selected id group zoneNames r = false) ->
  kept keep (snd (deleteZones id group zoneNames s)) = kept keep s.
Proof.
  intros H. unfold deleteZones, kept.
  destruct (nextAnswer s) as [[message|] rest]; cbn [snd delivery_zones];
    [reflexivity|].
  now apply filter_filter_keep.
Qed.

Lemma deleteGroups_frame keep id groups : forall s,
  (forall r, keep r = true -> targeted id groups r = false) ->
  kept keep (snd (deleteGroups id groups s)) = kept keep s.
Proof.
  induction groups as [|[group zoneNames] groups IH]; intros s H; [reflexivity|].
  cbn [deleteGroups].
  assert (H1 : forall r, keep r = true -> selected id group zoneNames r = false).
  { intros r Hr. specialize (H r Hr). cbn [targeted existsb] in H.
    apply orb_false_iff in H. tauto. }
  assert (H2 : forall r, keep r = true -> targeted id groups r = false).
  { intros r Hr. specialize (H r Hr). cbn [targeted existsb] in H.
    apply orb_false_iff in H. tauto. }
  pose proof (deleteZones_frame keep id group zoneNames s H1) as Hd.
  destruct (deleteZones id group zoneNames s) as [[message|] s'];
    cbn [snd] in *; [exact Hd|].
  now rewrite IH by exact H2.
Qed.

Lemma insertZones_frame keep rows s :
  forallb (fun r => negb (keep r)) rows = true ->
  kept keep (snd (insertZones rows s)) = kept keep s.
Proof.
  intros H. unfold insertZones, kept.
  destruct (nextAnswer s) as [[message|] rest]; cbn [snd delivery_zones];
    [reflexivity|].
  rewrite filter_app.
  assert (Hnil : filter keep rows = []).
  { induction rows as [|r rows IH]; [reflexivity|].
    cbn [forallb] in H. apply andb_true_iff in H. destruct H as [Hr Hs].
    apply negb_true_iff in Hr. cbn [filter]. rewrite Hr. now apply IH. }
  now rewrite Hnil, app_nil_r.
Qed.

Lemma rowsOf_inBatch id zones :
  forallb (fun r => negb (negb (inBatch id zones r))) (rowsOf id zones) = true.
Proof.
  apply forallb_forall. intros r Hr. rewrite negb_involutive.
  unfold rowsOf in Hr. apply in_map_iff in Hr. destruct Hr as [z [<- Hz]].
  unfold inBatch. cbn. rewrite eqb_refl. cbn [andb].
  apply existsb_exists. exists z. split; [exact Hz|]. now rewrite !eqb_refl.
Qed.

Lemma replaceZones_frame id zones s :
  kept (fun r => negb (inBatch id zones r)) (snd (replaceZones id zones s))
  = kept (fun r => negb (inBatch id zones r)) s.
Proof.
  unfold replaceZones.
  pose proof (deleteGroups_frame (fun r => negb (inBatch id zones r)) id
                (JsMap.entries (zonesByCity (rowsOf id zones))) s) as Hd.
  destruct (deleteGroups id (JsMap.entries (zonesByCity (rowsOf id zones))) s)
    as [[u|e] s']; cbn [snd] in *.
  - pose proof (insertZones_frame (fun r => negb (inBatch id zones r))
                  (rowsOf id zones) s' (rowsOf_inBatch id zones)) as Hi.
    destruct (insertZones (rowsOf id zones) s') as [[message|] s''];
      cbn [snd] in *; rewrite Hi; apply Hd;
      intros r Hr; rewrite targeted_inBatch; now apply negb_true_iff.
  - apply Hd. intros r Hr. rewrite targeted_inBatch. now apply negb_true_iff.
Qed.


(** When the store carries every statement out, the save removes the rows
    that the batch names and appends the batch. *)
Lemma filter_filter (A : Type) (f g : A -> bool) l :
  filter f (filter g l) = filter (fun a => g a && f a) l.
Proof.
  induction l as [|a l IH]; cbn [filter]; [reflexivity|].
  destruct (g a); cbn [filter andb]; [destruct (f a)|]; now rewrite IH.
Qed.

Lemma deleteGroups_carried_out id groups : forall table,
  deleteGroups id groups {| delivery_zones := table; answers := [] |}
  = (Normal tt,
     {| delivery_zones := filter (fun r => negb (targeted id groups r)) table;
        answers := [] |}).
Proof.
  induction groups as [|[group zoneNames] groups IH]; intros table.
  - cbn. f_equal. f_equal. induction table as [|r table IHt]; cbn; congruence.
  - cbn [deleteGroups]. unfold deleteZones, nextAnswer. cbn [answers delivery_zones].
    rewrite IH. f_equal. f_equal. rewrite filter_filter.
    apply filter_ext. intros r. cbn [targeted existsb].
    now rewrite negb_orb.
Qed.

Lemma save_carried_out id zones table :
  replaceZones id zones {| delivery_zones := table; answers := [] |}
  = (Normal (N.of_nat (List.length zones)),
     {| delivery_zones :=
          filter (fun r => negb (inBatch id zones r)) table ++ rowsOf id zones;
        answers := [] |}).
Proof.
  unfold replaceZones. rewrite deleteGroups_carried_out.
  unfold insertZones, nextAnswer. cbn [answers delivery_zones].
  f_equal; [unfold rowsOf; now rewrite length_map|].
  f_equal. f_equal. apply filter_ext. intros r. now rewrite targeted_inBatch.
Qed.

(** *** C9: what a save leaves alone *)

(** C9.  A delete statement of the protocol removes nothing but rows of the
    restaurant, of the city of its group, whose name is in the name list of
    that group, and that list holds the names of the zones of that city in
    the batch.  Whatever the store answers, and whether the save succeeds
    or fails, the rows of the table that are not rows of the restaurant
    with the city and the name of a zone of the batch are the same after
    the save as before, in the same order: a zone of another restaurant, of
    a city that the batch does not name, or of a name that the batch does
    not list for its city, is still there. *)
Theorem zones_outside_batch_untouched access id body s :
  (forall group zoneNames s0 r,
     In r (delivery_zones s0) ->
     selected id group zoneNames r = false ->
     In r (delivery_zones (snd (deleteZones id group zoneNames s0))))
  /\ (forall zones group zoneNames,
        In (group, zoneNames) (groupsOf id zones) ->
        forall name, In name zoneNames <->
                     exists z, In z zones /\ city z = group /\ zone_name z = name)
  /\ (forall zones,
        normalizeBody body = Normal zones ->
        kept (fun r => negb (inBatch id zones r)) (snd (POST access id body s))
        = kept (fun r => negb (inBatch id zones r)) s
        /\ forall r,
             In r (delivery_zones s) ->
             (restaurant_id r <> id
              \/ forall z, In z zones -> city z = city (zone r) ->
                           zone_name z <> zone_name (zone r)) ->
             In r (delivery_zones (snd (POST access id body s))))
  /\ (forall e, normalizeBody body = Throw e -> snd (POST access id body s) = s).
Proof.
  split; [|split; [|split]].
  - intros group zoneNames s0 r Hr Hsel. unfold deleteZones.
    destruct (nextAnswer s0) as [[message|] rest]; cbn [snd delivery_zones];
      [exact Hr|].
    apply filter_In. split; [exact Hr | now rewrite Hsel].
  - intros zones group zoneNames Hin name. unfold groupsOf in Hin.
    apply zonesByCity_entries in Hin. destruct Hin as [-> _].
    apply In_namesOf.
  - intros zones Hz.
    assert (Hkept : kept (fun r => negb (inBatch id zones r)) (snd (POST access id body s))
                    = kept (fun r => negb (inBatch id zones r)) s).
    { unfold POST. destruct access as [u|e]; [|reflexivity]. rewrite Hz.
      destruct (NormalizedZonesSchema zones); [|reflexivity].
      pose proof (replaceZones_frame id zones s) as Hf.
      now destruct (replaceZones id zones s) as [[count|e] s']. }
    split; [exact Hkept|]. intros r Hr Hout.
    assert (Hnot : negb (inBatch id zones r) = true).
    { apply negb_true_iff. unfold inBatch.
      destruct (eqb (restaurant_id r) id) eqn:Eid; [|reflexivity]. cbn [andb].
      destruct Hout as [Hout|Hout]; [apply eqb_eq in Eid; contradiction|].
      apply not_true_is_false. intros He. apply existsb_exists in He.
      destruct He as [z [Hzin Hm]]. apply andb_true_iff in Hm.
      destruct Hm as [Hc Hn]. apply eqb_eq in Hc. apply eqb_eq in Hn.
      exact (Hout z Hzin Hc Hn). }
    assert (Hin : In r (kept (fun r => negb (inBatch id zones r)) s))
      by (apply filter_In; auto).
    rewrite <- Hkept in Hin. apply filter_In in Hin. tauto.
  - intros e He. unfold POST. destruct access; [|reflexivity]. now rewrite He.
Qed.

Lemma zones_outside_batch_untouched_witness :
  let table := rowsOf (str "r1") [zoneOf "Karachi" "Gulshan" 100;
                                  zoneOf "Karachi" "Clifton" 150;
                                  zoneOf "Islamabad" "F-6" 200]
               ++ rowsOf (str "r2") [zoneOf "Karachi" "DHA" 90] in
  let body := bodyOf [zoneValue "Karachi" "Gulshan" 120; zoneValue "Karachi" "DHA" 300] in
  let s := {| delivery_zones := table; answers := [None; Some (str "timeout")] |} in
  let after := delivery_zones (snd (POST (Normal tt) (str "r1") body s)) in
  In {| restaurant_id := str "r1"; zone := zoneOf "Islamabad" "F-6" 200 |} after
  /\ In {| restaurant_id := str "r1"; zone := zoneOf "Karachi" "Clifton" 150 |} after
  /\ In {| restaurant_id := str "r2"; zone := zoneOf "Karachi" "DHA" 90 |} after.
Proof.
  intros table body s after.
  destruct (zones_outside_batch_untouched (Normal tt) (str "r1") body s)
    as [_ [_ [H _]]].
  destruct (H _ eq_refl) as [_ Hin].
  repeat split; apply Hin; cbn; auto 6;
    try (left; discriminate);
    right; intros z [<-|[<-|[]]] Hc; cbn in *; discriminate.
Defined.

(** *** C10: what a failure reports *)

Lemma deleteGroups_failed id groups : forall s group message,
  failedGroup groups (answers s) = Some (group, message) ->
  fst (deleteGroups id groups s) = Throw (Error message).
Proof.
  induction groups as [|[g names] groups IH]; intros s group message H;
    [discriminate|].
  cbn [deleteGroups]. unfold deleteZones, nextAnswer.
  cbn [failedGroup] in H.
  destruct (answers s) as [|[m|] more] eqn:Ea; [discriminate| |].
  - inversion H; subst. reflexivity.
  - apply IH with (group := group). exact H.
Qed.

(** C10, as amended.  When a delete statement of the per-city loop fails,
    the caller receives status 500 with the error message of the store for
    that statement, unchanged, and nothing else: the response does not say
    which city group failed. *)
Theorem failure_carries_store_message id zones s group message :
  failedGroup (groupsOf id zones) (answers s) = Some (group, message) ->
  fst (replaceZones id zones s) = Throw (Error message)
  /\ (forall body,
        normalizeBody body = Normal zones ->
        NormalizedZonesSchema zones = true ->
        fst (POST (Normal tt) id body s) = Failure 500 (Message message)).
Proof.
  intros H.
  assert (Hr : fst (replaceZones id zones s) = Throw (Error message)).
  { unfold replaceZones. fold (groupsOf id zones).
    pose proof (deleteGroups_failed id (groupsOf id zones) s H) as Hd.
    destruct (deleteGroups id (groupsOf id zones) s) as [[u|e] s'];
      cbn [fst] in *; [discriminate | inversion Hd; reflexivity]. }
  split; [exact Hr|]. intros body Hb Hs. unfold POST. rewrite Hb, Hs.
  destruct (replaceZones id zones s) as [[count|e] s']; cbn [fst] in *;
    [discriminate|]. inversion Hr; subst. reflexivity.
Qed.

Lemma failure_carries_store_message_witness :
  let zones := [zoneOf "Karachi" "Gulshan" 120; zoneOf "Islamabad" "F-6" 250] in
  let s := {| delivery_zones := []; answers := [None; Some (str "timeout")] |} in
  fst (replaceZones (str "r1") zones s) = Throw (Error (str "timeout")).
Proof.
  intros zones s.
  apply (@failure_carries_store_message (str "r1") zones s (str "Islamabad")
           (str "timeout") eq_refl).
Defined.

(** C10 as stated fails: the same request fails once in the group of
    Karachi and once in the group of Islamabad, and the caller receives the
    same response both times, which names neither city. *)
Lemma failed_city_not_reported :
  let body := bodyOf [zoneValue "Karachi" "Gulshan" 120;
                      zoneValue "Islamabad" "F-6" 250] in
  let zones := [zoneOf "Karachi" "Gulshan" 120; zoneOf "Islamabad" "F-6" 250] in
  let table := rowsOf (str "r1") [zoneOf "Karachi" "Gulshan" 100;
                                  zoneOf "Islamabad" "F-6" 200] in
  let first := {| delivery_zones := table; answers := [Some (str "boom")] |} in
  let second := {| delivery_zones := table; answers := [None; Some (str "boom")] |} in
  normalizeBody body = Normal zones
  /\ failedGroup (groupsOf (str "r1") zones) (answers first)
     = Some (str "Karachi", str "boom")
  /\ failedGroup (groupsOf (str "r1") zones) (answers second)
     = Some (str "Islamabad", str "boom")
  /\ fst (POST (Normal tt) (str "r1") body first) = Failure 500 (Message (str "boom"))
  /\ fst (POST (Normal tt) (str "r1") body second)
     = fst (POST (Normal tt) (str "r1") body first).
Proof. intros body zones table first second. repeat split. Qed.

End ZoneFacts.

(** ** Further properties of the menu editor *)

Module EditorFacts.
Import JsString JsNumber JsValue Menu Route MenuRoute MenuEditor.
Import StringFacts MapFacts MenuFacts.

Lemma existsb_eqb_In (k : jsstring) l : existsb (eqb k) l = true <-> In k l.
Proof.
  rewrite existsb_exists. split.
  - intros [x [Hx He]]. apply eqb_eq in He. now subst.
  - intros H. exists k. split; [exact H | apply eqb_refl].
Qed.

Lemma existsb_eqb_has (V : Type) (m : JsMap.t V) k :
  existsb (eqb k) (JsMap.keys m) = JsMap.has m k.
Proof.
  apply eq_true_iff_eq. rewrite existsb_eqb_In. symmetry. apply has_keys.
Qed.

(** *** The groups that [rowsToCategories] makes *)

Lemma groupRow_keys m row :
  JsMap.keys (groupRow m row)
  = if validRow row
    then (if existsb (eqb (categoryOf row)) (JsMap.keys m)
          then JsMap.keys m else JsMap.keys m ++ [categoryOf row])
    else JsMap.keys m.
Proof.
  unfold groupRow. fold (categoryOf row). destruct (validRow row); [|reflexivity].
  now rewrite keys_set, existsb_eqb_has.
Qed.

Lemma grouped_keys rows : forall m,
  JsMap.keys (fold_left groupRow rows m)
  = fold_left (fun seen k => if existsb (eqb k) seen then seen else seen ++ [k])
              (List.map categoryOf (filter validRow rows)) (JsMap.keys m).
Proof.
  induction rows as [|r rows IH]; intros m; [reflexivity|].
  cbn [fold_left filter]. rewrite IH, groupRow_keys.
  destruct (validRow r); reflexivity.
Qed.

Lemma itemsOf_valid rows c it :
  In it (itemsOf rows c) ->
  exists r, In r rows /\ validRow r = true /\ categoryOf r = c /\ it = rowEntry r.
Proof.
  unfold itemsOf. intros H. apply in_map_iff in H. destruct H as [r [<- Hr]].
  apply filter_In in Hr. destruct Hr as [Hr Hv].
  apply andb_true_iff in Hv. destruct Hv as [Hv Hc]. apply eqb_eq in Hc.
  exists r. auto.
Qed.

(** The groups come in the order in which their categories are first seen
    among the valid rows, and each holds the items of the valid rows of its
    category in row order. *)
Theorem groups_in_first_seen_order rows :
  List.map cat_name (rowsToCategories rows)
  = firstSeen (List.map categoryOf (filter validRow rows))
  /\ List.map cat_items (rowsToCategories rows)
     = List.map (itemsOf rows) (firstSeen (List.map categoryOf (filter validRow rows))).
Proof.
  assert (Hn : List.map cat_name (rowsToCategories rows)
               = firstSeen (List.map categoryOf (filter validRow rows))).
  { rewrite rowsToCategories_names. unfold firstSeen. now rewrite grouped_keys. }
  split; [exact Hn|]. rewrite <- Hn, map_map. apply map_ext_in.
  intros g Hg. apply rowsToCategories_In in Hg. tauto.
Qed.

(** No group is empty, no two groups have the same name, every name is a
    category in normal form, every item has a trimmed name that is not
    blank and a finite price, and the groups hold as many items as there
    are valid rows. *)
Theorem groups_well_formed rows :
  NoDup (List.map cat_name (rowsToCategories rows))
  /\ (forall g, In g (rowsToCategories rows) ->
        cat_items g <> []
        /\ nonEmpty (cat_name g) = true
        /\ normalizeCategory (cat_name g) = cat_name g
        /\ forall it, In it (cat_items g) ->
             nonEmpty (item_name it) = true
             /\ trim (item_name it) = item_name it
             /\ isFinite (item_price it) = true)
  /\ List.length (flat_map cat_items (rowsToCategories rows))
     = List.length (filter validRow rows).
Proof.
  split; [apply rowsToCategories_NoDup|]. split.
  - intros g Hg. apply rowsToCategories_In in Hg. destruct Hg as [Hi Hne].
    assert (Hitems : forall it, In it (cat_items g) ->
              exists r, validRow r = true /\ categoryOf r = cat_name g
                        /\ it = rowEntry r).
    { intros it Hit. rewrite Hi in Hit.
      destruct (itemsOf_valid _ _ _ Hit) as [r [_ H]]. eauto. }
    split; [exact Hne|].
    assert (Hname : exists r, categoryOf r = cat_name g).
    { destruct (cat_items g) as [|it its]; [congruence|].
      destruct (Hitems it (or_introl eq_refl)) as [r [_ [Hc _]]]. eauto. }
    destruct Hname as [r0 Hr0]. rewrite <- Hr0. unfold categoryOf.
    split; [apply normalizeCategory_nonEmpty|].
    split; [apply normalizeCategory_idem|].
    intros it Hit. destruct (Hitems it Hit) as [r [Hv [_ ->]]].
    unfold validRow in Hv. apply andb_true_iff in Hv. destruct Hv as [Hn Hp].
    cbn [rowEntry item_name item_price]. rewrite trim_idem. auto.
  - rewrite items_of_categories.
    rewrite (Permutation_length (grouped_Permutation rows [])).
    cbn [flat_map app]. apply length_map.
Qed.


(** *** Rows that the editor has written *)

Lemma eqb_true (a b : jsstring) : eqb a b = true -> a = b.
Proof. apply eqb_eq. Qed.

Lemma normalizedRow_assigned counters row :
  normalizedRow (snd (ensureRowId counters row)) = true.
Proof.
  destruct (assignedId_trimmed counters row) as [id [Hid [Ht Hn]]].
  unfold normalizedRow. rewrite Hid, Hn, Ht, eqb_refl.
  unfold ensureRowId.
  cbn [snd row_category row_name row_description].
  rewrite normalizeCategory_idem, trim_idem, !eqb_refl. cbn [andb].
  unfold trimDescription. destruct (row_description row) as [d|]; [|reflexivity].
  destruct (nonEmpty (trim d)) eqn:E; [|reflexivity].
  now rewrite E, trim_idem, eqb_refl.
Qed.

Lemma normalizedRow_fixed counters row :
  normalizedRow row = true -> snd (ensureRowId counters row) = row.
Proof.
  unfold normalizedRow. intros H.
  repeat (apply andb_true_iff in H; destruct H as [H ?]).
  destruct row as [i c n p d]. cbn [row_id row_category row_name row_description] in *.
  destruct i as [i|]; [|discriminate].
  apply andb_true_iff in H. destruct H as [Hne Hi].
  apply eqb_true in Hi. apply eqb_true in H2. apply eqb_true in H1.
  unfold ensureRowId, explicitId.
  cbn [snd row_id row_category row_name row_price row_description].
  rewrite Hi, Hne, H2, H1. f_equal.
  destruct d as [d|]; [|reflexivity]. cbn [trimDescription].
  apply andb_true_iff in H0. destruct H0 as [Hd Ht]. apply eqb_true in Ht.
  now rewrite Ht, Hd.
Qed.

Lemma ensureRowIdsFrom_assigned rows : forall counters,
  forallb normalizedRow (ensureRowIdsFrom counters rows) = true.
Proof.
  induction rows as [|r rows IH]; intros counters; [reflexivity|].
  rewrite ensureRowIdsFrom_cons. cbn [forallb].
  now rewrite normalizedRow_assigned, IH.
Qed.

Lemma ensureRowIdsFrom_fixed rows : forall counters,
  forallb normalizedRow rows = true -> ensureRowIdsFrom counters rows = rows.
Proof.
  induction rows as [|r rows IH]; intros counters H; [reflexivity|].
  cbn [forallb] in H. apply andb_true_iff in H. destruct H as [Hr Hs].
  rewrite ensureRowIdsFrom_cons. rewrite normalizedRow_fixed by exact Hr.
  now rewrite IH by exact Hs.
Qed.

Lemma ensureRowIdsFrom_app l1 : forall counters l2,
  ensureRowIdsFrom counters (l1 ++ l2)
  = ensureRowIdsFrom counters l1
    ++ ensureRowIdsFrom (countersAfter counters l1) l2.
Proof.
  induction l1 as [|r l1 IH]; intros counters l2; [reflexivity|].
  cbn [app]. rewrite !ensureRowIdsFrom_cons, IH. reflexivity.
Qed.

Lemma removeAt_forallb (A : Type) (f : A -> bool) l : forall idx,
  forallb f l = true -> forallb f (removeAt idx l) = true.
Proof.
  induction l as [|a l IH]; intros idx H; [now destruct idx|].
  cbn [forallb] in H. apply andb_true_iff in H. destruct H as [Ha Hl].
  destruct idx as [|idx]; cbn [removeAt forallb]; [exact Hl|].
  now rewrite Ha, IH.
Qed.

(** Rows that [ensureRowIds] has written, in whatever selection and order,
    go through [ensureRowIds] unchanged: neither an identifier nor anything
    else is rewritten. *)
Theorem written_rows_are_fixed rows :
  forallb normalizedRow rows = true -> ensureRowIds rows = rows.
Proof. apply ensureRowIdsFrom_fixed. Qed.

Lemma written_rows_are_fixed_witness :
  let rows := [ {| row_id := Some (str "burgers-zinger-2");
                   row_category := str "Burgers"; row_name := str "Zinger";
                   row_price := ofN 500; row_description := Some (str "hot") |};
                {| row_id := Some (str "x 1");
                   row_category := str "Hot Drinks"; row_name := str "Chai";
                   row_price := ofN 90; row_description := None |} ] in
  ensureRowIds rows = rows.
Proof. intros rows. apply (@written_rows_are_fixed rows). reflexivity. Defined.

(** Every row that [ensureRowIds] returns is in that form, so removing a
    row in the editor leaves the other rows, identifiers included, as they
    are: no row is renumbered. *)
Theorem removing_a_row_keeps_the_others updated idx :
  forallb normalizedRow (ensureRowIds updated) = true
  /\ menuRows (removeMenuRow (syncCategoriesFromRows updated) idx)
     = removeAt idx (ensureRowIds updated)
  /\ menuCategories (removeMenuRow (syncCategoriesFromRows updated) idx)
     = rowsToCategories (removeAt idx (ensureRowIds updated)).
Proof.
  assert (H : forallb normalizedRow (ensureRowIds updated) = true)
    by apply ensureRowIdsFrom_assigned.
  assert (Hfix : ensureRowIds (removeAt idx (ensureRowIds updated))
                 = removeAt idx (ensureRowIds updated)).
  { apply ensureRowIdsFrom_fixed. now apply removeAt_forallb. }
  split; [exact H|].
  unfold removeMenuRow, syncCategoriesFromRows. cbn [menuRows menuCategories].
  now rewrite Hfix.
Qed.

(** *** Adding an item *)

(** When the form has a name that is not blank and a price text that is
    not blank and reads as a finite number, [addMenuItem] passes the rows
    of the editor through [ensureRowIds] and appends one row: the
    normalised category of the form, its trimmed name, the number read, and
    the identifier made of the two slugs and of one more than the number of
    rows already in that category; the form is emptied.  The rows of the
    editor stay as they are when [ensureRowIds] has written them; rows that
    come from a load are rewritten like by any other edit.  Otherwise the
    menu and the form stay as they are and the errors are shown. *)
Theorem adding_an_item_appends_a_row (e : editor) :
  let form := ed_form e in
  let rows := menuRows (ed_menu e) in
  let category := normalizeCategory (form_category form) in
  let name := trim (form_item_name form) in
  let price := StringToNumber (form_price form) in
  let n := N.succ (N.of_nat (List.length
             (filter (fun r => eqb (categoryOf r) category) rows))) in
  let added := {| row_id := Some (synthesizedId category name n);
                  row_category := category;
                  row_name := name;
                  row_price := price;
                  row_description := None |} in
  if nonEmpty name && nonEmpty (trim (form_price form)) && isFinite price
  then menuRows (ed_menu (addMenuItem e)) = ensureRowIds rows ++ [added]
       /\ menuCategories (ed_menu (addMenuItem e))
          = rowsToCategories (ensureRowIds rows ++ [added])
       /\ (forallb normalizedRow rows = true ->
           menuRows (ed_menu (addMenuItem e)) = rows ++ [added])
       /\ ed_form (addMenuItem e) = emptyForm
       /\ ed_errors (addMenuItem e) = noErrors
  else ed_menu (addMenuItem e) = ed_menu e
       /\ ed_form (addMenuItem e) = ed_form e
       /\ ed_errors (addMenuItem e) = formErrors (ed_form e)
       /\ ed_errors (addMenuItem e) <> noErrors.
Proof.
  intros form rows category name price n added.
  unfold addMenuItem, formErrors. cbn [err_item_name err_price].
  fold form. fold name. fold price.
  destruct (nonEmpty name) eqn:En; cbn [andb].
  - destruct (nonEmpty (trim (form_price form)) && isFinite price) eqn:Ep.
    + cbn [ed_menu ed_form ed_errors].
      assert (Hrows : ensureRowIds (menuRows (ed_menu e) ++ [newRow (ed_form e)])
                      = ensureRowIds rows ++ [added]).
      { unfold ensureRowIds. fold rows. rewrite ensureRowIdsFrom_app. f_equal.
        cbn [ensureRowIdsFrom]. unfold ensureRowId, newRow, explicitId.
        cbn [row_id row_category row_name row_price row_description nonEmpty trim
             trimDescription].
        fold form. fold category. fold name. fold price.
        change (match JsMap.get ?m ?c with Some k => k | None => 0%N end)
          with (counterOf m c).
        assert (Hcat : normalizeCategory category = category)
          by apply normalizeCategory_idem.
        assert (Hname : trim name = name) by apply trim_idem.
        assert (Hblank : nonEmpty (trim []) = false) by reflexivity.
        rewrite Hcat, Hname, Hblank. rewrite counterOf_after.
        unfold counterOf at 1. cbn [JsMap.get].
        replace (0 + N.of_nat (List.length
                   (filter (fun r => eqb (categoryOf r) category) rows)) + 1)%N
          with n by (unfold n; lia).
        reflexivity. }
      unfold syncCategoriesFromRows. cbn [menuRows menuCategories].
      change (ed_form e) with form in Hrows. rewrite Hrows.
      split; [reflexivity|]. split; [reflexivity|].
      split; [|split; reflexivity].
      intros Hn. unfold ensureRowIds. now rewrite ensureRowIdsFrom_fixed by exact Hn.
    + cbn [ed_menu ed_form ed_errors]. repeat split. discriminate.
  - cbn [ed_menu ed_form ed_errors]. repeat split. discriminate.
Qed.

Lemma adding_an_item_appends_a_row_witness :
  let loaded := {| row_id := Some (str " t1 "); row_category := str "Drinks";
                   row_name := str "Tea"; row_price := ofN 90;
                   row_description := None |} in
  let e := {| ed_menu := {| menuCategories := []; menuRows := [loaded] |};
              ed_form := {| form_category := str "  Drinks ";
                            form_item_name := str " Green  tea ";
                            form_price := str "120" |};
              ed_errors := noErrors |} in
  List.map row_id (menuRows (ed_menu (addMenuItem e)))
  = [Some (str "t1"); Some (str "drinks-green-tea-2")]
  /\ ed_form (addMenuItem e) = emptyForm.
Proof.
  intros loaded e.
  pose proof (adding_an_item_appends_a_row e) as H. cbv zeta in H.
  assert (Hc : nonEmpty (trim (form_item_name (ed_form e)))
               && nonEmpty (trim (form_price (ed_form e)))
               && isFinite (StringToNumber (form_price (ed_form e))) = true)
    by (vm_compute; reflexivity).
  rewrite Hc in H. destruct H as [H [_ [_ [Hf _]]]].
  split; [|exact Hf]. rewrite H. vm_compute. reflexivity.
Defined.


(** *** From groups to rows and back *)

Lemma get_fresh (V : Type) (m : JsMap.t V) k :
  ~ In k (JsMap.keys m) -> JsMap.get m k = None.
Proof.
  intros H. destruct (JsMap.get m k) as [v|] eqn:E; [|reflexivity].
  exfalso. apply H. apply has_keys. unfold JsMap.has. now rewrite E.
Qed.

Lemma set_fresh (V : Type) (m : JsMap.t V) k v :
  ~ In k (JsMap.keys m) -> JsMap.set m k v = m ++ [(k, v)].
Proof.
  induction m as [|[k' v'] m IH]; intros H; [reflexivity|].
  cbn [JsMap.set app]. cbn [JsMap.keys List.map fst] in H.
  destruct (eqb k' k) eqn:E.
  - apply eqb_eq in E. exfalso. apply H. now left.
  - f_equal. apply IH. intros Hin. apply H. now right.
Qed.

Lemma get_last (V : Type) (m : JsMap.t V) k v :
  ~ In k (JsMap.keys m) -> JsMap.get (m ++ [(k, v)]) k = Some v.
Proof. intros H. rewrite <- set_fresh by exact H. apply get_set_same. Qed.

Lemma set_last (V : Type) (m : JsMap.t V) k v v' :
  ~ In k (JsMap.keys m) -> JsMap.set (m ++ [(k, v)]) k v' = m ++ [(k, v')].
Proof.
  induction m as [|[k' w] m IH]; intros H.
  - cbn. now rewrite eqb_refl.
  - cbn [JsMap.set app]. cbn [JsMap.keys List.map fst] in H.
    destruct (eqb k' k) eqn:E.
    + apply eqb_eq in E. exfalso. apply H. now left.
    + f_equal. apply IH. intros Hin. apply H. now right.
Qed.

Lemma distinct_NoDup l : distinct l = true <-> NoDup l.
Proof.
  induction l as [|a l IH]; cbn [distinct]; [split; [constructor|reflexivity]|].
  rewrite andb_true_iff, negb_true_iff, IH. split.
  - intros [Ha Hl]. constructor; [|exact Hl].
    intros Hin. apply existsb_eqb_In in Hin. congruence.
  - intros H. inversion H as [|x xs Hn Hd]; subst. split; [|exact Hd].
    destruct (existsb (eqb a) l) eqn:E; [|reflexivity].
    apply existsb_eqb_In in E. contradiction.
Qed.

(** The row that [categoriesToRows] writes for an item of a group. *)
Lemma categoriesToRows_cons c cats :
  categoriesToRows (c :: cats)
  = List.map
      (fun it =>
         {| row_id := Some (match item_id it with Some i => i | None => [] end);
            row_category := orElse (cat_name c) Uncategorized;
            row_name := item_name it;
            row_price := item_price it;
            row_description := trimDescription (item_description it) |})
      (cat_items c)
    ++ categoriesToRows cats.
Proof. reflexivity. Qed.

Lemma normalized_description d :
  match d with Some s => nonEmpty s && eqb (trim s) s | None => true end = true ->
  trimDescription d = d.
Proof.
  destruct d as [s|]; [|reflexivity]. intros H.
  apply andb_true_iff in H. destruct H as [Hn Ht]. apply eqb_true in Ht.
  cbn [trimDescription]. now rewrite Ht, Hn.
Qed.

Lemma normalized_name_kept name :
  normalizeCategory name = name -> orElse name Uncategorized = name.
Proof.
  intros H. destruct (orElse_cases name Uncategorized) as [[_ E]|[E _]]; [exact E|].
  pose proof (normalizeCategory_nonEmpty name) as Hn. rewrite H, E in Hn.
  discriminate.
Qed.

Lemma groupRow_item name it :
  normalizeCategory name = name -> normalizedItem it = true ->
  let row := {| row_id := Some (match item_id it with Some i => i | None => [] end);
                row_category := orElse name Uncategorized;
                row_name := item_name it;
                row_price := item_price it;
                row_description := trimDescription (item_description it) |} in
  validRow row = true /\ categoryOf row = name /\ rowEntry row = it.
Proof.
  intros Hname H row. unfold normalizedItem in H.
  repeat (apply andb_true_iff in H; destruct H as [H ?]).
  apply eqb_true in H2.
  unfold validRow, categoryOf, rowEntry, row.
  cbn [row_id row_category row_name row_price row_description].
  rewrite (normalized_name_kept Hname), Hname, H2, H3, H1.
  rewrite (normalized_description _ H0), (normalized_description _ H0).
  split; [reflexivity|]. split; [reflexivity|].
  destruct it as [[i|] n p d]; [reflexivity|discriminate].
Qed.

Lemma grouped_items name items : forall m pre,
  normalizeCategory name = name -> forallb normalizedItem items = true ->
  ~ In name (JsMap.keys m) ->
  fold_left groupRow
    (List.map
       (fun it =>
          {| row_id := Some (match item_id it with Some i => i | None => [] end);
             row_category := orElse name Uncategorized;
             row_name := item_name it;
             row_price := item_price it;
             row_description := trimDescription (item_description it) |})
       items)
    (m ++ [(name, pre)])
  = m ++ [(name, pre ++ items)].
Proof.
  induction items as [|it items IH]; intros m pre Hname Hitems Hfresh.
  - now rewrite app_nil_r.
  - cbn [forallb] in Hitems. apply andb_true_iff in Hitems.
    destruct Hitems as [Hit Hitems].
    cbn [List.map fold_left].
    destruct (@groupRow_item name it Hname Hit) as [Hv [Hc He]].
    unfold groupRow at 2. unfold categoryOf in Hc. rewrite Hc, Hv, He.
    rewrite get_last by exact Hfresh. rewrite set_last by exact Hfresh.
    rewrite IH by assumption. now rewrite <- app_assoc.
Qed.

Lemma grouped_group name items m :
  normalizeCategory name = name -> forallb normalizedItem items = true ->
  items <> [] -> ~ In name (JsMap.keys m) ->
  fold_left groupRow
    (List.map
       (fun it =>
          {| row_id := Some (match item_id it with Some i => i | None => [] end);
             row_category := orElse name Uncategorized;
             row_name := item_name it;
             row_price := item_price it;
             row_description := trimDescription (item_description it) |})
       items)
    m
  = m ++ [(name, items)].
Proof.
  intros Hname Hitems Hne Hfresh.
  destruct items as [|it items]; [congruence|].
  cbn [forallb] in Hitems. apply andb_true_iff in Hitems.
  destruct Hitems as [Hit Hitems].
  cbn [List.map fold_left].
  destruct (@groupRow_item name it Hname Hit) as [Hv [Hc He]].
  unfold groupRow at 2. unfold categoryOf in Hc. rewrite Hc, Hv, He.
  rewrite get_fresh by exact Hfresh. rewrite set_fresh by exact Hfresh.
  cbn [app]. now rewrite grouped_items by assumption.
Qed.

Lemma grouped_groups cats : forall m,
  forallb normalizedGroup cats = true ->
  NoDup (JsMap.keys m ++ List.map cat_name cats) ->
  fold_left groupRow (categoriesToRows cats) m
  = m ++ List.map (fun c => (cat_name c, cat_items c)) cats.
Proof.
  induction cats as [|c cats IH]; intros m Hg Hnd.
  - cbn. now rewrite app_nil_r.
  - cbn [forallb] in Hg. apply andb_true_iff in Hg. destruct Hg as [Hc Hg].
    unfold normalizedGroup in Hc.
    repeat (apply andb_true_iff in Hc; destruct Hc as [Hc ?]).
    apply eqb_true in Hc.
    assert (Hne : cat_items c <> []) by (destruct (cat_items c); [discriminate|congruence]).
    assert (Hfresh : ~ In (cat_name c) (JsMap.keys m)).
    { intros Hin. cbn [List.map] in Hnd. apply NoDup_remove_2 in Hnd.
      apply Hnd. apply in_or_app. now left. }
    rewrite categoriesToRows_cons, fold_left_app.
    rewrite grouped_group by assumption.
    rewrite IH.
    + cbn [List.map]. now rewrite <- app_assoc.
    + exact Hg.
    + unfold JsMap.keys. rewrite map_app. cbn [List.map fst].
      rewrite <- app_assoc. exact Hnd.
Qed.

(** Groups as [rowsToCategories] writes them, with pairwise different
    names, come back from their rows as they are: the same groups in the
    same order, each with the same items in the same order. *)
Theorem groups_come_back_from_rows cats :
  distinct (List.map cat_name cats) = true ->
  forallb normalizedGroup cats = true ->
  rowsToCategories (categoriesToRows cats) = cats.
Proof.
  intros Hd Hg. apply distinct_NoDup in Hd.
  unfold rowsToCategories, JsMap.entries.
  rewrite grouped_groups by assumption.
  cbn [app]. rewrite map_map.
  rewrite <- (map_id cats) at 2. apply map_ext. now intros [n its].
Qed.

Lemma groups_come_back_from_rows_witness :
  let tea := {| item_id := Some (str "drinks-tea-1"); item_name := str "Tea";
                item_price := ofN 90; item_description := Some (str "hot") |} in
  let naan := {| item_id := Some (str "n 1"); item_name := str "Naan";
                 item_price := ofN 40; item_description := None |} in
  let cats := [ {| cat_name := str "Drinks"; cat_items := [tea] |};
                {| cat_name := str "Tandoor"; cat_items := [naan; tea] |} ] in
  rowsToCategories (categoriesToRows cats) = cats.
Proof.
  intros tea naan cats.
  apply (@groups_come_back_from_rows cats); reflexivity.
Defined.


(** *** From rows to groups and back *)

Lemma rowsToCategories_by_key rows :
  rowsToCategories rows
  = List.map (fun c => {| cat_name := c; cat_items := itemsOf rows c |})
      (firstSeen (List.map categoryOf (filter validRow rows))).
Proof.
  unfold firstSeen.
  change [] with (JsMap.keys (@nil (jsstring * list MenuItem))).
  rewrite <- grouped_keys, <- rowsToCategories_names, map_map.
  rewrite <- (map_id (rowsToCategories rows)) at 1.
  apply map_ext_in. intros g Hg. apply rowsToCategories_In in Hg.
  destruct Hg as [Hi _]. destruct g as [n its]. cbn in *. now rewrite Hi.
Qed.

Lemma firstSeen_incl keys : forall seen k,
  In k (fold_left (fun seen k => if existsb (eqb k) seen then seen else seen ++ [k])
                  keys seen) ->
  In k seen \/ In k keys.
Proof.
  induction keys as [|a keys IH]; intros seen k H; [now left|].
  cbn [fold_left] in H. apply IH in H. destruct H as [H|H]; [|right; now right].
  destruct (existsb (eqb a) seen); [now left|].
  apply in_app_or in H. destruct H as [H|[H|[]]]; [now left|].
  right. now left.
Qed.

Lemma normalizedRow_parts r :
  normalizedRow r = true ->
  (exists i, row_id r = Some i)
  /\ normalizeCategory (row_category r) = row_category r
  /\ trim (row_name r) = row_name r
  /\ trimDescription (row_description r) = row_description r.
Proof.
  unfold normalizedRow. intros H.
  repeat (apply andb_true_iff in H; destruct H as [H ?]).
  apply eqb_true in H1. apply eqb_true in H2.
  split; [destruct (row_id r) as [i|]; [now exists i | discriminate]|].
  split; [exact H2|]. split; [exact H1|]. now apply normalized_description.
Qed.

(** The rows of an editor that are all valid come back from their groups
    regrouped: the categories in the order in which they are first seen,
    and under each its rows in their order, every row as it was, its
    identifier included. *)
Theorem rows_come_back_regrouped rows :
  forallb normalizedRow rows = true -> forallb validRow rows = true ->
  categoriesToRows (rowsToCategories rows)
  = flat_map (rowsIn rows) (firstSeen (List.map row_category rows)).
Proof.
  intros Hn Hv.
  assert (Hcat : forall r, In r rows -> categoryOf r = row_category r).
  { intros r Hr. rewrite forallb_forall in Hn.
    destruct (normalizedRow_parts _ (Hn r Hr)) as [_ [H _]]. exact H. }
  rewrite rowsToCategories_by_key, (filter_all _ _ Hv).
  rewrite (map_ext_in _ _ _ Hcat).
  unfold categoriesToRows. rewrite !flat_map_concat_map, map_map. f_equal.
  apply map_ext_in. intros c Hc. cbn [cat_name cat_items].
  apply firstSeen_incl in Hc. destruct Hc as [[]|Hc].
  apply in_map_iff in Hc. destruct Hc as [r0 [Hr0 Hin0]].
  assert (Hname : orElse c Uncategorized = c).
  { apply normalized_name_kept. rewrite <- Hr0, <- (Hcat r0 Hin0).
    apply normalizeCategory_idem. }
  rewrite Hname. unfold itemsOf, rowsIn. rewrite map_map.
  clear Hin0 Hr0 r0.
  induction rows as [|r rows IH]; [reflexivity|].
  cbn [forallb] in Hn, Hv.
  apply andb_true_iff in Hn. destruct Hn as [Hr Hn].
  apply andb_true_iff in Hv. destruct Hv as [Hvr Hv].
  cbn [filter]. rewrite Hvr, (Hcat r (or_introl eq_refl)). cbn [andb].
  assert (IH' := IH Hn Hv (fun x Hx => Hcat x (or_intror Hx))).
  destruct (eqb (row_category r) c) eqn:E; [|exact IH'].
  cbn [List.map]. rewrite IH'. f_equal.
  destruct (normalizedRow_parts _ Hr) as [[i Hi] [_ [Ht Hd]]].
  apply eqb_true in E.
  destruct r as [ri rc rn rp rd]. cbn in *. subst ri.
  now rewrite Ht, trimDescription_idem, Hd, E.
Qed.

Lemma rows_come_back_regrouped_witness :
  let row (c n : string) (p : N) :=
    {| row_id := Some (str n); row_category := str c;
       row_name := str n; row_price := ofN p; row_description := None |} in
  let tea := row "Drinks"%string "Tea"%string 90%N in
  let naan := row "Tandoor"%string "Naan"%string 40%N in
  let lassi := row "Drinks"%string "Lassi"%string 120%N in
  categoriesToRows (rowsToCategories [tea; naan; lassi]) = [tea; lassi; naan].
Proof.
  intros row tea naan lassi.
  rewrite (@rows_come_back_regrouped [tea; naan; lassi] eq_refl eq_refl).
  reflexivity.
Defined.

(** *** Saving *)

Lemma synced_rows_nonEmpty updated :
  updated <> [] -> ensureRowIds updated <> [].
Proof.
  intros H E. apply H. apply length_zero_iff_nil.
  rewrite <- (ensureRowIdsFrom_length updated []). unfold ensureRowIds in E.
  now rewrite E.
Qed.

Lemma items_count rows :
  List.length (flat_map cat_items (rowsToCategories rows))
  = List.length (filter validRow rows).
Proof.
  rewrite items_of_categories.
  rewrite (Permutation_length (grouped_Permutation rows [])).
  cbn [flat_map app]. apply length_map.
Qed.

(** With a restaurant selected, [saveMenu] refuses rows of which one has a
    blank name or a price that is no finite number, and refuses to save
    when there is no row at all; in every other case it posts the groups of
    the rows with their identifiers assigned, which is also the state it
    installs once the route has answered. *)
Theorem save_decided_by_rows sel st url :
  nonEmpty sel = true ->
  saveMenu (Some sel) st url
  = if forallb validRow (menuRows st) then
      match menuRows st with
      | [] => SaveRefused (str "No items to save yet.")
      | _ :: _ =>
          SaveRequest
            {| menu_items_json := menuCategories (syncCategoriesFromRows (menuRows st));
               menu_image_url := if nonEmpty url then Some url else None |}
            (syncCategoriesFromRows (menuRows st))
      end
    else SaveRefused (str "Please fix menu items (name and price required).").
Proof.
  intros Hsel. unfold saveMenu. rewrite Hsel.
  destruct (forallb validRow (menuRows st)) eqn:Hv; [|reflexivity].
  destruct (menuRows st) as [|r rows] eqn:Er; [reflexivity|].
  unfold syncCategoriesFromRows. cbn [menuCategories].
  assert (Hne : rowsToCategories (ensureRowIds (r :: rows)) <> []).
  { apply rowsToCategories_nonEmpty.
    - apply synced_rows_nonEmpty. discriminate.
    - unfold ensureRowIds. now rewrite ensureRowIdsFrom_valid. }
  destruct (rowsToCategories (ensureRowIds (r :: rows))); [congruence|reflexivity].
Qed.

Lemma save_decided_by_rows_witness :
  saveMenu (Some (str "r1")) {| menuCategories := []; menuRows := [] |} (str "x")
  = SaveRefused (str "No items to save yet.").
Proof. apply (@save_decided_by_rows (str "r1")). reflexivity. Defined.

(** What [saveMenu] posts holds one item for every row of the editor, and
    saving the state that it installs posts the same payload and installs
    the same state again. *)
Theorem saving_again_changes_nothing sel st url payload st' :
  saveMenu sel st url = SaveRequest payload st' ->
  List.length (flat_map cat_items (menu_items_json payload)) = List.length (menuRows st)
  /\ menuCategories st' = menu_items_json payload
  /\ List.map triple (menuRows st') = List.map trimmedTriple (menuRows st)
  /\ saveMenu sel st' url = SaveRequest payload st'.
Proof.
  unfold saveMenu. destruct sel as [sel|]; [|discriminate].
  destruct (nonEmpty sel); [|discriminate].
  destruct (forallb validRow (menuRows st)) eqn:Hv; [|discriminate].
  destruct (rowsToCategories (ensureRowIds (menuRows st))) as [|g gs] eqn:Eg;
    [discriminate|].
  intros H. injection H as <- <-. cbn [menu_items_json menuRows menuCategories].
  split; [|split; [reflexivity|split]].
  - rewrite <- Eg, items_count. unfold ensureRowIds.
    rewrite filter_all by (now rewrite ensureRowIdsFrom_valid).
    apply ensureRowIdsFrom_length.
  - clear Hv Eg. unfold ensureRowIds. generalize (@nil (jsstring * N)).
    induction (menuRows st) as [|r rows IH]; intros counters; [reflexivity|].
    rewrite ensureRowIdsFrom_cons. cbn [List.map]. now rewrite IH.
  - unfold ensureRowIds at 1. rewrite ensureRowIdsFrom_valid, Hv.
    now rewrite ensureRowIds_idem, Eg.
Qed.

Lemma saving_again_changes_nothing_witness :
  let st := {| menuCategories := [];
               menuRows := [plainRow "Drinks" " Tea " (ofN 90);
                            plainRow " Drinks" "Lassi" (ofN 120)] |} in
  let st' := syncCategoriesFromRows (menuRows st) in
  let payload := {| menu_items_json := menuCategories st'; menu_image_url := None |} in
  saveMenu (Some (str "r1")) st' [] = SaveRequest payload st'.
Proof.
  intros st st' payload.
  apply (@saving_again_changes_nothing (Some (str "r1")) st [] payload st' eq_refl).
Defined.


(** *** What the route makes of a saved menu *)

Lemma group_name_nonEmpty rows g :
  In g (rowsToCategories rows) -> nonEmpty (cat_name g) = true.
Proof.
  intros Hg. apply rowsToCategories_In in Hg. destruct Hg as [Hi Hne].
  destruct (cat_items g) as [|it its] eqn:E; [congruence|].
  assert (Hit : In it (itemsOf rows (cat_name g))) by (rewrite <- Hi; now left).
  destruct (itemsOf_valid _ _ _ Hit) as [r [_ [_ [Hc _]]]].
  rewrite <- Hc. apply normalizeCategory_nonEmpty.
Qed.

Lemma forallb_Permutation (A : Type) (f : A -> bool) l l' :
  Permutation l l' -> forallb f l = forallb f l'.
Proof.
  induction 1; cbn [forallb]; try congruence.
  now rewrite !andb_assoc, (andb_comm (f y)).
Qed.

Lemma forallb_over_map (A B : Type) (f : B -> bool) (g : A -> B) l :
  forallb f (List.map g l) = forallb (fun a => f (g a)) l.
Proof. induction l as [|a l IH]; cbn [List.map forallb]; congruence. Qed.

Lemma forallb_groups (f : MenuItem -> bool) cats :
  (forall c, In c cats -> nonEmpty (cat_name c) = true) ->
  forallb (fun c => nonEmpty (cat_name c) && forallb f (cat_items c)) cats
  = forallb f (flat_map cat_items cats).
Proof.
  induction cats as [|c cats IH]; intros H; [reflexivity|].
  cbn [forallb flat_map]. rewrite forallb_app, (H c (or_introl eq_refl)).
  cbn [andb]. f_equal. apply IH. intros x Hx. apply H. now right.
Qed.

Lemma ItemSchema_assigned rows : forall counters,
  forallb validRow rows = true ->
  forallb (fun r => ItemSchema (rowEntry r)) (ensureRowIdsFrom counters rows)
  = forallb (fun r => isNonNegative (row_price r)) rows.
Proof.
  induction rows as [|r rows IH]; intros counters Hv; [reflexivity|].
  cbn [forallb] in Hv. apply andb_true_iff in Hv. destruct Hv as [Hr Hv].
  rewrite ensureRowIdsFrom_cons. cbn [forallb]. rewrite IH by exact Hv. f_equal.
  destruct (assignedId_trimmed counters r) as [id [Hid [_ Hne]]].
  unfold ItemSchema, rowEntry. cbn [item_id item_name item_price].
  rewrite Hid, Hne. unfold ensureRowId. cbn [snd row_name row_price].
  unfold validRow in Hr. apply andb_true_iff in Hr. destruct Hr as [Hn Hp].
  rewrite !trim_idem, Hn. unfold priceSchema. now rewrite Hp.
Qed.

Lemma schema_of_saved rows :
  forallb validRow rows = true ->
  itemsJsonSchema (rowsToCategories (ensureRowIds rows))
  = forallb (fun r => isNonNegative (row_price r)) rows.
Proof.
  intros Hv.
  assert (Hs : itemsJsonSchema (rowsToCategories (ensureRowIds rows))
               = forallb (fun c => nonEmpty (cat_name c)
                                   && forallb ItemSchema (cat_items c))
                         (rowsToCategories (ensureRowIds rows))).
  { unfold itemsJsonSchema. now destruct (rowsToCategories (ensureRowIds rows)). }
  rewrite Hs, forallb_groups by (intros c; apply group_name_nonEmpty).
  rewrite items_of_categories.
  rewrite (forallb_Permutation _ (grouped_Permutation (ensureRowIds rows) [])).
  cbn [flat_map app]. unfold ensureRowIds.
  rewrite filter_all by (now rewrite ensureRowIdsFrom_valid).
  rewrite forallb_over_map. now apply ItemSchema_assigned.
Qed.

Lemma ensureRowIdsFrom_origin rows : forall counters r',
  In r' (ensureRowIdsFrom counters rows) ->
  exists r, In r rows /\ row_price r' = row_price r.
Proof.
  induction rows as [|x rows IH]; intros counters r' H; [contradiction|].
  rewrite ensureRowIdsFrom_cons in H. destruct H as [<-|H].
  - exists x. split; [now left | reflexivity].
  - destruct (IH _ _ H) as [r [Hr Hp]]. exists r. split; [now right | exact Hp].
Qed.

Section Accepted.
Variable isUrl : jsstring -> bool.

(** The route accepts what [saveMenu] posts exactly when no row has a
    negative price and the address of the menu image, if there is one, is a
    URL; it answers 422 and stores nothing otherwise (the caller having
    passed the two guards, and the store reporting no error).  What it
    stores is the payload as the schema parsed it: the groups and items
    posted, a price [-0] written as zero; when no row has the price [-0]
    that is the payload itself. *)
Theorem saved_menu_accepted_iff sel st url payload st' id table :
  saveMenu sel st url = SaveRequest payload st' ->
  POST isUrl (Normal tt) id payload None table
  = (if forallb (fun r => isNonNegative (row_price r)) (menuRows st)
        && (if nonEmpty url then isUrl url else true)
     then (Success, upsert table id (parsedData payload))
     else (Failure 422 SchemaIssue, table))
  /\ List.map (fun c => List.map item_price (cat_items c))
              (menu_items_json (parsedData payload))
     = List.map (fun c => List.map (fun it => if JsNumber.truthy (item_price it)
                                              then item_price it else zero)
                                   (cat_items c))
                (menu_items_json payload)
  /\ ((forall r, In r (menuRows st) ->
         JsNumber.truthy (row_price r) = false -> row_price r = zero) ->
      parsedData payload = payload).
Proof.
  unfold saveMenu. destruct sel as [sel|]; [|discriminate].
  destruct (nonEmpty sel); [|discriminate].
  destruct (forallb validRow (menuRows st)) eqn:Hv; [|discriminate].
  pose proof (schema_of_saved _ Hv) as Hs.
  assert (Hfin : forall c it,
            In c (rowsToCategories (ensureRowIds (menuRows st))) ->
            In it (cat_items c) ->
            isFinite (item_price it) = true
            /\ exists r, In r (menuRows st) /\ item_price it = row_price r).
  { intros c it Hc Hit. apply rowsToCategories_In in Hc. destruct Hc as [Hi _].
    rewrite Hi in Hit. destruct (itemsOf_valid _ _ _ Hit) as [r' [Hr' [Hvr [_ ->]]]].
    cbn [rowEntry item_price]. split.
    - unfold validRow in Hvr. apply andb_true_iff in Hvr. tauto.
    - exact (ensureRowIdsFrom_origin _ _ _ Hr'). }
  destruct (rowsToCategories (ensureRowIds (menuRows st))) as [|g gs] eqn:Eg;
    [discriminate|].
  intros H. injection H as <- <-. split; [|split].
  - unfold POST, MenuUpsertSchema. cbn [menu_items_json menu_image_url].
    rewrite Hs. now destruct (nonEmpty url).
  - unfold parsedData. cbn [menu_items_json]. rewrite map_map.
    apply map_ext_in. intros c Hc. cbn [parsedCategory cat_items].
    rewrite map_map. apply map_ext_in. intros it Hit.
    cbn [parsedItem item_price]. unfold coercedPrice.
    destruct (Hfin c it Hc Hit) as [Hf _]. now rewrite Hf.
  - intros Hz. unfold parsedData. cbn [menu_items_json menu_image_url]. f_equal.
    rewrite <- (map_id (g :: gs)) at 2. apply map_ext_in. intros c Hc.
    pose proof (Hfin c) as Hitems. destruct c as [n its].
    unfold parsedCategory. cbn [cat_name cat_items] in *. f_equal.
    rewrite <- (map_id its) at 2. apply map_ext_in. intros it Hit.
    destruct (Hitems it Hc Hit) as [Hf [r [Hr Hp]]].
    destruct it as [i nm pr d]. unfold parsedItem. cbn [item_id item_name item_price
      item_description] in *. f_equal. unfold coercedPrice. rewrite Hf. cbn [andb].
    destruct (JsNumber.truthy pr) eqn:E; [reflexivity|].
    rewrite Hp in E. rewrite Hp. symmetry. now apply Hz.
Qed.
End Accepted.

Lemma saved_menu_accepted_iff_witness :
  let rows := [plainRow "Drinks" "Tea" (ofN 90);
               plainRow "Drinks" "Water" (Finite true 0 0)] in
  let st := syncCategoriesFromRows rows in
  let payload := {| menu_items_json := menuCategories st; menu_image_url := None |} in
  List.map (fun c => List.map item_price (cat_items c)) (menu_items_json payload)
  = [[ofN 90; Finite true 0 0]]
  /\ List.map (fun entry =>
                 List.map (fun c => List.map item_price (cat_items c))
                          (menu_items_json (snd entry)))
              (snd (POST (fun _ => true) (Normal tt) (str "r1") payload None []))
     = [[[ofN 90; zero]]].
Proof.
  intros rows st payload. split; [reflexivity|].
  rewrite (proj1 (@saved_menu_accepted_iff (fun _ => true) (Some (str "r1")) st []
                    payload st (str "r1") [] eq_refl)).
  reflexivity.
Defined.

(** *** Loading what was stored *)

Lemma plainItem_json it : plainItem (jsonItem it) = true.
Proof.
  destruct it as [[i|] n p [d|]]; unfold jsonItem, jsonNumber;
    cbn [item_id item_name item_price item_description jsonMember app];
    destruct (isFinite p); reflexivity.
Qed.

Lemma itemOf_json it idx :
  ItemSchema it = true -> itemOf (jsonItem it) idx = storedItem it.
Proof.
  unfold ItemSchema. intros H.
  repeat (apply andb_true_iff in H; destruct H as [H ?]).
  destruct it as [[i|] n p d]; cbn [item_id item_name item_price] in *;
    [|discriminate].
  unfold itemOf, storedItem, jsonItem.
  cbn [item_id item_name item_price item_description jsonMember app].
  match goal with
  | |- context [optGet ?o "id"] =>
      assert (Hid : optGet o "id" = Prim (Str i)) by reflexivity;
      assert (Hname : optGet o "name" = Prim (Str n)) by reflexivity;
      assert (Hprice : optGet o "price" = jsonNumber p) by reflexivity;
      assert (Hdesc : asString (optGet o "description") = d)
        by (destruct d; reflexivity)
  end.
  rewrite Hid, Hname, Hprice, Hdesc.
  unfold or. cbn [JsValue.truthy]. rewrite H, H1. cbn [toPrimitive StringP].
  f_equal. unfold jsonNumber, storedPrice.
  destruct p as [|s|s m e]; reflexivity.
Qed.

Lemma mapi_json items : forall i,
  forallb ItemSchema items = true ->
  mapi itemOf i (List.map jsonItem items) = List.map storedItem items.
Proof.
  induction items as [|it items IH]; intros i H; [reflexivity|].
  cbn [forallb] in H. apply andb_true_iff in H. destruct H as [Hit H].
  cbn [List.map mapi]. now rewrite itemOf_json, IH.
Qed.

Lemma keepItem_stored it : ItemSchema it = true -> keepItem (storedItem it) = true.
Proof.
  unfold ItemSchema, keepItem, storedItem. cbn [item_name item_price]. intros H.
  repeat (apply andb_true_iff in H; destruct H as [H ?]).
  rewrite H1. unfold storedPrice.
  destruct (item_price it) as [|s|s m e]; try reflexivity.
  cbn [isFinite andb]. now destruct (JsNumber.truthy (Finite s m e)).
Qed.

Lemma groupOf_json c :
  nonEmpty (cat_name c) = true -> forallb ItemSchema (cat_items c) = true ->
  plainCategory (jsonCategory c) = true /\ groupOf (jsonCategory c) = storedCategory c.
Proof.
  intros Hn Hi. unfold plainCategory, groupOf, jsonCategory, storedCategory.
  assert (Hname : optGet (Obj [(str "name", Prim (Str (cat_name c)));
                               (str "items", Arr (List.map jsonItem (cat_items c)))])
                         "name" = Prim (Str (cat_name c))) by reflexivity.
  assert (Hitems : optGet (Obj [(str "name", Prim (Str (cat_name c)));
                                (str "items", Arr (List.map jsonItem (cat_items c)))])
                          "items" = Arr (List.map jsonItem (cat_items c)))
    by reflexivity.
  unfold primitiveMember. rewrite Hname, Hitems. split.
  - cbn [nullish negb andb]. rewrite forallb_over_map. apply forallb_forall.
    intros it _. apply plainItem_json.
  - unfold or. cbn [JsValue.truthy]. rewrite Hn. cbn [toPrimitive StringP].
    f_equal. unfold validItems. rewrite mapi_json by exact Hi.
    apply filter_all. rewrite forallb_over_map.
    rewrite forallb_forall in Hi. apply forallb_forall.
    intros it Hit. apply keepItem_stored. now apply Hi.
Qed.

(** Groups that the schema of the route accepts load back from their JSON
    as the same groups in the same order with the same items, identifiers
    and descriptions included; only a price [-0], or one that is no finite
    number, comes back as zero. *)
Theorem accepted_menu_loads_back cats :
  itemsJsonSchema cats = true ->
  applyMenuJson (jsonOf cats) = Normal (catalogOf (List.map storedCategory cats)).
Proof.
  intros H. destruct cats as [|c cats]; [reflexivity|].
  unfold itemsJsonSchema in H.
  assert (Hall : forall g, In g (c :: cats) ->
            plainCategory (jsonCategory g) = true
            /\ groupOf (jsonCategory g) = storedCategory g).
  { intros g Hg. rewrite forallb_forall in H. specialize (H g Hg).
    apply andb_true_iff in H. destruct H as [Hn Hi]. now apply groupOf_json. }
  unfold applyMenuJson, jsonOf.
  assert (Hfirst : firstHasItems (List.map jsonCategory (c :: cats)) = true)
    by reflexivity.
  rewrite Hfirst. rewrite mapM_plain.
  - cbn [bind]. unfold catalogOf. rewrite map_map.
    assert (Hmap : List.map (fun x => groupOf (jsonCategory x)) (c :: cats)
                   = List.map storedCategory (c :: cats)).
    { apply map_ext_in. intros g Hg. now apply Hall. }
    now rewrite Hmap.
  - rewrite forallb_over_map. apply forallb_forall. intros g Hg. now apply Hall.
Qed.

Lemma accepted_menu_loads_back_witness :
  let tea := {| item_id := Some (str "drinks-tea-1"); item_name := str "Tea";
                item_price := ofN 90; item_description := Some (str " hot ") |} in
  let water := {| item_id := Some (str "w"); item_name := str "Water";
                  item_price := Finite true 0 0; item_description := None |} in
  let cats := [ {| cat_name := str "Drinks"; cat_items := [tea; water] |} ] in
  applyMenuJson (jsonOf cats)
  = Normal (catalogOf [ {| cat_name := str "Drinks";
                           cat_items := [tea;
                                         {| item_id := Some (str "w");
                                            item_name := str "Water";
                                            item_price := zero;
                                            item_description := None |}] |} ]).
Proof.
  intros tea water cats.
  apply (@accepted_menu_loads_back cats). reflexivity.
Defined.


(** *** Importing, then saving *)

Lemma imported_rows f rows :
  importRows f = inr rows ->
  exists raw, rows = ensureRowIds raw /\ raw <> [] /\ forallb validRow raw = true.
Proof.
  unfold importRows. pose proof (readRows_agree f) as H. unfold readAgrees in H.
  destruct (readCells f) as [e|cells].
  - destruct H as [-> _]. discriminate.
  - destruct H as [rs [-> [_ Hv]]]. destruct rs as [|r rs]; [discriminate|].
    intros E. injection E as <-. exists (r :: rs). now repeat split.
Qed.

(** An import that succeeds leaves the editor in a state that can be saved
    as it stands: every row is valid and carries its identifier, the count
    of the toast is the number of items in the groups shown, and [saveMenu]
    posts these groups and installs the very same state. *)
Theorem imported_menu_saved_as_shown sel f st st' msg url :
  importMenuFile sel (Some f) st = (st', Some (ToastSuccess msg)) ->
  forallb validRow (menuRows st') = true
  /\ forallb normalizedRow (menuRows st') = true
  /\ msg = str "Imported "
             ++ decimal (N.of_nat (List.length
                                     (flat_map cat_items (menuCategories st'))))
             ++ str " items."
  /\ saveMenu sel st' url
     = SaveRequest {| menu_items_json := menuCategories st';
                      menu_image_url := if nonEmpty url then Some url else None |}
                   st'.
Proof.
  unfold importMenuFile. destruct sel as [sel|]; [|discriminate].
  destruct (nonEmpty sel) eqn:Hsel; [|discriminate].
  destruct (importRows f) as [e|rows] eqn:Ei; [discriminate|].
  intros H. injection H as <- <-. cbn [menuRows menuCategories].
  destruct (imported_rows _ Ei) as [raw [-> [Hne Hv]]].
  assert (Hv' : forallb validRow (ensureRowIds raw) = true)
    by (unfold ensureRowIds; now rewrite ensureRowIdsFrom_valid).
  split; [exact Hv'|]. split; [apply ensureRowIdsFrom_assigned|]. split.
  - rewrite items_count, (filter_all _ _ Hv'). reflexivity.
  - unfold saveMenu. rewrite Hsel. cbn [menuRows]. rewrite Hv', ensureRowIds_idem.
    assert (Hg : rowsToCategories (ensureRowIds raw) <> []).
    { apply rowsToCategories_nonEmpty; [now apply synced_rows_nonEmpty | exact Hv']. }
    destruct (rowsToCategories (ensureRowIds raw)); [congruence|reflexivity].
Qed.

Lemma imported_menu_saved_as_shown_witness :
  let f := csvFile "menu.csv" ["Item Name"; "Price"; "Category"]%string
             [["Tea"; "Rs. 90"; "drinks"]; ["Naan"; "40"; " "]]%string in
  let st := fst (importMenuFile (Some (str "r1")) (Some f) emptyCatalog) in
  saveMenu (Some (str "r1")) st []
  = SaveRequest {| menu_items_json := menuCategories st; menu_image_url := None |} st.
Proof.
  intros f st.
  apply (@imported_menu_saved_as_shown (Some (str "r1")) f emptyCatalog st
           (str "Imported 2 items.") [] eq_refl).
Defined.

(** *** What a load can leave in the editor *)

Lemma mapM_each (A B : Type) (f : A -> completion B) l : forall l',
  mapM f l = Normal l' ->
  forall y, In y l' -> exists x, f x = Normal y.
Proof.
  induction l as [|a l IH]; intros l' H y Hy.
  - injection H as <-. contradiction.
  - cbn [mapM] in H. destruct (f a) as [b|] eqn:Eb; cbn [bind] in H; [|discriminate].
    destruct (mapM f l) as [bs|] eqn:Ebs; cbn [bind] in H; [|discriminate].
    injection H as <-. destruct Hy as [<-|Hy]; [eauto|].
    exact (IH _ eq_refl y Hy).
Qed.

Lemma loadItems_each elems items it :
  loadItems elems = Normal items -> In it items -> keepItem it = true.
Proof.
  unfold loadItems. destruct (mapiM loadItem 0 elems) as [all|] eqn:E;
    cbn [bind]; [|discriminate].
  intros H Hit. injection H as <-. apply filter_In in Hit. tauto.
Qed.

Lemma loadCategory_each c g it :
  loadCategory c = Normal g -> In it (cat_items g) -> keepItem it = true.
Proof.
  unfold loadCategory.
  destruct (get c "name") as [rawName|]; cbn [bind]; [|discriminate].
  destruct (ToString _) as [name|]; cbn [bind]; [|discriminate].
  destruct (get c "items") as [rawItems|]; cbn [bind]; [|discriminate].
  destruct rawItems as [p|elems|props]; cbn [bind].
  - intros H. injection H as <-. contradiction.
  - destruct (loadItems elems) as [items|] eqn:E; cbn [bind]; [|discriminate].
    intros H. injection H as <-. cbn [cat_items]. now apply loadItems_each with elems.
  - intros H. injection H as <-. contradiction.
Qed.

(** Whatever is stored, when the load goes through every item it leaves
    in the editor has a name that is not empty and a finite price, and the
    rows shown are the rows of the groups shown.  A stored value that is no
    array of groups yields at most one group, named [Uncategorized], which
    is not empty. *)
Theorem loaded_items_are_kept incoming st :
  applyMenuJson incoming = Normal st ->
  menuRows st = categoriesToRows (menuCategories st)
  /\ (forall g it, In g (menuCategories st) -> In it (cat_items g) ->
        nonEmpty (item_name it) = true /\ isFinite (item_price it) = true)
  /\ (match incoming with
      | Arr elems => firstHasItems elems
      | _ => false
      end = false ->
      menuCategories st = []
      \/ exists items, items <> []
                       /\ menuCategories st
                          = [{| cat_name := Uncategorized; cat_items := items |}]).
Proof.
  unfold applyMenuJson.
  assert (Hkeep : forall it, keepItem it = true ->
            nonEmpty (item_name it) = true /\ isFinite (item_price it) = true).
  { intros it Hk. unfold keepItem in Hk. now apply andb_true_iff in Hk. }
  destruct incoming as [p|elems|props]; cbn [bind].
  - intros H. injection H as <-. cbn. split; [reflexivity|].
    split; [contradiction | now left].
  - destruct (firstHasItems elems) eqn:Ef.
    + destruct (mapM loadCategory elems) as [cats|] eqn:E; cbn [bind]; [|discriminate].
      intros H. injection H as <-. cbn [menuRows menuCategories].
      split; [reflexivity|]. split; [|discriminate].
      intros g it Hg Hit. apply Hkeep.
      destruct (@mapM_each _ _ _ _ _ E _ Hg) as [c Hc].
      exact (@loadCategory_each _ _ _ Hc Hit).
    + destruct (loadItems elems) as [items|] eqn:E; cbn [bind]; [|discriminate].
      intros H. injection H as <-. cbn [menuRows menuCategories].
      split; [reflexivity|]. split.
      * intros g it Hg Hit. apply Hkeep. destruct items as [|i0 items]; [contradiction|].
        destruct Hg as [<-|[]]. cbn [cat_items] in Hit.
        exact (@loadItems_each _ _ _ E Hit).
      * intros _. destruct items as [|i0 items]; [now left|].
        right. exists (i0 :: items). split; [discriminate | reflexivity].
  - intros H. injection H as <-. cbn. split; [reflexivity|].
    split; [contradiction | now left].
Qed.

Lemma loaded_items_are_kept_witness :
  let tea := object [("name", text "Tea"); ("price", text "90")]%string in
  let nameless := object [("price", Prim (Num (ofN 90)))]%string in
  let priceless := object [("name", text "Naan"); ("price", text "forty")]%string in
  List.map (List.map item_name)
    (List.map cat_items
       (match applyMenuJson (Arr [tea; nameless; priceless]) with
        | Normal st => menuCategories st
        | Throw _ => []
        end))
  = [[str "Tea"]].
Proof.
  intros tea nameless priceless.
  destruct (@loaded_items_are_kept (Arr [tea; nameless; priceless]) _ eq_refl)
    as [_ [_ H]].
  destruct (H eq_refl) as [E|[items [_ E]]]; [discriminate E|].
  reflexivity.
Defined.


(** *** Editing a row *)

Lemma updateAt_forallb (A : Type) (p : A -> bool) (f : A -> A) l : forall idx,
  forallb p l = true -> (forall a, p a = true -> p (f a) = true) ->
  forallb p (updateAt idx f l) = true.
Proof.
  induction l as [|a l IH]; intros idx H Hf; [now destruct idx|].
  cbn [forallb] in H. apply andb_true_iff in H. destruct H as [Ha Hl].
  destruct idx as [|idx]; cbn [updateAt forallb].
  - now rewrite (Hf a Ha), Hl.
  - now rewrite Ha, IH.
Qed.

Lemma ensureRowIdsFrom_updateAt (f g : MenuRow -> MenuRow) rows : forall idx counters,
  forallb normalizedRow rows = true ->
  (forall c r, normalizedRow r = true -> snd (ensureRowId c (f r)) = g r) ->
  ensureRowIdsFrom counters (updateAt idx f rows) = updateAt idx g rows.
Proof.
  induction rows as [|r rows IH]; intros idx counters H Hfg; [now destruct idx|].
  cbn [forallb] in H. apply andb_true_iff in H. destruct H as [Hr Hs].
  destruct idx as [|idx]; cbn [updateAt]; rewrite ensureRowIdsFrom_cons.
  - rewrite (Hfg _ _ Hr). f_equal. now apply ensureRowIdsFrom_fixed.
  - rewrite normalizedRow_fixed by exact Hr. f_equal. now apply IH.
Qed.

Lemma edited_row (f : MenuRow -> MenuRow) c r :
  normalizedRow r = true -> row_id (f r) = row_id r ->
  row_description (f r) = row_description r ->
  snd (ensureRowId c (f r))
  = {| row_id := row_id r;
       row_category := normalizeCategory (row_category (f r));
       row_name := trim (row_name (f r));
       row_price := row_price (f r);
       row_description := row_description r |}.
Proof.
  intros Hr Hid Hd.
  destruct (normalizedRow_parts _ Hr) as [[i Hi] [_ [_ Hdesc]]].
  assert (Hexp : nonEmpty i = true /\ trim i = i).
  { unfold normalizedRow in Hr. rewrite Hi in Hr.
    repeat (apply andb_true_iff in Hr; destruct Hr as [Hr ?]).
    split; [exact Hr|]. now apply eqb_true. }
  destruct Hexp as [Hne Ht].
  unfold ensureRowId, explicitId. cbn [snd]. rewrite Hid, Hd, Hi, Ht, Hne, Hdesc.
  reflexivity.
Qed.

(** In an editor whose rows [ensureRowIds] has written, typing in the
    category, the name or the price of a row changes that field of that row
    and nothing else: the row keeps its identifier, whatever its new name
    and category, and the other rows stay as they are.  The category is
    stored normalised, the name trimmed, and the price as the number
    read. *)
Theorem edits_keep_identifiers st idx text :
  forallb normalizedRow (menuRows st) = true ->
  menuRows (editCategory st idx text)
  = updateAt idx (withCategory (normalizeCategory text)) (menuRows st)
  /\ menuRows (editName st idx text)
     = updateAt idx (withName (trim text)) (menuRows st)
  /\ menuRows (editPrice st idx text)
     = updateAt idx (withPrice (StringToNumber text)) (menuRows st)
  /\ List.map row_id (menuRows (editCategory st idx text))
     = List.map row_id (menuRows st)
  /\ List.map row_id (menuRows (editName st idx text))
     = List.map row_id (menuRows st).
Proof.
  intros H.
  assert (Hc : menuRows (editCategory st idx text)
               = updateAt idx (withCategory (normalizeCategory text)) (menuRows st)).
  { unfold editCategory, syncCategoriesFromRows, ensureRowIds. cbn [menuRows].
    apply ensureRowIdsFrom_updateAt; [exact H|]. intros c r Hr.
    rewrite (@edited_row (withCategory text) c r Hr eq_refl eq_refl).
    destruct (normalizedRow_parts _ Hr) as [_ [_ [Hn _]]].
    unfold withCategory. cbn [row_category row_name row_price]. now rewrite Hn. }
  assert (Hn : menuRows (editName st idx text)
               = updateAt idx (withName (trim text)) (menuRows st)).
  { unfold editName, syncCategoriesFromRows, ensureRowIds. cbn [menuRows].
    apply ensureRowIdsFrom_updateAt; [exact H|]. intros c r Hr.
    rewrite (@edited_row (withName text) c r Hr eq_refl eq_refl).
    destruct (normalizedRow_parts _ Hr) as [_ [Hcat _]].
    unfold withName. cbn [row_category row_name row_price]. now rewrite Hcat. }
  assert (Hp : menuRows (editPrice st idx text)
               = updateAt idx (withPrice (StringToNumber text)) (menuRows st)).
  { unfold editPrice, syncCategoriesFromRows, ensureRowIds. cbn [menuRows].
    apply ensureRowIdsFrom_updateAt; [exact H|]. intros c r Hr.
    rewrite (@edited_row (withPrice (StringToNumber text)) c r Hr eq_refl eq_refl).
    destruct (normalizedRow_parts _ Hr) as [_ [Hcat [Hname _]]].
    unfold withPrice. cbn [row_category row_name row_price]. now rewrite Hcat, Hname. }
  assert (Hids : forall f : MenuRow -> MenuRow,
            (forall r, row_id (f r) = row_id r) ->
            List.map row_id (updateAt idx f (menuRows st))
            = List.map row_id (menuRows st)).
  { intros f Hf. clear - Hf. revert idx. induction (menuRows st) as [|r rows IH];
      intros idx; [now destruct idx|].
    destruct idx as [|idx]; cbn [updateAt List.map]; [now rewrite Hf|].
    now rewrite IH. }
  split; [exact Hc|]. split; [exact Hn|]. split; [exact Hp|]. split.
  - rewrite Hc. now apply Hids.
  - rewrite Hn. now apply Hids.
Qed.

Lemma edits_keep_identifiers_witness :
  let st := syncCategoriesFromRows [plainRow "Drinks" "Tea" (ofN 90);
                                    plainRow "Drinks" "Lassi" (ofN 120)] in
  List.map row_id (menuRows (editName st 0 (str "Green tea ")))
  = [Some (str "drinks-tea-1"); Some (str "drinks-lassi-2")]
  /\ List.map row_name (menuRows (editName st 0 (str "Green tea ")))
     = [str "Green tea"; str "Lassi"].
Proof.
  intros st.
  destruct (@edits_keep_identifiers st 0 (str "Green tea ") eq_refl)
    as [_ [Hn [_ [_ Hids]]]].
  split; [rewrite Hids | rewrite Hn]; reflexivity.
Defined.


(** *** Slugs *)

Lemma lowerUnit_slug c :
  isLowerAlnum c || isHyphen c = true -> lowerUnit c = [c].
Proof.
  unfold lowerUnit, isLowerAlnum, isDigit, isHyphen, hyphen, inRange. intros H.
  destruct (65 <=? c)%N eqn:E1; destruct (c <=? 90)%N eqn:E2; cbn [andb];
    try (destruct (c =? 304)%N eqn:E3; [apply N.eqb_eq in E3; subst; discriminate|];
         destruct (c =? 8490)%N eqn:E4; [apply N.eqb_eq in E4; subst; discriminate|];
         reflexivity).
  exfalso. apply N.leb_le in E1, E2.
  repeat (apply orb_true_iff in H; destruct H as [H|H]);
    try (apply andb_true_iff in H; destruct H as [Ha Hb];
         apply N.leb_le in Ha, Hb; lia).
  apply N.eqb_eq in H. lia.
Qed.

Lemma toLowerCase_slug s :
  forallb (fun c => isLowerAlnum c || isHyphen c) s = true -> toLowerCase s = s.
Proof.
  induction s as [|c s IH]; [reflexivity|]. intros H.
  cbn [forallb] in H. apply andb_true_iff in H. destruct H as [Hc Hs].
  unfold toLowerCase in *. cbn [flat_map]. rewrite (lowerUnit_slug _ Hc), IH by exact Hs.
  reflexivity.
Qed.

Lemma splitWords_hyphenated ws :
  wordsOk ws -> splitWords (hyphenated ws) = ([], ws).
Proof.
  induction 1 as [|x ws [Hne Hx] Hws IH]; [reflexivity|].
  cbn [hyphenated flat_map]. fold (hyphenated ws).
  assert (Hword : forall w, forallb isLowerAlnum w = true ->
            splitWords (w ++ hyphenated ws) = (w, ws)).
  { induction w as [|c w IHw]; intros Hw; [exact IH|].
    cbn [forallb] in Hw. apply andb_true_iff in Hw. destruct Hw as [Hc Hw].
    cbn [app splitWords]. now rewrite (IHw Hw), Hc. }
  cbn [app splitWords]. rewrite (Hword x Hx).
  assert (Hh : isLowerAlnum hyphen = false) by reflexivity.
  rewrite Hh. unfold consWord. now rewrite Hne.
Qed.

Lemma words_join w ws :
  nonEmpty w = true -> forallb isLowerAlnum w = true -> wordsOk ws ->
  words (join [hyphen] (w :: ws)) = w :: ws.
Proof.
  intros Hne Hw Hws. rewrite join_hyphenated. unfold words.
  assert (H : splitWords (w ++ hyphenated ws) = (w, ws)).
  { clear Hne. induction w as [|c w IH]; [now apply splitWords_hyphenated|].
    cbn [forallb] in Hw. apply andb_true_iff in Hw. destruct Hw as [Hc Hw].
    cbn [app splitWords]. now rewrite (IH Hw), Hc. }
  rewrite H. unfold consWord. now rewrite Hne.
Qed.

Lemma words_ok s : wordsOk (words s).
Proof.
  unfold words. pose proof (splitWords_ok s) as [Hw Hws].
  destruct (splitWords s) as [w ws]. now apply consWord_ok.
Qed.

Lemma join_chars ws c :
  wordsOk ws -> In c (join [hyphen] ws) -> isLowerAlnum c || isHyphen c = true.
Proof.
  induction 1 as [|w ws [_ Hw] Hws IH]; [intros []|].
  rewrite join_hyphenated. intros Hin. apply in_app_or in Hin.
  destruct Hin as [Hin|Hin].
  - rewrite forallb_forall in Hw. now rewrite (Hw c Hin).
  - destruct ws as [|x ws]; [contradiction|].
    cbn [hyphenated flat_map] in Hin. fold (hyphenated ws) in Hin.
    destruct Hin as [<-|Hin]; [reflexivity|].
    apply IH. now rewrite join_hyphenated.
Qed.

(** A slug is made of runs of characters of [[a-z0-9]] joined by single
    hyphens, with at least one run, and the slug of a slug is the slug
    itself. *)
Theorem slug_of_a_slug s :
  slugify (slugify s) = slugify s
  /\ exists w ws, nonEmpty w = true /\ wordsOk (w :: ws)
                  /\ slugify s = join [hyphen] (w :: ws).
Proof.
  assert (Hshape : exists w ws, nonEmpty w = true /\ wordsOk (w :: ws)
                                /\ slugify s = join [hyphen] (w :: ws)).
  { rewrite slugify_words. unfold slugOfWords.
    pose proof (words_ok (toLowerCase s)) as Hok.
    destruct (words (toLowerCase s)) as [|w ws].
    - exists (str "item"), []. split; [reflexivity|]. split; [|reflexivity].
      constructor; [split; reflexivity | constructor].
    - exists w, ws. inversion Hok as [|x xs [Hne Hw] Hws]; subst.
      split; [exact Hne|]. split; [exact Hok|].
      destruct (orElse_cases (join [hyphen] (w :: ws)) (str "item"))
        as [[_ ->]|[E _]]; [reflexivity|].
      rewrite join_hyphenated in E. destruct w; [discriminate Hne | discriminate E]. }
  split; [|exact Hshape].
  destruct Hshape as [w [ws [Hne [Hok ->]]]].
  inversion Hok as [|x xs [_ Hw] Hws]; subst.
  rewrite slugify_words. unfold slugOfWords.
  rewrite toLowerCase_slug.
  - rewrite words_join by assumption.
    destruct (orElse_cases (join [hyphen] (w :: ws)) (str "item"))
      as [[_ ->]|[E _]]; [reflexivity|].
    rewrite join_hyphenated in E. destruct w; [discriminate Hne | discriminate E].
  - apply forallb_forall. intros c Hc. now apply join_chars with (w :: ws).
Qed.

End EditorFacts.

(** ** Saving delivery zones: what the protocol stores *)

Module ZoneSaveFacts.
Import JsString JsNumber JsValue Route DeliveryZones StringFacts MapFacts ZoneFacts.

(** *** The rows a save can leave in the table *)

Lemma deleteGroups_incl id groups : forall s r,
  In r (delivery_zones (snd (deleteGroups id groups s))) -> In r (delivery_zones s).
Proof.
  induction groups as [|[group zoneNames] groups IH]; intros s r H; [exact H|].
  cbn [deleteGroups] in H. unfold deleteZones in H.
  destruct (nextAnswer s) as [[message|] rest]; cbn [snd delivery_zones] in H;
    [exact H|].
  apply IH in H. cbn [delivery_zones] in H. apply filter_In in H. tauto.
Qed.

Lemma replaceZones_incl id zones s r :
  In r (delivery_zones (snd (replaceZones id zones s))) ->
  In r (delivery_zones s) \/ In r (rowsOf id zones).
Proof.
  unfold replaceZones.
  pose proof (deleteGroups_incl id (JsMap.entries (zonesByCity (rowsOf id zones))) s r)
    as Hd.
  destruct (deleteGroups id (JsMap.entries (zonesByCity (rowsOf id zones))) s)
    as [[u|e] s']; cbn [snd] in *; [|auto].
  unfold insertZones.
  destruct (nextAnswer s') as [[message|] rest]; cbn [snd delivery_zones]; [auto|].
  intros H. apply in_app_or in H. destruct H as [H|H]; auto.
Qed.

(** Whatever the request and whatever the store answers, the route puts no
    row in the table that fails the schema of a zone: when every row there
    has a city and a name that are not empty and a fee and a minimum order
    that are finite and not negative, so has every row after the request. *)
Theorem stored_zones_pass_the_schema access id body s :
  forallb (fun r => zoneSchema (zone r)) (delivery_zones s) = true ->
  forallb (fun r => zoneSchema (zone r))
          (delivery_zones (snd (POST access id body s))) = true.
Proof.
  intros H. unfold POST.
  destruct access as [u|e]; [|exact H].
  destruct (normalizeBody body) as [normalized|e]; [|exact H].
  destruct (NormalizedZonesSchema normalized) eqn:Hs; [|exact H].
  assert (Hz : forallb zoneSchema normalized = true)
    by (unfold NormalizedZonesSchema in Hs; now destruct normalized).
  assert (Hafter : forallb (fun r => zoneSchema (zone r))
                     (delivery_zones (snd (replaceZones id normalized s))) = true).
  { apply forallb_forall. intros r Hr. apply replaceZones_incl in Hr.
    destruct Hr as [Hr|Hr].
    - rewrite forallb_forall in H. now apply H.
    - unfold rowsOf in Hr. apply in_map_iff in Hr. destruct Hr as [z [<- Hin]].
      rewrite forallb_forall in Hz. now apply Hz. }
  now destruct (replaceZones id normalized s) as [[count|e] s'].
Qed.

Lemma stored_zones_pass_the_schema_witness :
  let s := {| delivery_zones := rowsOf (str "r1") [zoneOf "Karachi" "Gulshan" 100];
              answers := [None; Some (str "timeout")] |} in
  let body := bodyOf [zoneValue "Karachi" "Gulshan" 120; zoneValue "Karachi" "DHA" 300] in
  forallb (fun r => zoneSchema (zone r))
          (delivery_zones (snd (POST (Normal tt) (str "r1") body s))) = true.
Proof.
  intros s body.
  apply (@stored_zones_pass_the_schema (Normal tt) (str "r1") body s). reflexivity.
Defined.

(** *** A save that the store carries out *)

Lemma rowsOf_kept id zones :
  filter (inBatch id zones) (rowsOf id zones) = rowsOf id zones.
Proof.
  pose proof (rowsOf_inBatch id zones) as H.
  induction (rowsOf id zones) as [|r rows IH]; [reflexivity|].
  cbn [forallb] in H. apply andb_true_iff in H. destruct H as [Hr H].
  rewrite negb_involutive in Hr. cbn [filter]. rewrite Hr. f_equal. now apply IH.
Qed.


Lemma filter_none (A : Type) (f : A -> bool) l :
  filter f (filter (fun a => negb (f a)) l) = [].
Proof.
  induction l as [|a l IH]; [reflexivity|].
  cbn [filter]. destruct (f a) eqn:E; cbn [negb filter]; [exact IH|].
  now rewrite E.
Qed.


(** When the store carries every statement out, a save leaves, for the
    restaurant and the cities and names of the batch, the rows of the batch
    and no other, in the order of the batch, and reports their number. *)
Theorem saved_batch_replaces_its_rows id zones table :
  let s := {| delivery_zones := table; answers := [] |} in
  fst (replaceZones id zones s) = Normal (N.of_nat (List.length zones))
  /\ kept (inBatch id zones) (snd (replaceZones id zones s)) = rowsOf id zones
  /\ List.map zone (kept (inBatch id zones) (snd (replaceZones id zones s))) = zones.
Proof.
  intros s. unfold s. rewrite save_carried_out. cbn [fst snd].
  assert (Hk : kept (inBatch id zones)
                 {| delivery_zones :=
                      filter (fun r => negb (inBatch id zones r)) table
                      ++ rowsOf id zones;
                    answers := [] |} = rowsOf id zones).
  { unfold kept. cbn [delivery_zones].
    now rewrite filter_app, filter_none, rowsOf_kept. }
  split; [reflexivity|]. split; [exact Hk|].
  rewrite Hk. unfold rowsOf. rewrite map_map. cbn [zone]. apply map_id.
Qed.


(** *** A save that fails at the insert *)

Lemma deleteGroups_then id groups : forall table rest,
  deleteGroups id groups
    {| delivery_zones := table;
       answers := repeat None (List.length groups) ++ rest |}
  = (Normal tt,
     {| delivery_zones := filter (fun r => negb (targeted id groups r)) table;
        answers := rest |}).
Proof.
  induction groups as [|[group zoneNames] groups IH]; intros table rest.
  - cbn. f_equal. f_equal. induction table as [|r table IHt]; cbn; congruence.
  - cbn [deleteGroups List.length repeat app].
    unfold deleteZones, nextAnswer. cbn [answers delivery_zones].
    rewrite IH. f_equal. f_equal. rewrite filter_filter. apply filter_ext.
    intros r. cbn [targeted existsb]. now rewrite negb_orb.
Qed.

(** The protocol is not atomic.  When the store carries out the delete
    statement of every city of the batch and then refuses the insert, the
    request is answered with status 500 and the message of the store, and
    the rows that the batch was to replace are gone from the table, which
    holds no row of the batch in their place. *)
Theorem failed_insert_loses_the_replaced_rows id body zones table message rest :
  normalizeBody body = Normal zones ->
  NormalizedZonesSchema zones = true ->
  let s := {| delivery_zones := table;
              answers := repeat None (List.length (groupsOf id zones))
                         ++ Some message :: rest |} in
  POST (Normal tt) id body s
  = (Failure 500 (Message message),
     {| delivery_zones := filter (fun r => negb (inBatch id zones r)) table;
        answers := rest |}).
Proof.
  intros Hb Hs s. unfold POST. rewrite Hb, Hs.
  unfold replaceZones, s, groupsOf. rewrite deleteGroups_then.
  unfold insertZones, nextAnswer. cbn [answers delivery_zones caught].
  f_equal. f_equal. apply filter_ext. intros r. now rewrite targeted_inBatch.
Qed.

Lemma failed_insert_loses_the_replaced_rows_witness :
  let table := rowsOf (str "r1") [zoneOf "Karachi" "Gulshan" 100;
                                  zoneOf "Karachi" "Clifton" 150] in
  let body := bodyOf [zoneValue "Karachi" "Gulshan" 120] in
  POST (Normal tt) (str "r1") body
       {| delivery_zones := table; answers := [None; Some (str "timeout")] |}
  = (Failure 500 (Message (str "timeout")),
     {| delivery_zones := rowsOf (str "r1") [zoneOf "Karachi" "Clifton" 150];
        answers := [] |}).
Proof.
  intros table body.
  apply (@failed_insert_loses_the_replaced_rows (str "r1") body
           [zoneOf "Karachi" "Gulshan" 120] table (str "timeout") [] eq_refl eq_refl).
Defined.


(** *** What [normalizeZone] can return *)

Lemma toString_trimmed v s : toString v = Normal s -> trim s = s.
Proof.
  unfold toString.
  assert (H : forall c : completion jsstring,
            (s0 <- c ;; Normal (trim s0)) = Normal s -> trim s = s).
  { intros [s0|e]; cbn [bind]; [|discriminate].
    intros E. injection E as <-. apply trim_idem. }
  destruct v as [[| |b|x|t]|elems|props]; try apply H;
    intros E; injection E as <-; reflexivity.
Qed.

Lemma mapM_member (A B : Type) (f : A -> completion B) l : forall l' x,
  mapM f l = Normal l' -> In x l -> exists y, f x = Normal y /\ In y l'.
Proof.
  induction l as [|a l IH]; intros l' x H Hx; [contradiction|].
  cbn [mapM] in H. destruct (f a) as [b|] eqn:Eb; cbn [bind] in H; [|discriminate].
  destruct (mapM f l) as [bs|] eqn:Ebs; cbn [bind] in H; [|discriminate].
  injection H as <-. destruct Hx as [<-|Hx].
  - exists b. split; [exact Eb | now left].
  - destruct (IH _ x eq_refl Hx) as [y [Hy Hin]]. exists y. split; [exact Hy | now right].
Qed.

Lemma normalizeZone_no_fee input fallbackCity z :
  normalizeZone input fallbackCity = Normal z ->
  nullish (coalesce (optGet input "delivery_fee") (optGet input "deliveryFee")) = true ->
  delivery_fee z = NaN.
Proof.
  unfold normalizeZone.
  destruct (toString (optGet input "city")) as [ownCity|]; cbn [bind]; [|discriminate].
  destruct (toString (optGet input "zone_name")) as [name|]; cbn [bind];
    [|discriminate].
  destruct (if nonEmpty name then Normal name else toString (optGet input "area"))
    as [zoneName|]; cbn [bind]; [|discriminate].
  destruct (toNumber (coalesce (optGet input "delivery_fee")
                               (optGet input "deliveryFee")))
    as [deliveryFee|] eqn:Ef; cbn [bind]; [|discriminate].
  destruct (toNumber (coalesce (coalesce (optGet input "min_order_amount")
                                         (optGet input "minOrder"))
                               (optGet input "min_order")))
    as [minOrder|]; cbn [bind]; [|discriminate].
  intros H Hnull. injection H as <-. cbn [delivery_fee].
  destruct (coalesce (optGet input "delivery_fee") (optGet input "deliveryFee"))
    as [[| |b|x|t]|elems|props]; try discriminate;
    cbn [toNumber] in Ef; injection Ef as <-; reflexivity.
Qed.

(** Whatever the raw zone, [normalizeZone] returns a name that is trimmed
    and a city that is trimmed and not empty, or else the fallback city; a
    minimum order that is a finite number; and a fee that is a finite
    number or [NaN], and [NaN] whenever the raw zone has neither
    [delivery_fee] nor [deliveryFee]. *)
Theorem normalized_zone_range input fallbackCity z :
  normalizeZone input fallbackCity = Normal z ->
  trim (zone_name z) = zone_name z
  /\ (city z = fallbackCity \/ (nonEmpty (city z) = true /\ trim (city z) = city z))
  /\ isFinite (min_order_amount z) = true
  /\ (isFinite (delivery_fee z) = true \/ delivery_fee z = NaN)
  /\ (nullish (coalesce (optGet input "delivery_fee") (optGet input "deliveryFee"))
      = true -> delivery_fee z = NaN).
Proof.
  intros Hz. pose proof (normalizeZone_no_fee _ _ Hz) as Hno. revert Hz.
  unfold normalizeZone.
  destruct (toString (optGet input "city")) as [ownCity|] eqn:Ec; cbn [bind];
    [|discriminate].
  destruct (toString (optGet input "zone_name")) as [name|] eqn:En; cbn [bind];
    [|discriminate].
  destruct (if nonEmpty name then Normal name else toString (optGet input "area"))
    as [zoneName|] eqn:Ez; cbn [bind]; [|discriminate].
  destruct (toNumber (coalesce (optGet input "delivery_fee")
                               (optGet input "deliveryFee")))
    as [deliveryFee|] eqn:Ef; cbn [bind]; [|discriminate].
  destruct (toNumber (coalesce (coalesce (optGet input "min_order_amount")
                                         (optGet input "minOrder"))
                               (optGet input "min_order")))
    as [minOrder|] eqn:Em; cbn [bind]; [|discriminate].
  intros H. injection H as <-.
  cbn [city zone_name delivery_fee min_order_amount].
  split; [|split; [|split; [|split]]].
  - destruct (nonEmpty name).
    + injection Ez as <-. exact (toString_trimmed _ En).
    + exact (toString_trimmed _ Ez).
  - destruct (orElse_cases ownCity fallbackCity) as [[Hne ->]|[_ ->]]; [right|now left].
    split; [exact Hne | exact (toString_trimmed _ Ec)].
  - destruct minOrder as [x|]; [|reflexivity].
    destruct (isFinite x) eqn:E; [exact E | reflexivity].
  - destruct deliveryFee as [x|]; [|now right].
    destruct (isFinite x) eqn:E; [now left | now right].
  - exact Hno.
Qed.

Lemma normalized_zone_range_witness :
  normalizeZone (Obj [(str "area", Prim (Str (str " Saddar ")));
                      (str "minOrder", Prim (Str (str "abc")))]) (str "Karachi")
  = Normal {| city := str "Karachi"; zone_name := str "Saddar";
              delivery_fee := NaN; min_order_amount := zero; is_active := true |}
  /\ delivery_fee {| city := str "Karachi"; zone_name := str "Saddar";
                     delivery_fee := NaN; min_order_amount := zero;
                     is_active := true |} = NaN.
Proof.
  split; [reflexivity|].
  apply (@normalized_zone_range
           (Obj [(str "area", Prim (Str (str " Saddar ")));
                 (str "minOrder", Prim (Str (str "abc")))]) (str "Karachi") _ eq_refl).
  reflexivity.
Defined.

(** A request one of whose zones has neither [delivery_fee] nor
    [deliveryFee] changes nothing in the table, whatever its other zones
    are: it is answered with status 400 when the zones can be normalised,
    and never with a count of saved zones. *)
Theorem zone_without_fee_is_refused access id body s raw :
  In raw (rawZones body) ->
  nullish (coalesce (optGet raw "delivery_fee") (optGet raw "deliveryFee")) = true ->
  snd (POST access id body s) = s
  /\ (forall n, fst (POST access id body s) <> SuccessCount n)
  /\ (forall zones, normalizeBody body = Normal zones ->
        POST (Normal tt) id body s = (Failure 400 SchemaIssue, s)).
Proof.
  intros Hin Hfee.
  assert (Hrefused : forall zones, normalizeBody body = Normal zones ->
            NormalizedZonesSchema zones = false).
  { intros zones Hz. unfold normalizeBody in Hz.
    destruct (toString (optGet body "city")) as [fallbackCity|]; cbn [bind] in Hz;
      [|discriminate].
    destruct (@mapM_member _ _ _ _ _ raw Hz Hin) as [z [Hn Hzin]].
    pose proof (@normalizeZone_no_fee _ _ _ Hn Hfee) as Hnan.
    unfold NormalizedZonesSchema. destruct zones as [|z0 zones]; [reflexivity|].
    apply not_true_is_false. intros Hall. rewrite forallb_forall in Hall.
    specialize (Hall z Hzin). unfold zoneSchema in Hall. rewrite Hnan in Hall.
    cbn [isFinite] in Hall. rewrite !andb_false_r in Hall. discriminate. }
  unfold POST. destruct access as [u|e].
  - destruct (normalizeBody body) as [zones|e] eqn:Eb.
    + rewrite (Hrefused zones eq_refl). cbn [fst snd].
      split; [reflexivity|]. split; [discriminate|]. intros zs _. now destruct u.
    + cbn [fst snd]. split; [reflexivity|]. split; [now destruct e | discriminate].
  - cbn [fst snd]. split; [reflexivity|]. split; [now destruct e|].
    intros zones Hz. now rewrite Hz, (Hrefused zones Hz).
Qed.

Lemma zone_without_fee_is_refused_witness :
  let body := bodyOf [zoneValue "Karachi" "Gulshan" 120;
                      Obj [(str "city", Prim (Str (str "Karachi")));
                           (str "zone_name", Prim (Str (str "DHA")))]] in
  let s := {| delivery_zones := rowsOf (str "r1") [zoneOf "Karachi" "Gulshan" 100];
              answers := [] |} in
  POST (Normal tt) (str "r1") body s = (Failure 400 SchemaIssue, s).
Proof.
  intros body s.
  destruct (@zone_without_fee_is_refused (Normal tt) (str "r1") body s
              (Obj [(str "city", Prim (Str (str "Karachi")));
                    (str "zone_name", Prim (Str (str "DHA")))]))
    as [_ [_ H]].
  - right. now left.
  - reflexivity.
  - exact (H _ eq_refl).
Defined.

End ZoneSaveFacts.

(** ** The delivery-zone form *)

Module ZoneEditorFacts.
Import JsString JsNumber JsValue Route DeliveryZones MenuEditor ZoneEditor.
Import StringFacts MapFacts ZoneFacts.

Lemma key_listed (k : jsstring) l : existsb (eqb k) l = true <-> In k l.
Proof.
  rewrite existsb_exists. split.
  - intros [x [Hx He]]. apply eqb_eq in He. now subst.
  - intros H. exists k. split; [exact H | apply eqb_refl].
Qed.

Lemma key_not_listed (k : jsstring) l : existsb (eqb k) l = false <-> ~ In k l.
Proof.
  rewrite <- key_listed. destruct (existsb (eqb k) l); split; congruence.
Qed.

Section Areas.
Variable lowerCase : jsstring -> jsstring.

Local Abbreviation key := (areaKey lowerCase).
Local Abbreviation unique := (uniqueAreas lowerCase).
Local Abbreviation uniqueFrom := (uniqueAreasFrom lowerCase).

(** *** [uniqueAreas] *)

Lemma uniqueAreasFrom_sound names : forall seen name,
  In name (uniqueFrom seen names) ->
  In name names /\ nonEmpty (key name) = true /\ ~ In (key name) seen.
Proof.
  induction names as [|n names IH]; intros seen name H; [contradiction|].
  cbn [uniqueAreasFrom] in H.
  destruct (nonEmpty (key n)) eqn:En; cbn [negb orb] in H.
  - destruct (existsb (eqb (key n)) seen) eqn:Es.
    + apply IH in H. destruct H as [H1 [H2 H3]]. split; [now right | auto].
    + destruct H as [<-|H].
      * split; [now left|]. split; [exact En|]. now apply key_not_listed.
      * apply IH in H. destruct H as [H1 [H2 H3]]. split; [now right|].
        split; [exact H2|]. intros Hin. apply H3. now right.
  - apply IH in H. destruct H as [H1 [H2 H3]]. split; [now right | auto].
Qed.

Lemma uniqueAreasFrom_NoDup names : forall seen,
  NoDup (List.map key (uniqueFrom seen names)).
Proof.
  induction names as [|n names IH]; intros seen; [constructor|].
  cbn [uniqueAreasFrom].
  destruct (negb (nonEmpty (key n)) || existsb (eqb (key n)) seen); [apply IH|].
  cbn [List.map]. constructor; [|apply IH].
  intros Hin. apply in_map_iff in Hin. destruct Hin as [x [Hx Hin]].
  apply uniqueAreasFrom_sound in Hin. destruct Hin as [_ [_ Hn]].
  apply Hn. rewrite Hx. now left.
Qed.

Lemma uniqueAreasFrom_complete names : forall seen name,
  In name names -> nonEmpty (key name) = true -> ~ In (key name) seen ->
  In (key name) (List.map key (uniqueFrom seen names)).
Proof.
  induction names as [|n names IH]; intros seen name Hin Hne Hseen; [contradiction|].
  cbn [uniqueAreasFrom].
  destruct (eqb (key n) (key name)) eqn:E.
  - apply eqb_eq in E. rewrite E, Hne. cbn [negb orb].
    apply key_not_listed in Hseen. rewrite Hseen. now left.
  - apply eqb_neq in E. destruct Hin as [->|Hin]; [congruence|].
    destruct (negb (nonEmpty (key n)) || existsb (eqb (key n)) seen).
    + now apply IH.
    + right. apply IH; [exact Hin | exact Hne |].
      intros [H|H]; [congruence | contradiction].
Qed.

Lemma uniqueAreasFrom_fixed names : forall seen,
  NoDup (List.map key names) ->
  (forall name, In name names ->
     nonEmpty (key name) = true /\ ~ In (key name) seen) ->
  uniqueFrom seen names = names.
Proof.
  induction names as [|n names IH]; intros seen Hnd H; [reflexivity|].
  cbn [uniqueAreasFrom]. destruct (H n (or_introl eq_refl)) as [Hne Hs].
  apply key_not_listed in Hs. rewrite Hne, Hs. cbn [negb orb]. f_equal.
  cbn [List.map] in Hnd. inversion Hnd as [|k ks Hk Hks]; subst.
  apply IH; [exact Hks|]. intros name Hin.
  destruct (H name (or_intror Hin)) as [Hn1 Hn2]. split; [exact Hn1|].
  intros [Heq|Hin']; [|contradiction].
  apply Hk. rewrite Heq. now apply in_map.
Qed.

(** [uniqueAreas] returns names of the list it is given, none with a blank
    key and no two with the same key; every key of the list that is not
    blank is the key of a name returned; a list whose keys are not blank
    and pairwise different is returned as it is, so that applying
    [uniqueAreas] a second time changes nothing. *)
Theorem unique_areas names :
  NoDup (List.map key (unique names))
  /\ (forall name, In name (unique names) ->
        In name names /\ nonEmpty (key name) = true)
  /\ (forall name, In name names -> nonEmpty (key name) = true ->
        In (key name) (List.map key (unique names)))
  /\ (NoDup (List.map key names)
      /\ (forall name, In name names -> nonEmpty (key name) = true) ->
      unique names = names)
  /\ unique (unique names) = unique names.
Proof.
  assert (Hsound : forall name, In name (unique names) ->
            In name names /\ nonEmpty (key name) = true).
  { intros name H. apply uniqueAreasFrom_sound in H. tauto. }
  split; [apply uniqueAreasFrom_NoDup|]. split; [exact Hsound|]. split; [|split].
  - intros name Hin Hne. now apply uniqueAreasFrom_complete.
  - intros [Hnd Hne]. apply uniqueAreasFrom_fixed; [exact Hnd|].
    intros name Hin. split; [now apply Hne | intros []].
  - apply uniqueAreasFrom_fixed; [apply uniqueAreasFrom_NoDup|].
    intros name Hin. split; [now apply Hsound | intros []].
Qed.

(** *** [addCustomArea] *)

Lemma isPredefinedArea_key name name' c :
  key name = key name' ->
  isPredefinedArea lowerCase name c = isPredefinedArea lowerCase name' c.
Proof. unfold isPredefinedArea. now intros ->. Qed.

Lemma key_trim name : key (trim name) = key name.
Proof. unfold areaKey, normalizeAreaName. now rewrite trim_idem. Qed.

Lemma existsb_key_In (f : PendingZone -> jsstring) k l :
  existsb (fun z => eqb (f z) k) l = false -> ~ In k (List.map f l).
Proof.
  intros H Hin. apply in_map_iff in Hin. destruct Hin as [z [Hz Hin]].
  assert (Ht : existsb (fun z => eqb (f z) k) l = true).
  { apply existsb_exists. exists z. split; [exact Hin|]. rewrite Hz. apply eqb_refl. }
  congruence.
Qed.

Lemma existsb_name_In (f : jsstring -> jsstring) k l :
  existsb (fun a => eqb (f a) k) l = false -> ~ In k (List.map f l).
Proof.
  intros H Hin. apply in_map_iff in Hin. destruct Hin as [z [Hz Hin]].
  assert (Ht : existsb (fun a => eqb (f a) k) l = true).
  { apply existsb_exists. exists z. split; [exact Hin|]. rewrite Hz. apply eqb_refl. }
  congruence.
Qed.

Lemma NoDup_snoc (l : list jsstring) k : NoDup l -> ~ In k l -> NoDup (l ++ [k]).
Proof.
  intros Hl Hk. apply NoDup_app; [exact Hl | constructor; [tauto | constructor] |].
  intros x Hx [<-|[]]. contradiction.
Qed.

(** A name that [addCustomArea] refuses leaves the form as it was.  A name
    that it accepts is the trimmed text, is not blank, has at most forty
    code units and is no predefined area of the city; one pending zone is
    appended for it, with no fee yet, and the text is cleared.  If the keys
    of the pending zones were pairwise different they still are, and if
    those of the selected areas were, and none was blank, the name is
    appended to the selection. *)
Theorem custom_area_added e :
  let name := trim (customAreaText e) in
  let e' := fst (addCustomArea lowerCase e) in
  match snd (addCustomArea lowerCase e) with
  | Some _ => e' = e
  | None =>
      nonEmpty name = true
      /\ (List.length name <= 40)%nat
      /\ isPredefinedArea lowerCase name (zoneCity e) = false
      /\ pendingZones e' = pendingZones e ++ [freshZone (zoneCity e) name]
      /\ customAreaText e' = []
      /\ zoneCity e' = zoneCity e
      /\ (NoDup (List.map (zoneKey lowerCase) (pendingZones e)) ->
          NoDup (List.map (zoneKey lowerCase) (pendingZones e')))
      /\ (NoDup (List.map key (selectedAreas e))
          /\ (forall a, In a (selectedAreas e) -> nonEmpty (key a) = true)
          /\ nonEmpty (key name) = true ->
          selectedAreas e' = selectedAreas e ++ [name])
  end.
Proof.
  intros name e'. unfold e', addCustomArea, normalizeAreaName. fold name.
  destruct (nonEmpty name) eqn:Hne; cbn [negb]; [|reflexivity].
  destruct (40 <? List.length name)%nat eqn:Hlen; [reflexivity|].
  apply Nat.ltb_ge in Hlen.
  destruct (existsb (fun a => eqb (key a) (lowerCase name)) (selectedAreas e))
    eqn:Hsel; [reflexivity|].
  destruct (existsb (fun z => eqb (key (pz_zone_name z)) (lowerCase name))
              (pendingZones e)) eqn:Hpen; [reflexivity|].
  destruct (existsb (fun a => eqb (lowerCase a) (lowerCase name))
              (CITY_AREAS (zoneCity e))) eqn:Hlist; [reflexivity|].
  cbn [orb fst snd pendingZones customAreaText zoneCity selectedAreas].
  assert (Hkey : key name = lowerCase name).
  { unfold areaKey, normalizeAreaName, name. now rewrite trim_idem. }
  split; [reflexivity|]. split; [exact Hlen|]. split.
  { unfold isPredefinedArea. now rewrite Hkey. }
  split; [reflexivity|]. split; [reflexivity|]. split; [reflexivity|]. split.
  - intros Hnd. rewrite map_app. cbn [List.map]. apply NoDup_snoc; [exact Hnd|].
    unfold zoneKey at 1. cbn [freshZone pz_zone_name]. rewrite Hkey.
    now apply existsb_key_In.
  - intros [Hnd [Hall Hk]]. apply uniqueAreasFrom_fixed.
    + rewrite map_app. cbn [List.map]. apply NoDup_snoc; [exact Hnd|].
      rewrite Hkey. now apply existsb_name_In.
    + intros a Ha. split; [|intros []].
      apply in_app_or in Ha. destruct Ha as [Ha|[<-|[]]]; [now apply Hall | exact Hk].
Qed.

(** *** The selection of areas *)

Lemma NoDup_map_filter (A : Type) (f : A -> jsstring) (p : A -> bool) l :
  NoDup (List.map f l) -> NoDup (List.map f (filter p l)).
Proof.
  induction l as [|a l IH]; intros H; [constructor|].
  cbn [List.map] in H. inversion H as [|k ks Hk Hks]; subst.
  cbn [filter]. destruct (p a); [|now apply IH].
  cbn [List.map]. constructor; [|now apply IH].
  intros Hin. apply Hk. apply in_map_iff in Hin. destruct Hin as [x [Hx Hin]].
  apply filter_In in Hin. rewrite <- Hx. apply in_map. tauto.
Qed.

Lemma custom_key_kept c z prev :
  In z prev -> isPredefinedArea lowerCase (pz_zone_name z) c = false ->
  In (key (pz_zone_name z)) (List.map key (customNames lowerCase c prev)).
Proof.
  intros Hin Hc. apply in_map. unfold customNames. apply in_map.
  apply filter_In. split; [exact Hin|]. now rewrite Hc.
Qed.

(** When the selection of areas changes, the pending zones afterwards are
    those from before whose key is the key of a selected name or that are no
    predefined area of the city, each as it was with the fee typed for it,
    followed by one new pending zone for every selected name that had none.
    If the selected names have pairwise different keys, and the pending
    zones had, the pending zones still have. *)
Theorem selection_keeps_custom_zones selected e :
  let e' := selectAreas lowerCase selected e in
  let c := zoneCity e in
  (forall z, In z (pendingZones e) ->
     (In z (pendingZones e')
      <-> In (zoneKey lowerCase z) (List.map key selected)
          \/ isPredefinedArea lowerCase (pz_zone_name z) c = false))
  /\ (forall z, In z (pendingZones e') ->
        In z (pendingZones e)
        \/ exists name, In name selected /\ z = freshZone c name)
  /\ (forall name, In name selected ->
        In (key name) (List.map (zoneKey lowerCase) (pendingZones e')))
  /\ (NoDup (List.map key selected) ->
      NoDup (List.map (zoneKey lowerCase) (pendingZones e)) ->
      NoDup (List.map (zoneKey lowerCase) (pendingZones e')))
  /\ selectedAreas e' = unique (selected ++ customNames lowerCase c (pendingZones e)).
Proof.
  intros e' c. unfold e', selectAreas. fold c.
  cbn [pendingZones selectedAreas].
  set (prev := pendingZones e).
  set (keepKeys := List.map key (selected ++ customNames lowerCase c prev)).
  set (kept := filter (fun z => existsb (eqb (key (pz_zone_name z))) keepKeys) prev).
  set (existing := List.map (fun z => key (pz_zone_name z)) kept).
  set (additions :=
         List.map (freshZone c)
           (filter (fun name => negb (existsb (eqb (key name)) existing)) selected)).
  assert (Hkept : forall z, In z kept <->
            In z prev /\ (In (zoneKey lowerCase z) (List.map key selected)
                          \/ isPredefinedArea lowerCase (pz_zone_name z) c = false)).
  { intros z. unfold kept. rewrite filter_In, key_listed. unfold keepKeys.
    rewrite map_app, in_app_iff. fold (zoneKey lowerCase z). split.
    - intros [Hin [H|H]]; (split; [exact Hin|]); [now left|]. right.
      apply in_map_iff in H. destruct H as [n [Hn Hin']].
      unfold customNames in Hin'. apply in_map_iff in Hin'.
      destruct Hin' as [z' [Hz' Hin']]. apply filter_In in Hin'.
      destruct Hin' as [_ Hp]. apply negb_true_iff in Hp. rewrite <- Hp.
      apply isPredefinedArea_key. unfold zoneKey in Hn. now rewrite Hz', Hn.
    - intros [Hin [H|H]]; (split; [exact Hin|]); [now left|]. right.
      now apply custom_key_kept. }
  assert (Hadd : forall z, In z additions <->
            exists name, In name selected /\ ~ In (key name) existing
                         /\ z = freshZone c name).
  { intros z. unfold additions. rewrite in_map_iff. split.
    - intros [name [Hz Hin]]. apply filter_In in Hin. destruct Hin as [Hin Hn].
      apply negb_true_iff in Hn. apply key_not_listed in Hn. eauto.
    - intros [name [Hin [Hn Hz]]]. exists name. split; [now symmetry|].
      apply filter_In. split; [exact Hin|]. apply negb_true_iff.
      now apply key_not_listed. }
  split; [|split; [|split; [|split]]].
  - intros z Hz. rewrite in_app_iff, Hkept. split.
    + intros [[_ H]|H]; [exact H|]. apply Hadd in H.
      destruct H as [name [Hin [_ ->]]]. left.
      unfold zoneKey. cbn [freshZone pz_zone_name]. now apply in_map.
    + intros H. left. now split.
  - intros z Hz. apply in_app_or in Hz. destruct Hz as [Hz|Hz].
    + left. apply Hkept in Hz. tauto.
    + right. apply Hadd in Hz. destruct Hz as [name [Hin [_ ->]]]. eauto.
  - intros name Hin. rewrite map_app, in_app_iff.
    destruct (existsb (eqb (key name)) existing) eqn:E.
    + left. apply key_listed in E. exact E.
    + right. apply key_not_listed in E.
      apply in_map_iff. exists (freshZone c name). split; [reflexivity|].
      apply Hadd. eauto.
  - intros Hsel Hprev. rewrite map_app. apply NoDup_app.
    + unfold kept. now apply NoDup_map_filter.
    + unfold additions. rewrite map_map.
      assert (Hext : List.map (fun x => zoneKey lowerCase (freshZone c x))
                       (filter (fun name => negb (existsb (eqb (key name)) existing))
                               selected)
                     = List.map key
                         (filter (fun name => negb (existsb (eqb (key name)) existing))
                                 selected)) by reflexivity.
      rewrite Hext. now apply NoDup_map_filter.
    + intros k Hk1 Hk2. apply in_map_iff in Hk2. destruct Hk2 as [z [Hz Hin]].
      apply Hadd in Hin. destruct Hin as [name [_ [Hn ->]]].
      apply Hn. unfold zoneKey in Hz. cbn [freshZone pz_zone_name] in Hz.
      now rewrite Hz.
  - reflexivity.
Qed.


(** *** From the form to the table *)

(** Pending zones whose keys are pairwise different are sent as zones
    whose names, as the route reads them, are pairwise different: the form
    never asks the route to store the same area of the city twice. *)
Theorem distinct_keys_send_distinct_names sel e body after :
  NoDup (List.map (zoneKey lowerCase) (pendingZones e)) ->
  addZone sel e = ZoneRequest body after ->
  body = addZoneBody (pendingZones e)
  /\ NoDup (List.map zone_name (List.map sentZone (pendingZones e)))
  /\ List.length (List.map sentZone (pendingZones e)) = List.length (pendingZones e).
Proof.
  intros Hnd H. split; [|split; [|apply length_map]].
  - unfold addZone in H. destruct sel as [sel|]; [|discriminate].
    destruct (nonEmpty sel); [|discriminate].
    destruct (pendingZones e); [discriminate|]. now injection H as <- _.
  - apply (NoDup_map_inv lowerCase). rewrite !map_map.
    assert (Hext : List.map (fun x => lowerCase (zone_name (sentZone x))) (pendingZones e)
                   = List.map (zoneKey lowerCase) (pendingZones e)) by reflexivity.
    now rewrite Hext.
Qed.

End Areas.

Lemma custom_area_added_witness :
  let e := {| zoneCity := Karachi; selectedAreas := [str "DHA"];
              pendingZones := [freshZone Karachi (str "DHA")];
              customAreaText := str "  Saddar " |} in
  pendingZones (fst (addCustomArea toLowerCase e))
  = [freshZone Karachi (str "DHA"); freshZone Karachi (str "Saddar")]
  /\ fst (addCustomArea toLowerCase
            {| zoneCity := Karachi; selectedAreas := []; pendingZones := [];
               customAreaText := str " dha" |})
     = {| zoneCity := Karachi; selectedAreas := []; pendingZones := [];
          customAreaText := str " dha" |}.
Proof.
  intros e. split.
  - pose proof (custom_area_added toLowerCase e) as H. cbv zeta in H.
    assert (Hs : snd (addCustomArea toLowerCase e) = None) by reflexivity.
    rewrite Hs in H. destruct H as [_ [_ [_ [H _]]]]. rewrite H. reflexivity.
  - exact (custom_area_added toLowerCase
             {| zoneCity := Karachi; selectedAreas := []; pendingZones := [];
                customAreaText := str " dha" |}).
Defined.

Lemma selection_keeps_custom_zones_witness :
  let typed := {| pz_city := Karachi; pz_zone_name := str "Saddar";
                  pz_delivery_fee := str "150"; pz_min_order_amount := [];
                  pz_is_active := true |} in
  let e := {| zoneCity := Karachi; selectedAreas := [str "DHA"; str "Saddar"];
              pendingZones := [freshZone Karachi (str "DHA"); typed];
              customAreaText := [] |} in
  List.map (zoneKey toLowerCase)
           (pendingZones (selectAreas toLowerCase [str "Clifton"; str "Johar"] e))
  = [str "saddar"; str "clifton"; str "johar"]
  /\ NoDup (List.map (zoneKey toLowerCase)
              (pendingZones (selectAreas toLowerCase [str "Clifton"; str "Johar"] e))).
Proof.
  intros typed e. split; [reflexivity|].
  destruct (selection_keeps_custom_zones toLowerCase [str "Clifton"; str "Johar"] e)
    as [_ [_ [_ [H _]]]].
  apply H.
  - repeat constructor; cbn; intuition discriminate.
  - repeat constructor; cbn; intuition discriminate.
Defined.


(** *** What the route reads from the pending zones *)

Lemma feeNumber_written text :
  (if JsNumber.truthy (feeNumber text) then feeNumber text else zero) = feeNumber text.
Proof.
  unfold feeNumber. destruct (JsNumber.truthy (StringToNumber text)) eqn:E.
  - now rewrite E.
  - reflexivity.
Qed.

Lemma normalizeZone_sent z : normalizeZone (zonePayload z) [] = Normal (sentZone z).
Proof.
  unfold normalizeZone, zonePayload, sentZone.
  assert (Hcity : optGet (Obj [(str "city", Prim (Str (cityName (pz_city z))));
       (str "zone_name", Prim (Str (pz_zone_name z)));
       (str "delivery_fee", jsonNumber (feeNumber (pz_delivery_fee z)));
       (str "min_order_amount", jsonNumber (minOrderNumber (pz_min_order_amount z)));
       (str "is_active", Prim (Bool (pz_is_active z)))]) "city"
       = Prim (Str (cityName (pz_city z)))) by reflexivity.
  match type of Hcity with
  | optGet ?o _ = _ =>
      assert (Hname : optGet o "zone_name" = Prim (Str (pz_zone_name z)))
        by reflexivity;
      assert (Harea : optGet o "area" = Prim Undefined) by reflexivity;
      assert (Hfee : optGet o "delivery_fee"
                     = jsonNumber (feeNumber (pz_delivery_fee z))) by reflexivity;
      assert (Hfee' : optGet o "deliveryFee" = Prim Undefined) by reflexivity;
      assert (Hmin : optGet o "min_order_amount"
                     = jsonNumber (minOrderNumber (pz_min_order_amount z)))
        by reflexivity;
      assert (Hmin' : optGet o "minOrder" = Prim Undefined) by reflexivity;
      assert (Hmin'' : optGet o "min_order" = Prim Undefined) by reflexivity;
      assert (Hact : optGet o "is_active" = Prim (Bool (pz_is_active z)))
        by reflexivity
  end.
  rewrite Hcity, Hname, Harea, Hfee, Hfee', Hmin, Hmin', Hmin'', Hact.
  assert (Hc : toString (Prim (Str (cityName (pz_city z))))
               = Normal (cityName (pz_city z))) by (now destruct (pz_city z)).
  assert (Hne : orElse (cityName (pz_city z)) [] = cityName (pz_city z))
    by (now destruct (pz_city z)).
  rewrite Hc. cbn [bind]. rewrite Hne.
  assert (Hn : toString (Prim (Str (pz_zone_name z))) = Normal (trim (pz_zone_name z)))
    by reflexivity.
  rewrite Hn. cbn [bind].
  assert (Hzone : (if nonEmpty (trim (pz_zone_name z))
                   then Normal (trim (pz_zone_name z))
                   else toString (Prim Undefined))
                  = Normal (trim (pz_zone_name z))).
  { destruct (nonEmpty (trim (pz_zone_name z))) eqn:E; [reflexivity|].
    apply nonEmpty_false in E. now rewrite E. }
  rewrite Hzone. cbn [bind asBool].
  assert (Hf : toNumber (coalesce (jsonNumber (feeNumber (pz_delivery_fee z)))
                                  (Prim Undefined))
               = Normal (if isFinite (feeNumber (pz_delivery_fee z))
                         then Some (feeNumber (pz_delivery_fee z)) else None)).
  { unfold jsonNumber. rewrite feeNumber_written.
    now destruct (feeNumber (pz_delivery_fee z)). }
  assert (Hm : toNumber (coalesce
                           (coalesce
                              (jsonNumber (minOrderNumber (pz_min_order_amount z)))
                              (Prim Undefined))
                           (Prim Undefined))
               = Normal (if isFinite (minOrderNumber (pz_min_order_amount z))
                         then Some (storedPrice (minOrderNumber (pz_min_order_amount z)))
                         else None)).
  { unfold jsonNumber, storedPrice.
    destruct (minOrderNumber (pz_min_order_amount z)) as [|s|s m e]; try reflexivity.
    cbn [isFinite andb coalesce nullish toNumber].
    now destruct (JsNumber.truthy (Finite s m e)). }
  rewrite Hf, Hm. cbn [bind]. f_equal. f_equal.
  - now destruct (feeNumber (pz_delivery_fee z)).
  - unfold storedPrice.
    destruct (minOrderNumber (pz_min_order_amount z)) as [|s|s m e]; try reflexivity.
    cbn [isFinite andb]. now destruct (JsNumber.truthy (Finite s m e)).
Qed.

Lemma mapM_sent pending :
  mapM (fun z => normalizeZone z []) (List.map zonePayload pending)
  = Normal (List.map sentZone pending).
Proof.
  induction pending as [|z pending IH]; [reflexivity|].
  cbn [List.map mapM]. rewrite normalizeZone_sent. cbn [bind]. now rewrite IH.
Qed.

(** The route reads from the request of [addZone] one zone for every
    pending zone, in their order: the city of the form, the trimmed name,
    the fee typed (zero when the input is empty or holds no number), the
    minimum order typed (zero likewise) and the flag.  It accepts the
    request exactly when every name is not blank, no fee is infinite or
    negative and no minimum order is negative. *)
Theorem pending_zones_as_the_route_reads_them sel e body after :
  addZone sel e = ZoneRequest body after ->
  normalizeBody body = Normal (List.map sentZone (pendingZones e))
  /\ NormalizedZonesSchema (List.map sentZone (pendingZones e))
     = forallb (fun z => nonEmpty (trim (pz_zone_name z))
                         && isFinite (feeNumber (pz_delivery_fee z))
                         && isNonNegative (feeNumber (pz_delivery_fee z))
                         && isNonNegative (storedPrice
                                             (minOrderNumber (pz_min_order_amount z))))
               (pendingZones e)
  /\ (forall z, In z (pendingZones e) ->
        JsNumber.truthy (StringToNumber (pz_delivery_fee z)) = false ->
        delivery_fee (sentZone z) = zero)
  /\ pendingZones after = [] /\ selectedAreas after = [].
Proof.
  unfold addZone. destruct sel as [sel|]; [|discriminate].
  destruct (nonEmpty sel); [|discriminate].
  destruct (pendingZones e) as [|z zs] eqn:Ep; [discriminate|].
  intros H. injection H as <- <-.
  split; [|split; [|split; [|split; reflexivity]]].
  - unfold normalizeBody, addZoneBody, rawZones.
    assert (Hcity : optGet (Obj [(str "zones", Arr (List.map zonePayload (z :: zs)))])
                           "city" = Prim Undefined) by reflexivity.
    assert (Hzones : optGet (Obj [(str "zones", Arr (List.map zonePayload (z :: zs)))])
                            "zones" = Arr (List.map zonePayload (z :: zs)))
      by reflexivity.
    rewrite Hcity, Hzones. cbn [toString bind]. apply mapM_sent.
  - assert (Hs : NormalizedZonesSchema (List.map sentZone (z :: zs))
                 = forallb zoneSchema (List.map sentZone (z :: zs))) by reflexivity.
    rewrite Hs. generalize (z :: zs). intros l.
    induction l as [|x l IH]; [reflexivity|].
    cbn [List.map forallb]. rewrite IH. f_equal.
    unfold zoneSchema, sentZone.
    cbn [city zone_name delivery_fee min_order_amount].
    assert (Hc : nonEmpty (cityName (pz_city x)) = true) by (now destruct (pz_city x)).
    rewrite Hc. cbn [andb].
    assert (Hm : isFinite (storedPrice (minOrderNumber (pz_min_order_amount x))) = true).
    { unfold storedPrice.
      destruct (minOrderNumber (pz_min_order_amount x)) as [|s|s m e0]; try reflexivity.
      cbn [isFinite andb]. now destruct (JsNumber.truthy (Finite s m e0)). }
    rewrite Hm, andb_true_r.
    destruct (isFinite (feeNumber (pz_delivery_fee x))) eqn:Ef.
    + now rewrite Ef.
    + cbn [isFinite]. now rewrite !andb_false_r.
  - intros x _ Hx. unfold sentZone, feeNumber. cbn [delivery_fee]. now rewrite Hx.
Qed.

Lemma pending_zones_as_the_route_reads_them_witness :
  let e := {| zoneCity := Karachi; selectedAreas := [str "DHA"];
              pendingZones := [freshZone Karachi (str "DHA");
                               {| pz_city := Karachi; pz_zone_name := str " Saddar ";
                                  pz_delivery_fee := str "150";
                                  pz_min_order_amount := str "abc";
                                  pz_is_active := false |}];
              customAreaText := [] |} in
  normalizeBody (addZoneBody (pendingZones e))
  = Normal [ {| city := str "Karachi"; zone_name := str "DHA";
                delivery_fee := zero; min_order_amount := zero; is_active := true |};
             {| city := str "Karachi"; zone_name := str "Saddar";
                delivery_fee := ofN 150; min_order_amount := zero;
                is_active := false |} ].
Proof.
  intros e.
  destruct (@pending_zones_as_the_route_reads_them (Some (str "r1")) e
              (addZoneBody (pendingZones e))
              {| zoneCity := Karachi; selectedAreas := []; pendingZones := [];
                 customAreaText := [] |} eq_refl) as [H _].
  rewrite H. reflexivity.
Defined.


Lemma distinct_keys_send_distinct_names_witness :
  let e := {| zoneCity := Karachi; selectedAreas := [str "DHA"];
              pendingZones := [freshZone Karachi (str "DHA");
                               freshZone Karachi (str " Saddar")];
              customAreaText := [] |} in
  NoDup (List.map zone_name (List.map sentZone (pendingZones e))).
Proof.
  intros e.
  apply (@distinct_keys_send_distinct_names toLowerCase (Some (str "r1")) e
           (addZoneBody (pendingZones e))
           {| zoneCity := Karachi; selectedAreas := []; pendingZones := [];
              customAreaText := [] |}).
  - repeat constructor; cbn; intuition discriminate.
  - reflexivity.
Defined.

End ZoneEditorFacts.

(** ** The deal form *)

Module DealFacts.
Import JsString JsNumber JsValue DealEditor StringFacts.

Lemma split_no_separator sep s line :
  In line (split sep s) -> ~ In sep line.
Proof.
  revert line. induction s as [|c s IH]; intros line H.
  - destruct H as [<-|[]]. intros [].
  - cbn [split] in H. destruct (c =? sep)%N eqn:E.
    + destruct H as [<-|H]; [intros [] | now apply IH].
    + apply N.eqb_neq in E. destruct (split sep s) as [|w ws].
      * destruct H as [<-|[]]. intros [Hc|[]]. congruence.
      * destruct H as [<-|H].
        -- intros [Hc|Hw]; [congruence|]. apply (IH w); [now left | exact Hw].
        -- apply IH. now right.
Qed.

(** Whatever is typed in the deal form, the request that [addDeal] sends
    carries a title that is trimmed and not blank, a price that is a
    finite number and not negative, a description that is trimmed and not
    blank or else none, and item names that are trimmed, not blank and
    hold no line feed; the price is zero when the input is blank. *)
Theorem deal_request_is_clean sel form text payload :
  addDeal sel form text = DealRequest payload ->
  nonEmpty (sent_title payload) = true
  /\ trim (sent_title payload) = sent_title payload
  /\ isFinite (sent_price payload) = true
  /\ isNonNegative (sent_price payload) = true
  /\ (nonEmpty (trim (deal_price form)) = false -> sent_price payload = zero)
  /\ (forall d, sent_description payload = Some d ->
        nonEmpty d = true /\ trim d = d)
  /\ (forall name, In name (sent_items payload) ->
        nonEmpty name = true /\ trim name = name /\ ~ In lineFeed name).
Proof.
  unfold addDeal. destruct sel as [sel|]; [|discriminate].
  destruct (nonEmpty sel); [|discriminate].
  destruct (nonEmpty (trim (deal_title form))) eqn:Ht; cbn [negb]; [|discriminate].
  set (priceValue := if nonEmpty (trim (deal_price form))
                     then StringToNumber (deal_price form) else zero).
  destruct (isFinite priceValue) eqn:Hf; cbn [negb orb]; [|discriminate].
  destruct (isNegative priceValue) eqn:Hn; [discriminate|].
  intros H. injection H as <-.
  cbn [sent_title sent_price sent_description sent_items].
  split; [exact Ht|]. split; [apply trim_idem|]. split; [exact Hf|]. split.
  { destruct priceValue as [|s|s m e]; try discriminate.
    cbn [isNegative isNonNegative] in *. destruct s, (m =? 0)%N; auto. }
  split.
  { intros Hblank. unfold priceValue. now rewrite Hblank. }
  split.
  - intros d Hd. destruct (nonEmpty (trim (deal_description form))) eqn:E;
      [|discriminate].
    injection Hd as <-. split; [exact E | apply trim_idem].
  - intros name Hin. apply filter_In in Hin. destruct Hin as [Hin Hne].
    apply in_map_iff in Hin. destruct Hin as [line [<- Hline]].
    split; [exact Hne|]. split; [apply trim_idem|].
    intros Hlf. apply (split_no_separator _ _ _ Hline).
    unfold trim in Hlf. now apply stripEnds_incl in Hlf.
Qed.

Lemma deal_request_is_clean_witness :
  let form := {| deal_title := str " Family deal "; deal_price := str " ";
                 deal_description := str "  "; deal_is_active := true |} in
  addDeal (Some (str "r1")) form (str " Zinger " ++ [lineFeed] ++ str "  " ++ [lineFeed] ++ str "Fries ")
  = DealRequest {| sent_title := str "Family deal"; sent_price := zero;
                   sent_description := None; sent_is_active := true;
                   sent_items := [str "Zinger"; str "Fries"] |}
  /\ isNonNegative zero = true.
Proof.
  intros form. split; [reflexivity|].
  apply (@deal_request_is_clean (Some (str "r1")) form (str " Zinger " ++ [lineFeed] ++ str "  " ++ [lineFeed] ++ str "Fries ") _ eq_refl).
Defined.

End DealFacts.
